(** * DDM: the Drift Detection Method of creme/drift/ddm.py

    A shallow embedding of the class [DDM] (its constructor, [reset] and
    [add_element]) and the properties of the detector that follow from the
    code.

    Numbers are the code's own.  Python's [float] and numpy's [float64]
    are IEEE-754 binary64, here Rocq's primitive floats: [+], [-], [*],
    [/] and [sqrt] are the correctly rounded operations, [<?], [<=?] and
    [=?] the IEEE comparisons (false on NaN).  Python's [int] is [Z].  The
    two operations of [add_element] that can raise, [float(n)] and the
    division, live in an error monad.

    The development has three parts:
    - the detector, function by function as the source has it;
    - binary64 arithmetic: every finite float is an integer multiple of
      [2^-1074], the comparisons compare these integers, and the four
      operations return a float nearest to the exact result; this is
      derived from the specification of the primitive floats
      ([SpecFloat], [FloatAxioms]);
    - the properties of the detector: the structure of one call, the
      flags, the lazy reset, the running minimum, and the range of the
      statistics under observations in {0, 1}. *)

From Stdlib Require Import ZArith Bool List Lia Floats.
Import ListNotations.

Open Scope Z_scope.

(** ** Exceptions *)

Inductive exn : Set :=
| ZeroDivisionError
| OverflowError.

Inductive res (A : Type) : Type :=
| Ok (a : A)
| Raise (e : exn).

Arguments Ok {A} a.
Arguments Raise {A} e.

Definition bind {A B : Type} (c : res A) (k : A -> res B) : res B :=
  match c with
  | Ok a => k a
  | Raise e => Raise e
  end.

Notation "x <- c ;; k" := (bind c (fun x => k))
  (at level 61, c at next level, right associativity).

(** ** Python's float operations that are not total *)

Module Py.

(** The correctly rounded (to nearest, ties to even) binary64 value of an
    integer. *)
Definition round_int (n : Z) : float :=
  SF2Prim (binary_normalize prec emax n 0 false).

(** The first integer whose rounded value is no longer finite:
    [2^1024 - 2^970], half an ulp above the largest binary64 number. *)
Definition int_max : Z := 2 ^ 1024 - 2 ^ 970.

(** [float(n)] for an [int]: OverflowError when the rounded value would
    not be finite. *)
Definition float_of_int (n : Z) : res float :=
  if Z.abs n <? int_max then Ok (round_int n) else Raise OverflowError.

(** [a / b] on floats: ZeroDivisionError when the divisor is zero (of
    either sign). *)
Definition truediv (a b : float) : res float :=
  if (b =? 0)%float then Raise ZeroDivisionError else Ok (a / b)%float.

End Py.

(** ** The base class

    [creme.base.DriftDetector] owns the two flags that [add_element] reads
    and writes; [estimation] and [delay] are created by [DDM.__init__]
    (lines 90-91) and shared with it. *)

Record Base : Type := mkBase {
  _in_concept_change : bool;
  _in_warning_zone : bool;
  estimation : option float;
  delay : option Z
}.

(** The base class is not among the sources: its constructor and its
    [reset] are parameters of the development. *)
Class DriftDetector : Type := {
  super_init : Base;
  super_reset : Base -> Base
}.

(** Modelled from the spec: the base class [DriftDetector] of creme.base,
    which is missing from the sources; section 6 gives it the flags
    [in_concept_change] and [in_warning_zone] and a [reset()].  This
    instance starts with both flags cleared and clears them on reset. *)
Definition creme_base : DriftDetector := {|
  super_init := mkBase false false None None;
  super_reset := fun b => mkBase false false (estimation b) (delay b)
|}.

(** ** The detector *)

Record DDM : Type := mkDDM {
  base : Base;
  sample_count : Z;
  miss_prob : float;
  miss_std : float;
  miss_prob_sd_min : float;
  miss_prob_min : float;
  miss_sd_min : float;
  min_instances : Z;
  warning_level : float;
  out_control_level : float
}.

Definition in_concept_change (self : DDM) : bool := _in_concept_change (base self).
Definition in_warning_zone (self : DDM) : bool := _in_warning_zone (base self).

Section Detector.

Context {parent : DriftDetector}.

(** [DDM.reset], lines 94-106. *)
Definition reset (self : DDM) : DDM :=
  {| base := super_reset (base self);
     sample_count := 1;
     miss_prob := 1;
     miss_std := 0;
     miss_prob_sd_min := infinity;
     miss_prob_min := infinity;
     miss_sd_min := infinity;
     min_instances := min_instances self;
     warning_level := warning_level self;
     out_control_level := out_control_level self |}.

(** [DDM.__init__], lines 79-92.  The six statistics are created as
    [None] and overwritten by the call of [reset] that ends the
    constructor; the record passed to [reset] holds reset's own values in
    their place. *)
Definition DDM_init (min_num_instances : Z) (warning_level out_control_level : float) : DDM :=
  reset
    {| base := mkBase (_in_concept_change super_init) (_in_warning_zone super_init) None None;
       sample_count := 1;
       miss_prob := 1;
       miss_std := 0;
       miss_prob_sd_min := infinity;
       miss_prob_min := infinity;
       miss_sd_min := infinity;
       min_instances := min_num_instances;
       warning_level := warning_level;
       out_control_level := out_control_level |}.

(** Lines 125-126: the reset that a drift flagged by the previous call
    leaves pending. *)
Definition lazy_reset (self : DDM) : DDM :=
  if in_concept_change self then reset self else self.

(** Lines 128-130: the running mean, its standard deviation, the count. *)
Definition update_statistics (self : DDM) (prediction : float) : res DDM :=
  n <- Py.float_of_int (sample_count self) ;;
  q <- Py.truediv (prediction - miss_prob self)%float n ;;
  let p := (miss_prob self + q)%float in
  n' <- Py.float_of_int (sample_count self) ;;
  v <- Py.truediv (p * (1 - p))%float n' ;;
  Ok {| base := base self;
        sample_count := sample_count self + 1;
        miss_prob := p;
        miss_std := sqrt v;
        miss_prob_sd_min := miss_prob_sd_min self;
        miss_prob_min := miss_prob_min self;
        miss_sd_min := miss_sd_min self;
        min_instances := min_instances self;
        warning_level := warning_level self;
        out_control_level := out_control_level self |}.

(** Lines 132-135. *)
Definition clear_flags (self : DDM) : DDM :=
  {| base := mkBase false false (Some (miss_prob self)) (Some 0);
     sample_count := sample_count self;
     miss_prob := miss_prob self;
     miss_std := miss_std self;
     miss_prob_sd_min := miss_prob_sd_min self;
     miss_prob_min := miss_prob_min self;
     miss_sd_min := miss_sd_min self;
     min_instances := min_instances self;
     warning_level := warning_level self;
     out_control_level := out_control_level self |}.

(** Lines 140-143: the coupled snapshot of the minimum. *)
Definition track_minimum (self : DDM) : DDM :=
  if (miss_prob self + miss_std self <=? miss_prob_sd_min self)%float then
    {| base := base self;
       sample_count := sample_count self;
       miss_prob := miss_prob self;
       miss_std := miss_std self;
       miss_prob_sd_min := (miss_prob self + miss_std self)%float;
       miss_prob_min := miss_prob self;
       miss_sd_min := miss_std self;
       min_instances := min_instances self;
       warning_level := warning_level self;
       out_control_level := out_control_level self |}
  else self.

Definition set_flags (self : DDM) (change warning : bool) : DDM :=
  {| base := mkBase change warning (estimation (base self)) (delay (base self));
     sample_count := sample_count self;
     miss_prob := miss_prob self;
     miss_std := miss_std self;
     miss_prob_sd_min := miss_prob_sd_min self;
     miss_prob_min := miss_prob_min self;
     miss_sd_min := miss_sd_min self;
     min_instances := min_instances self;
     warning_level := warning_level self;
     out_control_level := out_control_level self |}.

(** Lines 145-154: [a > b] on floats is [b <? a]. *)
Definition classify (self : DDM) : DDM :=
  if (miss_prob_min self + out_control_level self * miss_sd_min self
        <? miss_prob self + miss_std self)%float then
    set_flags self true (in_warning_zone self)
  else if (miss_prob_min self + warning_level self * miss_sd_min self
             <? miss_prob self + miss_std self)%float then
    set_flags self (in_concept_change self) true
  else
    set_flags self (in_concept_change self) false.

Definition flags (self : DDM) : bool * bool :=
  (in_concept_change self, in_warning_zone self).

(** [DDM.add_element], lines 108-156: the detector after the call and the
    pair the call returns. *)
Definition add_element (self : DDM) (prediction : float) : res (DDM * (bool * bool)) :=
  let self := lazy_reset self in
  self <- update_statistics self prediction ;;
  let self := clear_flags self in
  if sample_count self <? min_instances self then
    Ok (self, flags self)
  else
    let self := classify (track_minimum self) in
    Ok (self, flags self).

(** The caller's loop: one call per observation, keeping the detector
    and the pair of every call. *)
Fixpoint add_elements (self : DDM) (stream : list float) : res (list (DDM * (bool * bool))) :=
  match stream with
  | [] => Ok []
  | x :: stream' =>
      r <- add_element self x ;;
      rs <- add_elements (fst r) stream' ;;
      Ok (r :: rs)
  end.

End Detector.

(** ** Binary64 numbers as integers

    Every finite binary64 number is an integer multiple of [2^-1074], the
    smallest subnormal; [SFval] is that integer, and an infinity lies
    beyond every finite value. *)

Definition top : Z := 2 ^ 2100.

Definition SFval (x : spec_float) : Z :=
  match x with
  | S754_zero _ => 0
  | S754_infinity s => cond_Zopp s top
  | S754_nan => 0
  | S754_finite s m e => cond_Zopp s (Z.pos m * 2 ^ (e + 1074))
  end.

Definition fval (x : float) : Z := SFval (Prim2SF x).

(** ** Rounding, as the specification of binary64 computes it

    A nonnegative rational [N / D] is handed to the rounding functions as
    its integer part and the position of the rest: zero, below, at or
    above one half. *)

Definition loc_of (r D : Z) : location :=
  if r =? 0 then loc_Exact else loc_Inexact (2 * r ?= D).

Definition inbetween (N D : Z) (mrs : shr_record) : Prop :=
  shr_m mrs = N / D /\ loc_of_shr_record mrs = loc_of (N mod D) D.

(** The exponent of the binary64 number with [x] as the position of its
    leading digit. *)
Definition fexp64 (x : Z) : Z := Z.max (x - 53) (-1074).

(** The number [m * 2^e] as binary64 builds it once [m] is rounded: the
    mantissa [2^53] is renormalised, a too large exponent overflows. *)
Definition round_result (s : bool) (m e : Z) : spec_float :=
  match m with
  | Z0 => S754_zero s
  | Z.pos p =>
      if m =? 2 ^ 53 then
        if e + 1 <=? 971 then S754_finite s (2 ^ 52)%positive (e + 1) else S754_infinity s
      else
        if e <=? 971 then S754_finite s p e else S754_infinity s
  | Z.neg _ => S754_nan
  end.

(** A number of binary64 that is neither NaN nor infinite. *)
Definition SFfinite (x : spec_float) : bool :=
  match x with
  | S754_zero _ | S754_finite _ _ _ => true
  | _ => false
  end.

(** No finite binary64 number is nearer to the rational [Xn / Xd] than
    [v] is (all in multiples of [2^-1074]). *)
Definition nearest (Xn Xd v : Z) : Prop :=
  forall A : spec_float,
    valid_binary A = true -> SFfinite A = true ->
    Z.abs (v * Xd - Xn) <= Z.abs (SFval A * Xd - Xn).

(** [R] is the rounding of [Xn / Xd]: a nearest number [v], or the
    infinity of its sign when [v] is beyond the finite numbers. *)
Definition rounds_to (Xn Xd : Z) (R : spec_float) : Prop :=
  valid_binary R = true /\
  exists v : Z,
    nearest Xn Xd v /\
    ((SFfinite R = true /\ SFval R = v) \/
     (R = S754_infinity false /\ 2 ^ 2098 <= v) \/
     (R = S754_infinity true /\ v <= - 2 ^ 2098)).

(** A float that is neither NaN nor infinite. *)
Definition finite (x : float) : Prop := SFfinite (Prim2SF x) = true.

(** ** Notions the properties are stated with *)

(** [error_rate + error_std] of a detector. *)
Definition sum_of (self : DDM) : float := (miss_prob self + miss_std self)%float.

(** The call that produced [self] passed the warm-up gate of line 137. *)
Definition gated (self : DDM) : bool := min_instances self <=? sample_count self.

(** The two detectors hold the same statistics and configuration; only
    the attributes of the base class may differ. *)
Definition same_statistics (a b : DDM) : Prop :=
  sample_count a = sample_count b /\
  miss_prob a = miss_prob b /\
  miss_std a = miss_std b /\
  miss_prob_sd_min a = miss_prob_sd_min b /\
  miss_prob_min a = miss_prob_min b /\
  miss_sd_min a = miss_sd_min b /\
  min_instances a = min_instances b /\
  warning_level a = warning_level b /\
  out_control_level a = out_control_level b.

(** [m] is the least of the numbers of [vals] (NaN entries apart), and
    [+infinity] when there is none. *)
Definition is_running_min (m : float) (vals : list float) : Prop :=
  match filter (fun v => negb (is_nan v)) vals with
  | [] => m = infinity
  | vs => In m vs /\ forall v, In v vs -> (m <=? v)%float = true
  end.

(** An observation of the documented domain: the integer 0 or 1. *)
Definition binary (x : float) : Prop := x = 0%float \/ x = 1%float.

Section Reachable.

Context {parent : DriftDetector}.

(** Lines 132-156 as one function: what [add_element] does once the
    statistics are updated. *)
Definition conclude (u : DDM) : DDM * (bool * bool) :=
  let s := clear_flags u in
  if sample_count s <? min_instances s then (s, flags s)
  else let s := classify (track_minimum s) in (s, flags s).

(** The detectors that exist at run time: built by the constructor, then
    driven by [reset] and by [add_element] on observations in [P]. *)
Inductive reachable (P : float -> Prop) : DDM -> Prop :=
| reach_init (mi : Z) (wl ocl : float) : reachable P (DDM_init mi wl ocl)
| reach_reset (d : DDM) : reachable P d -> reachable P (reset d)
| reach_add (d : DDM) (x : float) (d' : DDM) (o : bool * bool) :
    reachable P d -> P x -> add_element d x = Ok (d', o) -> reachable P d'.

(** The detector a run ends with. *)
Definition final (self : DDM) (trace : list (DDM * (bool * bool))) : DDM :=
  last (map fst trace) self.

(** No call of the trace flagged a drift. *)
Definition no_drift (trace : list (DDM * (bool * bool))) : Prop :=
  Forall (fun r => fst (snd r) = false) trace.

End Reachable.

(** The configuration of a detector. *)
Definition config (self : DDM) : Z * float * float :=
  (min_instances self, warning_level self, out_control_level self).

(** The thresholds of lines 145-150. *)
Definition out_control_threshold (self : DDM) : float :=
  (miss_prob_min self + out_control_level self * miss_sd_min self)%float.

Definition warning_threshold (self : DDM) : float :=
  (miss_prob_min self + warning_level self * miss_sd_min self)%float.

(** A detector as [reset] leaves it, with the flags of the base class
    cleared. *)
Definition blank (min_num_instances : Z) (warning_level out_control_level : float) : DDM :=
  {| base := mkBase false false None None;
     sample_count := 1;
     miss_prob := 1;
     miss_std := 0;
     miss_prob_sd_min := infinity;
     miss_prob_min := infinity;
     miss_sd_min := infinity;
     min_instances := min_num_instances;
     warning_level := warning_level;
     out_control_level := out_control_level |}.

(** The three fields of the coupled snapshot. *)
Definition snapshot (self : DDM) : float * float * float :=
  (miss_prob_sd_min self, miss_prob_min self, miss_sd_min self).

(** [error_rate + error_std] after the calls of a trace that passed the
    warm-up gate, and after all its calls. *)
Definition gated_sums (trace : list (DDM * (bool * bool))) : list float :=
  map sum_of (filter gated (map fst trace)).

Definition all_sums (trace : list (DDM * (bool * bool))) : list float :=
  map sum_of (map fst trace).

(** What the statistics of a detector fed with 0s and 1s satisfy: the
    count is positive, the error rate is a number of [0, 1], the deviation
    is a nonnegative number. *)
Definition in_range (self : DDM) : Prop :=
  1 <= sample_count self /\
  finite (miss_prob self) /\
  0 <= fval (miss_prob self) <= 2 ^ 1074 /\
  is_nan (miss_std self) = false /\
  0 <= fval (miss_std self).

(** A detector that has seen nothing since its reset, or nothing but the
    observation [x]: its error rate is [x] (or still the 1.0 of the reset),
    and its snapshot is the one of the reset or the one of [x]. *)
Definition steady (x : float) (self : DDM) : Prop :=
  in_concept_change self = false /\
  1 <= sample_count self /\
  (miss_prob self = x \/ (sample_count self = 1 /\ miss_prob self = 1%float)) /\
  (snapshot self = (infinity, infinity, infinity) \/
   snapshot self = ((x + 0)%float, x, 0%float)).


(** The snapshot of a detector fed with 0s and 1s: the one of the reset,
    or an error rate of [0, 1] recorded with a nonnegative deviation. *)
Definition snapshot_in_range (self : DDM) : Prop :=
  snapshot self = (infinity, infinity, infinity) \/
  (finite (miss_prob_min self) /\
   0 <= fval (miss_prob_min self) <= 2 ^ 1074 /\
   is_nan (miss_sd_min self) = false /\
   0 <= fval (miss_sd_min self)).

(** The detector at the end of a run. *)
Definition after {parent : DriftDetector} (self : DDM) (stream : list float) : DDM :=
  match add_elements self stream with
  | Ok trace => final self trace
  | Raise _ => self
  end.

(** * Binary64 arithmetic *)

(** ** The values of valid numbers *)

Lemma digits2_pos_bounds (m : positive) :
  2 ^ (Z.pos (digits2_pos m) - 1) <= Z.pos m < 2 ^ Z.pos (digits2_pos m).
Proof.
  induction m as [m IH | m IH | ]; cbn [digits2_pos].
  - rewrite Pos2Z.inj_succ.
    replace (Z.succ (Z.pos (digits2_pos m)) - 1) with (Z.succ (Z.pos (digits2_pos m) - 1)) by lia.
    rewrite !Z.pow_succ_r by lia. lia.
  - rewrite Pos2Z.inj_succ.
    replace (Z.succ (Z.pos (digits2_pos m)) - 1) with (Z.succ (Z.pos (digits2_pos m) - 1)) by lia.
    rewrite !Z.pow_succ_r by lia. lia.
  - cbn. lia.
Qed.

Lemma valid_finite (s : bool) (m : positive) (e : Z) :
  valid_binary (S754_finite s m e) = true ->
  -1074 <= e <= 971 /\ Z.pos m < 2 ^ 53 /\ (-1074 < e -> 2 ^ 52 <= Z.pos m).
Proof.
  cbn [SpecFloat.valid_binary]. unfold bounded, canonical_mantissa, fexp, SpecFloat.emin.
  change prec with 53. change emax with 1024.
  intros H. apply andb_prop in H. destruct H as [Hc Hb].
  apply Z.eqb_eq in Hc. apply Z.leb_le in Hb.
  pose proof (digits2_pos_bounds m) as [Hlo Hhi].
  assert (Hd : Z.pos (digits2_pos m) <= 53) by lia.
  repeat split; try lia.
  - eapply Z.lt_le_trans; [exact Hhi|]. apply Z.pow_le_mono_r; lia.
  - intros He. assert (Hd53 : Z.pos (digits2_pos m) = 53) by lia.
    rewrite Hd53 in Hlo. exact Hlo.
Qed.

Lemma top_pos : 0 < top.
Proof. unfold top. apply Z.pow_pos_nonneg; lia. Qed.

Lemma finite_val_bounds (s : bool) (m : positive) (e : Z) :
  valid_binary (S754_finite s m e) = true ->
  0 < Z.pos m * 2 ^ (e + 1074) < top.
Proof.
  intros H. apply valid_finite in H. destruct H as (He & Hm & _).
  assert (H0 : 0 < 2 ^ (e + 1074)) by (apply Z.pow_pos_nonneg; lia).
  split; [apply Z.mul_pos_pos; lia|].
  assert (H1 : 2 ^ (e + 1074) <= 2 ^ 2045) by (apply Z.pow_le_mono_r; lia).
  unfold top. replace 2100 with (53 + 2047) by lia. rewrite (Z.pow_add_r 2 53 2047) by lia.
  assert (H2 : 2 ^ 2045 < 2 ^ 2047) by (apply Z.pow_lt_mono_r; lia).
  assert (H3 : 0 < 2 ^ 53) by (apply Z.pow_pos_nonneg; lia).
  revert H0 H1 H2 H3 Hm.
  generalize (2 ^ (e + 1074)) (2 ^ 2045) (2 ^ 2047) (2 ^ 53). intros a b c d. nia.
Qed.

Lemma finite_lt_by_exponent (s1 s2 : bool) (m1 m2 : positive) (e1 e2 : Z) :
  valid_binary (S754_finite s1 m1 e1) = true ->
  valid_binary (S754_finite s2 m2 e2) = true ->
  e1 < e2 ->
  Z.pos m1 * 2 ^ (e1 + 1074) < Z.pos m2 * 2 ^ (e2 + 1074).
Proof.
  intros H1 H2 Hlt.
  apply valid_finite in H1. apply valid_finite in H2.
  destruct H1 as (He1 & Hm1 & _). destruct H2 as (He2 & _ & Hm2).
  specialize (Hm2 ltac:(lia)).
  replace (e2 + 1074) with ((e1 + 1074) + (e2 - e1)) by lia.
  rewrite (Z.pow_add_r 2 (e1 + 1074) (e2 - e1)) by lia.
  assert (H0 : 0 < 2 ^ (e1 + 1074)) by (apply Z.pow_pos_nonneg; lia).
  assert (Hj : 2 ^ 1 <= 2 ^ (e2 - e1)) by (apply Z.pow_le_mono_r; lia).
  change (2 ^ 1) with 2 in Hj.
  change (2 ^ 53) with (2 * 2 ^ 52) in Hm1.
  assert (Hc0 : 0 < 2 ^ 52) by (apply Z.pow_pos_nonneg; lia).
  revert H0 Hj Hm1 Hm2 Hc0.
  generalize (2 ^ (e1 + 1074)) (2 ^ (e2 - e1)) (2 ^ 52) (Z.pos m1) (Z.pos m2).
  intros a j c n1 n2 H0 Hj Hm1 Hm2 Hc0.
  assert (Ha : n1 * a < 2 * c * a) by (apply Z.mul_lt_mono_pos_r; lia).
  assert (Hb : c * a <= n2 * a) by (apply Z.mul_le_mono_nonneg_r; lia).
  assert (Hc : (n2 * a) * 2 <= (n2 * a) * j) by (apply Z.mul_le_mono_nonneg_l; nia).
  lia.
Qed.

Lemma switch_Eq_Eq (c : comparison) : Pos.switch_Eq Eq c = c.
Proof. destruct c; reflexivity. Qed.

Ltac by_sign :=
  symmetry;
  first [ apply Z.compare_eq_iff; lia
        | apply Z.compare_lt_iff; lia
        | apply Z.compare_gt_iff; lia ].

Lemma mul_compare_pos (a b p : Z) : 0 < p -> (a * p ?= b * p) = (a ?= b).
Proof.
  intros Hp. destruct (Z.compare_spec a b) as [E|E|E].
  - subst. apply Z.compare_refl.
  - apply Z.compare_lt_iff. apply Z.mul_lt_mono_pos_r; assumption.
  - apply Z.compare_gt_iff. apply Z.mul_lt_mono_pos_r; assumption.
Qed.

(** On valid numbers the IEEE comparison is the comparison of the values. *)
Lemma SFcompare_val (x y : spec_float) :
  valid_binary x = true -> valid_binary y = true ->
  x <> S754_nan -> y <> S754_nan ->
  SFcompare x y = Some (SFval x ?= SFval y).
Proof.
  intros Vx Vy Nx Ny.
  pose proof top_pos as Ht.
  destruct x as [sx|sx| |sx mx ex]; [| | congruence |];
  destruct y as [sy|sy| |sy my ey]; try congruence.
  - reflexivity.
  - destruct sy; cbn [SFcompare SFval cond_Zopp]; f_equal; by_sign.
  - pose proof (finite_val_bounds _ _ _ Vy).
    destruct sy; cbn [SFcompare SFval cond_Zopp]; f_equal; by_sign.
  - destruct sx; cbn [SFcompare SFval cond_Zopp]; f_equal; by_sign.
  - destruct sx, sy; cbn [SFcompare SFval cond_Zopp]; f_equal; by_sign.
  - pose proof (finite_val_bounds _ _ _ Vy).
    destruct sx, sy; cbn [SFcompare SFval cond_Zopp]; f_equal; by_sign.
  - pose proof (finite_val_bounds _ _ _ Vx).
    destruct sx; cbn [SFcompare SFval cond_Zopp]; f_equal; by_sign.
  - pose proof (finite_val_bounds _ _ _ Vx).
    destruct sx, sy; cbn [SFcompare SFval cond_Zopp]; f_equal; by_sign.
  - pose proof (finite_val_bounds _ _ _ Vx) as Bx.
    pose proof (finite_val_bounds _ _ _ Vy) as By.
    assert (Hp : 0 < 2 ^ (ex + 1074))
      by (apply Z.pow_pos_nonneg; pose proof (valid_finite _ _ _ Vx); lia).
    destruct sx, sy; cbn [SFcompare SFval cond_Zopp]; f_equal; try by_sign.
    + destruct (Z.compare_spec ex ey) as [E|E|E].
      * subst ey. rewrite Pos.compare_cont_spec, switch_Eq_Eq.
        rewrite Z.compare_opp, mul_compare_pos by exact Hp.
        change (Z.pos my ?= Z.pos mx) with (my ?= mx)%positive.
        rewrite (Pos.compare_antisym mx my). reflexivity.
      * pose proof (finite_lt_by_exponent _ _ _ _ _ _ Vx Vy E). by_sign.
      * pose proof (finite_lt_by_exponent _ _ _ _ _ _ Vy Vx E). by_sign.
    + destruct (Z.compare_spec ex ey) as [E|E|E].
      * subst ey. rewrite Pos.compare_cont_spec, switch_Eq_Eq.
        rewrite mul_compare_pos by exact Hp.
        reflexivity.
      * pose proof (finite_lt_by_exponent _ _ _ _ _ _ Vx Vy E). by_sign.
      * pose proof (finite_lt_by_exponent _ _ _ _ _ _ Vy Vx E). by_sign.
Qed.

(** ** The comparisons of primitive floats, through their values *)

Lemma SFcompare_refl (x : spec_float) :
  x <> S754_nan -> SFcompare x x = Some Eq.
Proof.
  destruct x as [s|s| |s m e]; intros H; try congruence; cbn [SFcompare].
  - reflexivity.
  - destruct s; reflexivity.
  - rewrite Z.compare_refl, Pos.compare_cont_refl. destruct s; reflexivity.
Qed.

Lemma is_nan_spec (x : float) : is_nan x = true <-> Prim2SF x = S754_nan.
Proof.
  unfold is_nan. rewrite eqb_spec. unfold SFeqb. split.
  - intros H. destruct (Prim2SF x) as [s|s| |s m e] eqn:E; try reflexivity;
      rewrite SFcompare_refl in H by congruence; discriminate.
  - intros ->. reflexivity.
Qed.

Lemma not_nan_spec (x : float) : is_nan x = false <-> Prim2SF x <> S754_nan.
Proof.
  rewrite <- is_nan_spec. destruct (is_nan x); split; congruence.
Qed.

Lemma compare_val (x y : float) :
  is_nan x = false -> is_nan y = false ->
  SFcompare (Prim2SF x) (Prim2SF y) = Some (fval x ?= fval y).
Proof.
  intros Hx Hy. apply SFcompare_val; try apply Prim2SF_valid; apply not_nan_spec; assumption.
Qed.

Lemma compare_nan (x y : float) :
  is_nan x = true \/ is_nan y = true -> SFcompare (Prim2SF x) (Prim2SF y) = None.
Proof.
  intros [H|H]; apply is_nan_spec in H; rewrite H; [reflexivity|].
  destruct (Prim2SF x); reflexivity.
Qed.

Lemma ltb_val (x y : float) :
  is_nan x = false -> is_nan y = false -> (x <? y)%float = (fval x <? fval y).
Proof.
  intros Hx Hy. rewrite ltb_spec. unfold SFltb. rewrite compare_val by assumption.
  unfold Z.ltb. destruct (fval x ?= fval y); reflexivity.
Qed.

Lemma leb_val (x y : float) :
  is_nan x = false -> is_nan y = false -> (x <=? y)%float = (fval x <=? fval y).
Proof.
  intros Hx Hy. rewrite leb_spec. unfold SFleb. rewrite compare_val by assumption.
  unfold Z.leb. destruct (fval x ?= fval y); reflexivity.
Qed.

Lemma eqb_val (x y : float) :
  is_nan x = false -> is_nan y = false -> (x =? y)%float = (fval x =? fval y).
Proof.
  intros Hx Hy. rewrite eqb_spec. unfold SFeqb. rewrite compare_val by assumption.
  destruct (Z.compare_spec (fval x) (fval y)) as [E|E|E]; symmetry.
  - apply Z.eqb_eq. exact E.
  - apply Z.eqb_neq. lia.
  - apply Z.eqb_neq. lia.
Qed.

Lemma ltb_true_not_nan (x y : float) :
  (x <? y)%float = true -> is_nan x = false /\ is_nan y = false.
Proof.
  intros H. rewrite ltb_spec in H. unfold SFltb in H.
  destruct (is_nan x) eqn:Hx; [rewrite compare_nan in H by auto; discriminate|].
  destruct (is_nan y) eqn:Hy; [rewrite compare_nan in H by auto; discriminate|].
  auto.
Qed.

Lemma leb_true_not_nan (x y : float) :
  (x <=? y)%float = true -> is_nan x = false /\ is_nan y = false.
Proof.
  intros H. rewrite leb_spec in H. unfold SFleb in H.
  destruct (is_nan x) eqn:Hx; [rewrite compare_nan in H by auto; discriminate|].
  destruct (is_nan y) eqn:Hy; [rewrite compare_nan in H by auto; discriminate|].
  auto.
Qed.

Lemma eqb_true_not_nan (x y : float) :
  (x =? y)%float = true -> is_nan x = false /\ is_nan y = false.
Proof.
  intros H. rewrite eqb_spec in H. unfold SFeqb in H.
  destruct (is_nan x) eqn:Hx; [rewrite compare_nan in H by auto; discriminate|].
  destruct (is_nan y) eqn:Hy; [rewrite compare_nan in H by auto; discriminate|].
  auto.
Qed.

Lemma ltb_true_iff (x y : float) :
  (x <? y)%float = true <-> is_nan x = false /\ is_nan y = false /\ fval x < fval y.
Proof.
  split.
  - intros H. destruct (ltb_true_not_nan _ _ H) as [Hx Hy].
    rewrite ltb_val in H by assumption. apply Z.ltb_lt in H. auto.
  - intros (Hx & Hy & H). rewrite ltb_val by assumption. apply Z.ltb_lt. exact H.
Qed.

Lemma leb_true_iff (x y : float) :
  (x <=? y)%float = true <-> is_nan x = false /\ is_nan y = false /\ fval x <= fval y.
Proof.
  split.
  - intros H. destruct (leb_true_not_nan _ _ H) as [Hx Hy].
    rewrite leb_val in H by assumption. apply Z.leb_le in H. auto.
  - intros (Hx & Hy & H). rewrite leb_val by assumption. apply Z.leb_le. exact H.
Qed.

Lemma eqb_true_iff (x y : float) :
  (x =? y)%float = true <-> is_nan x = false /\ is_nan y = false /\ fval x = fval y.
Proof.
  split.
  - intros H. destruct (eqb_true_not_nan _ _ H) as [Hx Hy].
    rewrite eqb_val in H by assumption. apply Z.eqb_eq in H. auto.
  - intros (Hx & Hy & H). rewrite eqb_val by assumption. apply Z.eqb_eq. exact H.
Qed.

(** The order facts the detector relies on. *)

Lemma ltb_irrefl (x : float) : (x <? x)%float = false.
Proof.
  destruct (x <? x)%float eqn:H; [|reflexivity].
  apply ltb_true_iff in H. lia.
Qed.

Lemma eqb_not_ltb (x y : float) : (x =? y)%float = true -> (x <? y)%float = false.
Proof.
  intros H. apply eqb_true_iff in H. destruct H as (Hx & Hy & H).
  rewrite ltb_val by assumption. apply Z.ltb_ge. lia.
Qed.

Lemma eqb_not_gtb (x y : float) : (x =? y)%float = true -> (y <? x)%float = false.
Proof.
  intros H. apply eqb_true_iff in H. destruct H as (Hx & Hy & H).
  rewrite ltb_val by assumption. apply Z.ltb_ge. lia.
Qed.

Lemma leb_refl (x : float) : is_nan x = false -> (x <=? x)%float = true.
Proof. intros H. apply leb_true_iff. repeat split; try assumption. lia. Qed.

Lemma leb_trans (x y z : float) :
  (x <=? y)%float = true -> (y <=? z)%float = true -> (x <=? z)%float = true.
Proof.
  rewrite !leb_true_iff. intros (Hx & Hy & H1) (_ & Hz & H2).
  repeat split; try assumption. lia.
Qed.

Lemma leb_false_ltb (x y : float) :
  is_nan x = false -> is_nan y = false ->
  (x <=? y)%float = false -> (y <? x)%float = true.
Proof.
  intros Hx Hy H. rewrite leb_val in H by assumption. apply Z.leb_gt in H.
  apply ltb_true_iff. auto.
Qed.

Lemma ltb_leb (x y : float) : (x <? y)%float = true -> (x <=? y)%float = true.
Proof.
  rewrite ltb_true_iff, leb_true_iff. intros (Hx & Hy & H). repeat split; try assumption. lia.
Qed.

(** Infinity is above every number. *)

Lemma infinity_not_nan : is_nan infinity = false.
Proof. reflexivity. Qed.

Lemma fval_le_top (x : float) : - top <= fval x <= top.
Proof.
  unfold fval. pose proof (Prim2SF_valid x) as V. pose proof top_pos.
  destruct (Prim2SF x) as [s|s| |s m e]; cbn [SFval]; try lia.
  - destruct s; cbn [cond_Zopp]; lia.
  - pose proof (finite_val_bounds _ _ _ V). destruct s; cbn [cond_Zopp]; lia.
Qed.

Lemma leb_infinity (x : float) : is_nan x = false -> (x <=? infinity)%float = true.
Proof.
  intros H. apply leb_true_iff. split; [exact H|]. split; [reflexivity|].
  change (fval infinity) with top. apply fval_le_top.
Qed.

Lemma loc_of_shr_record_of_loc (m : Z) (l : location) :
  loc_of_shr_record (shr_record_of_loc m l) = l /\ shr_m (shr_record_of_loc m l) = m.
Proof. destruct l as [|[ | | ]]; split; reflexivity. Qed.

Lemma shr_1_inbetween (N D : Z) (mrs : shr_record) :
  0 <= N -> 0 < D -> inbetween N D mrs -> inbetween N (2 * D) (shr_1 mrs).
Proof.
  intros HN HD [Hm Hl].
  pose proof (Z.mod_pos_bound N D HD) as HR.
  pose proof (Z.div_pos N D HN HD) as Hq.
  assert (Hdiv : N / (2 * D) = (N / D) / 2)
    by (rewrite (Z.mul_comm 2 D), Z.div_div by lia; reflexivity).
  assert (Hmod : N mod (2 * D) = N mod D + D * ((N / D) mod 2))
    by (rewrite (Z.mul_comm 2 D); apply Z.rem_mul_r; lia).
  unfold inbetween. rewrite Hdiv, Hmod.
  destruct mrs as [m r s]. cbn [shr_m] in Hm. subst m.
  set (q := N / D) in *. set (R := N mod D) in *. clearbody q R.
  assert (Hrs : (R = 0 /\ r = false /\ s = false) \/
                (0 < R /\ (r, s) <> (false, false))).
  { unfold loc_of in Hl. destruct (Z.eqb_spec R 0) as [E|E].
    - left. destruct r, s; cbn in Hl; try discriminate. auto.
    - right. split; [lia|]. destruct r, s; cbn in Hl; try discriminate; congruence. }
  assert (Hshape : shr_1 {| shr_m := q; shr_r := r; shr_s := s |}
                   = {| shr_m := q / 2; shr_r := Z.odd q; shr_s := r || s |}).
  { destruct q as [|[p|p|]|p]; try lia; cbn [shr_1].
    - reflexivity.
    - replace (Z.pos p~1 / 2) with (Z.pos p) by (rewrite (Pos2Z.inj_xI p); Z.to_euclidean_division_equations; lia). reflexivity.
    - replace (Z.pos p~0 / 2) with (Z.pos p) by (rewrite (Pos2Z.inj_xO p); Z.to_euclidean_division_equations; lia). reflexivity.
    - reflexivity. }
  rewrite Hshape. cbn [shr_m]. split; [reflexivity|].
  rewrite Zmod_odd in *. unfold loc_of.
  destruct (Z.odd q); cbn [loc_of_shr_record].
  - destruct (Z.eqb_spec (R + D * 1) 0) as [E|E]; [lia|].
    destruct Hrs as [(HR0 & -> & ->)|[HRp Hne]].
    + cbn [orb]. f_equal. symmetry. apply Z.compare_eq_iff. lia.
    + assert (Hor : r || s = true) by (destruct r, s; try reflexivity; congruence).
      rewrite Hor. f_equal. symmetry. apply Z.compare_gt_iff. lia.
  - replace (R + D * 0) with R by lia.
    destruct Hrs as [(HR0 & -> & ->)|[HRp Hne]].
    + rewrite HR0. reflexivity.
    + destruct (Z.eqb_spec R 0) as [E|E]; [lia|].
      assert (Hor : r || s = true) by (destruct r, s; try reflexivity; congruence).
      rewrite Hor. f_equal. symmetry. apply Z.compare_lt_iff. lia.
Qed.

Lemma pow2_xO (p : positive) : 2 ^ Z.pos p~0 = 2 ^ Z.pos p * 2 ^ Z.pos p.
Proof.
  rewrite (Pos2Z.inj_xO p). replace (2 * Z.pos p) with (Z.pos p + Z.pos p) by lia.
  apply Z.pow_add_r; lia.
Qed.

Lemma pow2_xI (p : positive) : 2 ^ Z.pos p~1 = 2 * (2 ^ Z.pos p * 2 ^ Z.pos p).
Proof.
  rewrite (Pos2Z.inj_xI p). replace (2 * Z.pos p + 1) with (1 + (Z.pos p + Z.pos p)) by lia.
  rewrite (Z.pow_add_r 2 1) by lia. rewrite (Z.pow_add_r 2 (Z.pos p)) by lia. reflexivity.
Qed.

Lemma iter_shr_1_inbetween (p : positive) :
  forall (N D : Z) (mrs : shr_record),
    0 <= N -> 0 < D -> inbetween N D mrs ->
    inbetween N (D * 2 ^ Z.pos p) (iter_pos shr_1 p mrs).
Proof.
  induction p as [p IH|p IH|]; intros N D mrs HN HD H; cbn [iter_pos].
  - assert (Hp : 0 < 2 ^ Z.pos p) by (apply Z.pow_pos_nonneg; lia).
    apply shr_1_inbetween in H; try assumption.
    apply IH in H; try lia. apply IH in H; try nia.
    replace (D * 2 ^ Z.pos p~1) with (2 * D * 2 ^ Z.pos p * 2 ^ Z.pos p); [exact H|].
    rewrite pow2_xI. ring.
  - assert (Hp : 0 < 2 ^ Z.pos p) by (apply Z.pow_pos_nonneg; lia).
    apply IH in H; try lia. apply IH in H; try nia.
    replace (D * 2 ^ Z.pos p~0) with (D * 2 ^ Z.pos p * 2 ^ Z.pos p); [exact H|].
    rewrite pow2_xO. ring.
  - apply shr_1_inbetween in H; try assumption.
    change (2 ^ 1) with 2. rewrite Z.mul_comm. exact H.
Qed.

Lemma shr_inbetween (N D : Z) (mrs : shr_record) (e n : Z) :
  0 <= N -> 0 < D -> inbetween N D mrs ->
  inbetween N (D * 2 ^ Z.max 0 n) (fst (shr mrs e n)) /\
  snd (shr mrs e n) = e + Z.max 0 n.
Proof.
  intros HN HD H. destruct n as [|p|p]; cbn [shr fst snd].
  - change (Z.max 0 0) with 0. rewrite Z.mul_1_r, Z.add_0_r. auto.
  - replace (Z.max 0 (Z.pos p)) with (Z.pos p) by lia.
    split; [|reflexivity]. apply iter_shr_1_inbetween; assumption.
  - replace (Z.max 0 (Z.neg p)) with 0 by lia. rewrite Z.mul_1_r, Z.add_0_r. auto.
Qed.

Lemma fexp64_eq (x : Z) : fexp prec emax x = fexp64 x.
Proof. reflexivity. Qed.

Lemma Zdigits2_bounds (m : Z) :
  0 < m -> 0 < Zdigits2 m /\ 2 ^ (Zdigits2 m - 1) <= m < 2 ^ Zdigits2 m.
Proof.
  destruct m as [|p|p]; try lia. intros _. cbn [Zdigits2].
  split; [lia|]. apply digits2_pos_bounds.
Qed.

Lemma Zdigits2_le (m d : Z) : 0 < m -> m < 2 ^ d -> 0 <= d -> Zdigits2 m <= d.
Proof.
  intros Hm Hlt Hd. destruct (Zdigits2_bounds m Hm) as [Hp [Hlo _]].
  destruct (Z_le_gt_dec (Zdigits2 m) d) as [H|H]; [exact H|exfalso].
  assert (2 ^ d <= 2 ^ (Zdigits2 m - 1)) by (apply Z.pow_le_mono_r; lia). lia.
Qed.

Lemma Zdigits2_ge (m d : Z) : 2 ^ (d - 1) <= m -> 0 < d -> d <= Zdigits2 m.
Proof.
  intros Hlo Hd.
  assert (Hm : 0 < m) by (pose proof (Z.pow_pos_nonneg 2 (d - 1)); lia).
  destruct (Zdigits2_bounds m Hm) as [Hp [_ Hhi]].
  destruct (Z_le_gt_dec d (Zdigits2 m)) as [H|H]; [exact H|exfalso].
  assert (2 ^ Zdigits2 m <= 2 ^ (d - 1)) by (apply Z.pow_le_mono_r; lia). lia.
Qed.

Lemma div_pow2_lt (a b k : Z) :
  0 <= a -> a < 2 ^ b -> 0 <= k -> k <= b -> a / 2 ^ k < 2 ^ (b - k).
Proof.
  intros Ha Hlt Hk Hkb.
  assert (Hp : 0 < 2 ^ k) by (apply Z.pow_pos_nonneg; lia).
  apply Z.div_lt_upper_bound; [exact Hp|].
  rewrite <- Z.pow_add_r by lia. replace (k + (b - k)) with b by lia. exact Hlt.
Qed.

Lemma div_pow2_ge (a b k : Z) :
  2 ^ b <= a -> 0 <= k -> k <= b -> 2 ^ (b - k) <= a / 2 ^ k.
Proof.
  intros Hle Hk Hkb.
  assert (Hp : 0 < 2 ^ k) by (apply Z.pow_pos_nonneg; lia).
  apply Z.div_le_lower_bound; [exact Hp|].
  rewrite <- Z.pow_add_r by lia. replace (k + (b - k)) with b by lia. exact Hle.
Qed.

(** The integer nearest to [N / D], as [round_nearest_even] picks it. *)
Lemma round_nearest_even_spec (N D : Z) :
  0 <= N -> 0 < D ->
  let q := N / D in
  let m := round_nearest_even q (loc_of (N mod D) D) in
  (m = q \/ m = q + 1) /\ 2 * Z.abs (m * D - N) <= D.
Proof.
  intros HN HD q m.
  pose proof (Z.mod_pos_bound N D HD) as HR.
  pose proof (Z.div_mod N D ltac:(lia)) as HE.
  fold q in HE. subst m. unfold loc_of.
  set (R := N mod D) in *. clearbody R q.
  destruct (Z.eqb_spec R 0) as [E|E]; cbn [round_nearest_even].
  - split; [left; reflexivity|]. nia.
  - destruct (Z.compare_spec (2 * R) D) as [C|C|C].
    + destruct (Z.even q); [split; [left; reflexivity|nia] | split; [right; reflexivity|nia]].
    + split; [left; reflexivity|]. nia.
    + split; [right; reflexivity|]. nia.
Qed.

Lemma Zdigits2_pow53 : Zdigits2 (2 ^ 53) = 54.
Proof. reflexivity. Qed.

Section RoundAux.

Variables (s : bool) (N D mx e : Z) (lx : location).
Hypothesis HN : 0 <= N.
Hypothesis HD : 0 < D.
Hypothesis Hmx : mx = N / D.
Hypothesis Hlx : lx = loc_of (N mod D) D.
Hypothesis Hprecise : e <= fexp64 (Zdigits2 mx + e).

Local Notation "'e1'" := (fexp64 (Zdigits2 mx + e)).
Local Notation "'D1'" := (D * 2 ^ (e1 - e)).
Local Notation "'q'" := (N / D1).
Local Notation "'m2'" := (round_nearest_even q (loc_of (N mod D1) D1)).

Lemma round_aux_e1 : -1074 <= e1 /\ e <= e1.
Proof. split; [unfold fexp64; lia | exact Hprecise]. Qed.

Lemma round_aux_D1_pos : 0 < D1.
Proof.
  apply Z.mul_pos_pos; [exact HD|]. apply Z.pow_pos_nonneg; lia.
Qed.

Lemma round_aux_q : q = mx / 2 ^ (e1 - e) /\ 0 <= q.
Proof.
  assert (Hp : 0 < 2 ^ (e1 - e)) by (apply Z.pow_pos_nonneg; lia).
  rewrite <- Z.div_div by lia. rewrite <- Hmx. split; [reflexivity|].
  apply Z.div_pos; [|exact Hp]. rewrite Hmx. apply Z.div_pos; assumption.
Qed.

Lemma round_aux_q_bounds : q < 2 ^ 53 /\ (-1074 < e1 -> 2 ^ 52 <= q).
Proof.
  destruct round_aux_e1 as [He0 He].
  destruct round_aux_q as [Hq Hq0]. rewrite Hq.
  assert (Hmx0 : 0 <= mx) by (rewrite Hmx; apply Z.div_pos; assumption).
  assert (Hp : 0 < 2 ^ (e1 - e)) by (apply Z.pow_pos_nonneg; lia).
  destruct (Z.eq_dec mx 0) as [E0|E0].
  - assert (He1 : e1 = -1074).
    { revert Hprecise. rewrite E0. cbn [Zdigits2]. unfold fexp64. lia. }
    split; [|lia].
    rewrite Z.div_small; [reflexivity|]. split; [lia|].
    apply Z.le_lt_trans with 0; [lia | exact Hp].
  - destruct (Zdigits2_bounds mx ltac:(lia)) as [Hd [Hlo Hhi]].
    revert He0 He Hp. generalize (eq_refl e1). unfold fexp64 at 2.
    generalize e1. intros e1' He1 He0 He Hp.
    set (d := Zdigits2 mx) in *. clearbody d.
    split.
    + destruct (Z_le_gt_dec (e1' - e) d) as [Hk|Hk].
      * eapply Z.lt_le_trans; [apply (div_pow2_lt mx d (e1' - e)); lia|].
        apply Z.pow_le_mono_r; lia.
      * rewrite Z.div_small; [reflexivity|]. split; [lia|].
        eapply Z.lt_le_trans; [exact Hhi|]. apply Z.pow_le_mono_r; lia.
    + intros H. assert (Hk : e1' - e = d - 53) by lia. rewrite Hk.
      replace 52 with ((d - 1) - (d - 53)) by lia.
      apply div_pow2_ge; lia.
Qed.

Lemma round_aux_m2 : (m2 = q \/ m2 = q + 1) /\ 2 * Z.abs (m2 * D1 - N) <= D1.
Proof. apply round_nearest_even_spec; [exact HN | exact round_aux_D1_pos]. Qed.

(** What [binary_round_aux] returns. *)
Lemma binary_round_aux_result :
  binary_round_aux prec emax s mx e lx = round_result s m2 e1.
Proof.
  destruct round_aux_e1 as [He0 He].
  destruct round_aux_q as [Hq Hq0].
  destruct round_aux_q_bounds as [Hq53 Hq52].
  destruct round_aux_m2 as [Hm2 _].
  unfold binary_round_aux.
  (* the first shift *)
  unfold shr_fexp at 1. rewrite fexp64_eq.
  assert (Hin : inbetween N D (shr_record_of_loc mx lx)).
  { unfold inbetween. destruct (loc_of_shr_record_of_loc mx lx) as [-> ->].
    split; assumption. }
  destruct (shr_inbetween N D _ e (e1 - e) HN HD Hin) as [[Hm' Hl'] He'].
  replace (Z.max 0 (e1 - e)) with (e1 - e) in Hm', Hl', He' by lia.
  destruct (shr (shr_record_of_loc mx lx) e (e1 - e)) as [mrs' e'].
  cbn [fst snd] in Hm', Hl', He'.
  rewrite Hm', Hl'.
  replace e' with e1 by lia.
  (* the second shift *)
  revert Hm2 Hq53 Hq52 Hq0. generalize m2. generalize q. intros q' m2' Hm2 Hq53 Hq52 Hq0.
  revert He0. generalize e1. intros e1' He0.
  unfold shr_fexp. rewrite fexp64_eq.
  assert (Hm2r : 0 <= m2' <= 2 ^ 53) by lia.
  destruct (Z.eq_dec m2' (2 ^ 53)) as [E53|E53].
  - rewrite E53. rewrite Zdigits2_pow53.
    replace (fexp64 (54 + e1') - e1') with 1 by (unfold fexp64; lia).
    cbn [shr_record_of_loc shr iter_pos]. cbn [shr_1 shr_m].
    unfold round_result. reflexivity.
  - assert (Hn2 : fexp64 (Zdigits2 m2' + e1') - e1' <= 0).
    { destruct (Z.eq_dec m2' 0) as [E0|E0].
      - rewrite E0. cbn [Zdigits2]. unfold fexp64. lia.
      - assert (Zdigits2 m2' <= 53) by (apply Zdigits2_le; lia).
        unfold fexp64. lia. }
    assert (Hshr : shr (shr_record_of_loc m2' loc_Exact) e1' (fexp64 (Zdigits2 m2' + e1') - e1')
                   = (shr_record_of_loc m2' loc_Exact, e1')).
    { destruct (fexp64 (Zdigits2 m2' + e1') - e1'); try reflexivity. lia. }
    rewrite Hshr. cbn [shr_record_of_loc shr_m].
    unfold round_result. destruct m2' as [|p|p]; try lia; try reflexivity.
    destruct (Z.eqb_spec (Z.pos p) (2 ^ 53)) as [E|E]; [contradiction|]. reflexivity.
Qed.

End RoundAux.

Lemma round_result_shape (s : bool) (m e : Z) :
  0 <= m -> -1074 <= e ->
  round_result s m e = S754_infinity s \/
  (SFfinite (round_result s m e) = true /\
   SFval (round_result s m e) = cond_Zopp s (m * 2 ^ (e + 1074))).
Proof.
  intros Hm He. unfold round_result.
  destruct m as [|p|p]; try lia.
  - right. split; [reflexivity|]. cbn. destruct s; reflexivity.
  - destruct (Z.eqb_spec (Z.pos p) (2 ^ 53)) as [E|E].
    + destruct (e + 1 <=? 971); [right|left; reflexivity].
      split; [reflexivity|]. cbn [SFval]. f_equal. rewrite E.
      replace (e + 1 + 1074) with (1 + (e + 1074)) by lia.
      rewrite (Z.pow_add_r 2 1) by lia.
      change (Z.pos (2 ^ 52)) with (2 ^ 52). change (2 ^ 53) with (2 ^ 52 * 2 ^ 1). ring.
    + destruct (e <=? 971); [right|left; reflexivity].
      split; reflexivity.
Qed.

Lemma round_result_valid (s : bool) (q m e : Z) :
  0 <= q -> (m = q \/ m = q + 1) -> q < 2 ^ 53 -> (-1074 < e -> 2 ^ 52 <= q) -> -1074 <= e ->
  valid_binary (round_result s m e) = true.
Proof.
  intros Hq0 Hm Hq53 Hq52 He. unfold round_result.
  destruct m as [|p|p]; try lia; [reflexivity|].
  destruct (Z.eqb_spec (Z.pos p) (2 ^ 53)) as [E|E].
  - destruct (Z.leb_spec (e + 1) 971) as [L|L]; [|reflexivity].
    cbn [SpecFloat.valid_binary]. unfold bounded, canonical_mantissa.
    rewrite fexp64_eq. change (Z.pos (digits2_pos (2 ^ 52))) with 53.
    apply andb_true_intro. split; [apply Z.eqb_eq; unfold fexp64; lia|].
    apply Z.leb_le. change (emax - prec) with 971. lia.
  - destruct (Z.leb_spec e 971) as [L|L]; [|reflexivity].
    cbn [SpecFloat.valid_binary]. unfold bounded, canonical_mantissa.
    rewrite fexp64_eq.
    change (Z.pos (digits2_pos p)) with (Zdigits2 (Z.pos p)).
    assert (Hd : Zdigits2 (Z.pos p) <= 53) by (apply Zdigits2_le; lia).
    assert (Hd' : -1074 < e -> 53 <= Zdigits2 (Z.pos p)).
    { intros H. specialize (Hq52 H). apply Zdigits2_ge; [|lia].
      replace (53 - 1) with 52 by reflexivity. lia. }
    apply andb_true_intro. split; [apply Z.eqb_eq; unfold fexp64; lia|].
    apply Z.leb_le. change (emax - prec) with 971. lia.
Qed.

(** *** The rounded number is a nearest one *)

Lemma nearest_vs_zero (N D q m : Z) :
  0 <= N -> 0 < D -> 0 <= q -> (m = q \/ m = q + 1) ->
  2 * Z.abs (m * D - N) <= D -> Z.abs (m * D - N) <= N.
Proof.
  intros HN HD Hq Hm Hh.
  assert (Hm0 : 0 <= m) by lia.
  assert (HmD : 0 <= m * D) by (apply Z.mul_nonneg_nonneg; lia).
  destruct (Z_le_gt_dec (m * D) N) as [Hle|Hgt].
  - rewrite Z.abs_neq by lia. lia.
  - rewrite Z.abs_eq in * by lia.
    assert (Hm1 : 1 <= m) by nia.
    assert ((m - 1) * D >= 0) by nia.
    lia.
Qed.

Lemma nearest_vs_integer (N D m j : Z) :
  0 < D -> 2 * Z.abs (m * D - N) <= D -> Z.abs (m * D - N) <= Z.abs (j * D - N).
Proof.
  intros HD Hh.
  destruct (Z.eq_dec j m) as [->|Hne]; [lia|].
  assert (Hj : j <= m - 1 \/ m + 1 <= j) by lia.
  destruct Hj as [Hj|Hj]; nia.
Qed.

Lemma nearest_vs_below (N D q m : Z) :
  0 <= N -> 0 < D -> q = N / D -> (m = q \/ m = q + 1) ->
  2 * Z.abs (m * D - N) <= D -> Z.abs (m * D - N) <= N - q * D.
Proof.
  intros HN HD Hq Hm Hh.
  pose proof (Z.mod_pos_bound N D HD) as HR.
  pose proof (Z.div_mod N D ltac:(lia)) as HE. rewrite <- Hq in HE.
  set (R := N mod D) in *. clearbody R. nia.
Qed.

Section Nearest.

Variables (N D1 q m2 e1 : Z).
Hypothesis HN : 0 <= N.
Hypothesis HD : 0 < D1.
Hypothesis Hq : q = N / D1.
Hypothesis Hm : m2 = q \/ m2 = q + 1.
Hypothesis Hhalf : 2 * Z.abs (m2 * D1 - N) <= D1.
Hypothesis Hq53 : q < 2 ^ 53.
Hypothesis Hq52 : -1074 < e1 -> 2 ^ 52 <= q.
Hypothesis He1 : -1074 <= e1.

Let P := 2 ^ (e1 + 1074).

Lemma nearest_P_pos : 0 < P.
Proof. unfold P. apply Z.pow_pos_nonneg; lia. Qed.

Lemma nearest_q_nonneg : 0 <= q.
Proof. rewrite Hq. apply Z.div_pos; assumption. Qed.

Lemma nearest_float (A : spec_float) :
  valid_binary A = true -> SFfinite A = true ->
  Z.abs (m2 * P * D1 - N * P) <= Z.abs (SFval A * D1 - N * P).
Proof.
  intros VA FA. pose proof nearest_P_pos as HP. pose proof nearest_q_nonneg as Hq0.
  pose proof (nearest_vs_zero N D1 q m2 HN HD Hq0 Hm Hhalf) as H0.
  assert (Hzero : Z.abs (m2 * P * D1 - N * P) <= N * P).
  { replace (m2 * P * D1 - N * P) with ((m2 * D1 - N) * P) by ring.
    rewrite Z.abs_mul, (Z.abs_eq P) by lia. nia. }
  destruct A as [sa|sa| |sa ma ea]; try discriminate; cbn [SFval].
  - rewrite Z.mul_0_l. replace (0 - N * P) with (- (N * P)) by ring.
    rewrite Z.abs_opp, (Z.abs_eq (N * P)) by nia. exact Hzero.
  - pose proof (finite_val_bounds _ _ _ VA) as Ba.
    pose proof (valid_finite _ _ _ VA) as (Hea & Hma & _).
    destruct sa; cbn [cond_Zopp].
    + (* a negative number *)
      set (a := Z.pos ma * 2 ^ (ea + 1074)) in *. clearbody a.
      assert (0 <= N * P) by nia. assert (0 < a * D1) by nia.
      rewrite (Z.abs_neq (- a * D1 - N * P)) by lia. lia.
    + destruct (Z_le_gt_dec e1 ea) as [Hge|Hlt].
      * (* a multiple of the unit of the rounded number *)
        set (j := Z.pos ma * 2 ^ (ea - e1)).
        assert (Hj : Z.pos ma * 2 ^ (ea + 1074) = j * P).
        { unfold j, P. rewrite <- Z.mul_assoc, <- Z.pow_add_r by lia.
          f_equal. f_equal. lia. }
        rewrite Hj.
        replace (m2 * P * D1 - N * P) with ((m2 * D1 - N) * P) by ring.
        replace (j * P * D1 - N * P) with ((j * D1 - N) * P) by ring.
        rewrite !Z.abs_mul, (Z.abs_eq P) by lia.
        apply Z.mul_le_mono_nonneg_r; [lia|].
        apply nearest_vs_integer; assumption.
      * (* a number of a smaller unit lies below *)
        specialize (Hq52 ltac:(lia)).
        pose proof (nearest_vs_below N D1 q m2 HN HD Hq Hm Hhalf) as Hb.
        assert (HPa : P = 2 ^ (ea + 1074) * 2 ^ (e1 - ea)).
        { unfold P. rewrite <- Z.pow_add_r by lia. f_equal. lia. }
        assert (Hu : 0 < 2 ^ (ea + 1074)) by (apply Z.pow_pos_nonneg; lia).
        assert (H2 : 2 ^ 1 <= 2 ^ (e1 - ea)) by (apply Z.pow_le_mono_r; lia).
        change (2 ^ 1) with 2 in H2.
        change (2 ^ 53) with (2 * 2 ^ 52) in Hma.
        assert (Ha : Z.pos ma * 2 ^ (ea + 1074) < q * P).
        { rewrite HPa. revert Hu H2 Hma Hq52.
          generalize (2 ^ (ea + 1074)) (2 ^ (e1 - ea)) (2 ^ 52) (Z.pos ma).
          intros u t c n Hu H2 Hma Hq52.
          assert (n * u < 2 * c * u) by (apply Z.mul_lt_mono_pos_r; lia).
          assert (c * (u * 2) <= q * (u * 2)) by (apply Z.mul_le_mono_nonneg_r; lia).
          assert (q * (u * 2) <= q * (u * t)) by (apply Z.mul_le_mono_nonneg_l; nia).
          lia. }
        set (a := Z.pos ma * 2 ^ (ea + 1074)) in *. clearbody a.
        assert (Hr : 0 <= N - q * D1).
        { pose proof (Z.mod_pos_bound N D1 HD).
          pose proof (Z.div_mod N D1 ltac:(lia)) as HE. rewrite <- Hq in HE. nia. }
        assert (HaD : a * D1 < q * P * D1) by (apply Z.mul_lt_mono_pos_r; lia).
        assert (HqN : q * P * D1 <= N * P) by nia.
        rewrite (Z.abs_neq (a * D1 - N * P)) by lia.
        replace (m2 * P * D1 - N * P) with ((m2 * D1 - N) * P) by ring.
        rewrite Z.abs_mul, (Z.abs_eq P) by lia.
        assert (Z.abs (m2 * D1 - N) * P <= (N - q * D1) * P)
          by (apply Z.mul_le_mono_nonneg_r; lia).
        lia.
Qed.

End Nearest.

Lemma finite_val_lt (s : bool) (m : positive) (e : Z) :
  valid_binary (S754_finite s m e) = true -> Z.pos m * 2 ^ (e + 1074) < 2 ^ 2098.
Proof.
  intros V. apply valid_finite in V. destruct V as (He & Hm & _).
  assert (H0 : 0 < 2 ^ (e + 1074)) by (apply Z.pow_pos_nonneg; lia).
  assert (H1 : 2 ^ (e + 1074) <= 2 ^ 2045) by (apply Z.pow_le_mono_r; lia).
  replace 2098 with (53 + 2045) by lia. rewrite (Z.pow_add_r 2 53 2045) by lia.
  assert (H3 : 0 < 2 ^ 53) by (apply Z.pow_pos_nonneg; lia).
  revert H0 H1 H3 Hm.
  generalize (2 ^ (e + 1074)) (2 ^ 2045) (2 ^ 53). intros a b d. nia.
Qed.

Lemma SFfinite_val_lt (A : spec_float) :
  valid_binary A = true -> SFfinite A = true -> - 2 ^ 2098 < SFval A < 2 ^ 2098.
Proof.
  intros V F. assert (0 < 2 ^ 2098) by (apply Z.pow_pos_nonneg; lia).
  destruct A as [s|s| |s m e]; try discriminate; cbn [SFval]; [lia|].
  pose proof (finite_val_lt _ _ _ V). pose proof (finite_val_bounds _ _ _ V).
  destruct s; cbn [cond_Zopp]; lia.
Qed.

Lemma SFopp_valid_finite (A : spec_float) :
  valid_binary A = true -> SFfinite A = true ->
  valid_binary (SFopp A) = true /\ SFfinite (SFopp A) = true /\ SFval (SFopp A) = - SFval A.
Proof.
  intros V F. destruct A as [s|s| |s m e]; try discriminate; cbn [SFopp SFval SFfinite].
  - auto.
  - repeat split; [exact V|]. destruct s; cbn [negb cond_Zopp]; lia.
Qed.

Lemma nearest_opp (Xn Xd v : Z) : nearest Xn Xd v -> nearest (- Xn) Xd (- v).
Proof.
  intros H A VA FA. destruct (SFopp_valid_finite A VA FA) as (V' & F' & E').
  specialize (H (SFopp A) V' F'). rewrite E' in H.
  replace (- v * Xd - - Xn) with (- (v * Xd - Xn)) by ring.
  replace (SFval A * Xd - - Xn) with (- (- SFval A * Xd - Xn)) by ring.
  rewrite !Z.abs_opp. exact H.
Qed.

(** What a nearest number is bounded by. *)
Lemma nearest_le (Xn Xd v : Z) (hi : spec_float) :
  0 < Xd -> nearest Xn Xd v ->
  valid_binary hi = true -> SFfinite hi = true ->
  Xn <= SFval hi * Xd -> v <= SFval hi.
Proof.
  intros HXd Hn V F Hle. specialize (Hn hi V F).
  destruct (Z_le_gt_dec v (SFval hi)) as [H|H]; [exact H|exfalso].
  assert (SFval hi * Xd < v * Xd) by (apply Z.mul_lt_mono_pos_r; lia).
  lia.
Qed.

Lemma nearest_ge (Xn Xd v : Z) (lo : spec_float) :
  0 < Xd -> nearest Xn Xd v ->
  valid_binary lo = true -> SFfinite lo = true ->
  SFval lo * Xd <= Xn -> SFval lo <= v.
Proof.
  intros HXd Hn V F Hle. specialize (Hn lo V F).
  destruct (Z_le_gt_dec (SFval lo) v) as [H|H]; [exact H|exfalso].
  assert (v * Xd < SFval lo * Xd) by (apply Z.mul_lt_mono_pos_r; lia).
  lia.
Qed.

Lemma nearest_exact (Xd v : Z) (A : spec_float) :
  0 < Xd -> valid_binary A = true -> SFfinite A = true ->
  nearest (SFval A * Xd) Xd v -> v = SFval A.
Proof.
  intros HXd V F Hn.
  pose proof (nearest_le _ _ _ A HXd Hn V F ltac:(lia)).
  pose proof (nearest_ge _ _ _ A HXd Hn V F ltac:(lia)).
  lia.
Qed.

(** Between two finite numbers the rounding is finite, and between them. *)
Lemma rounds_to_between (Xn Xd : Z) (R lo hi : spec_float) :
  0 < Xd -> rounds_to Xn Xd R ->
  valid_binary lo = true -> SFfinite lo = true ->
  valid_binary hi = true -> SFfinite hi = true ->
  SFval lo * Xd <= Xn -> Xn <= SFval hi * Xd ->
  SFfinite R = true /\ SFval lo <= SFval R <= SFval hi.
Proof.
  intros HXd [VR (v & Hn & Hc)] Vlo Flo Vhi Fhi Hlo Hhi.
  pose proof (nearest_le _ _ _ hi HXd Hn Vhi Fhi Hhi) as H1.
  pose proof (nearest_ge _ _ _ lo HXd Hn Vlo Flo Hlo) as H2.
  pose proof (SFfinite_val_lt _ Vlo Flo). pose proof (SFfinite_val_lt _ Vhi Fhi).
  destruct Hc as [[F E]|[[E Hv]|[E Hv]]]; [|lia|lia].
  rewrite E. auto.
Qed.

(** *** [binary_round_aux] rounds to nearest *)

Section RoundAuxNearest.

Variables (s : bool) (N D mx e : Z) (lx : location).
Hypothesis HN : 0 <= N.
Hypothesis HD : 0 < D.
Hypothesis Hmx : mx = N / D.
Hypothesis Hlx : lx = loc_of (N mod D) D.
Hypothesis Hprecise : e <= fexp64 (Zdigits2 mx + e).

Local Notation "'e1'" := (fexp64 (Zdigits2 mx + e)).

Lemma binary_round_aux_rounds :
  rounds_to (cond_Zopp s (N * 2 ^ (e1 + 1074))) (D * 2 ^ (e1 - e))
            (binary_round_aux prec emax s mx e lx).
Proof.
  pose proof (round_aux_e1 mx e Hprecise) as [He0 He].
  pose proof (round_aux_D1_pos D mx e HD Hprecise) as HD1.
  pose proof (round_aux_q N D mx e HN HD Hmx Hprecise) as [Hq Hq0].
  pose proof (round_aux_q_bounds N D mx e HN HD Hmx Hprecise) as [Hq53 Hq52].
  pose proof (round_aux_m2 N D mx e HN HD Hprecise) as [Hm2 Hhalf].
  rewrite (binary_round_aux_result s N D mx e lx HN HD Hmx Hlx Hprecise).
  clear Hq.
  remember e1 as e1' eqn:He1 in *. clear He1.
  remember (D * 2 ^ (e1' - e)) as D1 eqn:HeqD1 in *. clear HeqD1.
  remember (N / D1) as q eqn:Hq in *.
  remember (round_nearest_even q (loc_of (N mod D1) D1)) as m2 eqn:Heqm2 in *. clear Heqm2.
  set (P := 2 ^ (e1' + 1074)).
  assert (HP : 0 < P) by (apply Z.pow_pos_nonneg; lia).
  assert (Hnear : nearest (N * P) D1 (m2 * P)).
  { intros A VA FA.
    apply (nearest_float N D1 q m2 e1'); assumption. }
  split; [apply (round_result_valid s q m2 e1'); assumption|].
  exists (cond_Zopp s (m2 * P)). split.
  { destruct s; cbn [cond_Zopp]; [apply nearest_opp|]; exact Hnear. }
  destruct (round_result_shape s m2 e1' ltac:(lia) He0) as [Hinf|[Hfin Hval]].
  - right.
    assert (Hbig : 2 ^ 2098 <= m2 * P).
    { unfold round_result in Hinf.
      destruct m2 as [|p|p] eqn:Em2; try discriminate.
      destruct (Z.eqb_spec (Z.pos p) (2 ^ 53)) as [E|E].
      - destruct (Z.leb_spec (e1' + 1) 971) as [L|L]; [discriminate|].
        rewrite E. unfold P.
        rewrite <- Z.pow_add_r by lia. apply Z.pow_le_mono_r; lia.
      - destruct (Z.leb_spec e1' 971) as [L|L]; [discriminate|].
        specialize (Hq52 ltac:(lia)).
        assert (H52 : 2 ^ 52 <= Z.pos p) by lia.
        assert (HPge : 2 ^ 2046 <= P) by (apply Z.pow_le_mono_r; lia).
        replace 2098 with (52 + 2046) by lia. rewrite (Z.pow_add_r 2 52 2046) by lia.
        assert (H1 : 0 < 2 ^ 52) by (apply Z.pow_pos_nonneg; lia).
        assert (H2 : 0 < 2 ^ 2046) by (apply Z.pow_pos_nonneg; lia).
        revert H52 HPge H1 H2. generalize (2 ^ 52) (2 ^ 2046) (Z.pos p) P.
        intros a b c d. nia. }
    rewrite Hinf. destruct s; cbn [cond_Zopp]; [right|left]; split; try reflexivity; lia.
  - left. split; [exact Hfin|]. exact Hval.
Qed.

End RoundAuxNearest.

Lemma nearest_ratio (Xn Xd Xn' Xd' v : Z) :
  0 < Xd -> 0 < Xd' -> Xn * Xd' = Xn' * Xd ->
  nearest Xn Xd v -> nearest Xn' Xd' v.
Proof.
  intros HXd HXd' HE Hn A VA FA. specialize (Hn A VA FA).
  apply (Z.mul_le_mono_pos_r _ _ Xd HXd).
  rewrite <- (Z.abs_eq Xd) at 1 2 by lia. rewrite <- !Z.abs_mul.
  replace ((v * Xd' - Xn') * Xd) with ((v * Xd - Xn) * Xd') by (ring_simplify; rewrite HE; ring).
  replace ((SFval A * Xd' - Xn') * Xd) with ((SFval A * Xd - Xn) * Xd')
    by (ring_simplify; rewrite HE; ring).
  rewrite !Z.abs_mul, (Z.abs_eq Xd') by lia.
  apply Z.mul_le_mono_nonneg_r; lia.
Qed.

Lemma rounds_to_ratio (Xn Xd Xn' Xd' : Z) (R : spec_float) :
  0 < Xd -> 0 < Xd' -> Xn * Xd' = Xn' * Xd ->
  rounds_to Xn Xd R -> rounds_to Xn' Xd' R.
Proof.
  intros HXd HXd' HE [VR (v & Hn & Hc)]. split; [exact VR|].
  exists v. split; [|exact Hc]. exact (nearest_ratio Xn Xd Xn' Xd' v HXd HXd' HE Hn).
Qed.

Lemma nearest_self (Xd v : Z) : nearest (v * Xd) Xd v.
Proof. intros A _ _. rewrite Z.sub_diag. cbn. apply Z.abs_nonneg. Qed.

(** A finite number is its own rounding. *)
Lemma rounds_to_self (A : spec_float) :
  valid_binary A = true -> SFfinite A = true -> rounds_to (SFval A) 1 A.
Proof.
  intros V F. split; [exact V|]. exists (SFval A). split.
  - pose proof (nearest_self 1 (SFval A)) as H. rewrite Z.mul_1_r in H. exact H.
  - left. auto.
Qed.

(** *** Alignment of the mantissas *)

Lemma iter_xO_val (d m : positive) :
  Z.pos (Pos.iter xO m d) = Z.pos m * 2 ^ Z.pos d.
Proof.
  induction d as [|d IH] using Pos.peano_ind.
  - cbn [Pos.iter]. rewrite Pos2Z.inj_xO. change (2 ^ 1) with 2. ring.
  - rewrite Pos.iter_succ, Pos2Z.inj_xO, IH, Pos2Z.inj_succ, Z.pow_succ_r by lia. ring.
Qed.

Lemma shl_align_spec (mx : positive) (ex ex' : Z) :
  snd (shl_align mx ex ex') = Z.min ex ex' /\
  Z.pos (fst (shl_align mx ex ex')) = Z.pos mx * 2 ^ (ex - Z.min ex ex').
Proof.
  unfold shl_align. destruct (ex' - ex) as [|d|d] eqn:E; cbn [fst snd].
  - replace (Z.min ex ex') with ex by lia. rewrite Z.sub_diag. split; [reflexivity|]. cbn. lia.
  - replace (Z.min ex ex') with ex by lia. rewrite Z.sub_diag. split; [reflexivity|]. cbn. lia.
  - replace (Z.min ex ex') with ex' by lia. split; [reflexivity|].
    rewrite iter_xO_val. f_equal. f_equal. lia.
Qed.

Lemma Zdigits2_shift (m k : Z) : 0 < m -> 0 <= k -> Zdigits2 (m * 2 ^ k) = Zdigits2 m + k.
Proof.
  intros Hm Hk. destruct (Zdigits2_bounds m Hm) as [Hd [Hlo Hhi]].
  assert (Hp : 0 < 2 ^ k) by (apply Z.pow_pos_nonneg; lia).
  assert (Hmk : 0 < m * 2 ^ k) by (apply Z.mul_pos_pos; assumption).
  apply Z.le_antisymm.
  - apply Zdigits2_le; [exact Hmk| |lia].
    rewrite Z.pow_add_r by lia. apply Z.mul_lt_mono_pos_r; assumption.
  - apply Zdigits2_ge; [|lia].
    replace (Zdigits2 m + k - 1) with (Zdigits2 m - 1 + k) by lia.
    rewrite Z.pow_add_r by lia. apply Z.mul_le_mono_nonneg_r; lia.
Qed.

(** *** Rounding an integer multiple of a power of two *)

Lemma binary_round_rounds (s : bool) (m : positive) (e : Z) :
  -1074 <= e ->
  rounds_to (cond_Zopp s (Z.pos m * 2 ^ (e + 1074))) 1 (binary_round prec emax s m e).
Proof.
  intros He. unfold binary_round. rewrite fexp64_eq.
  set (f := fexp64 (Z.pos (digits2_pos m) + e)).
  destruct (shl_align_spec m e f) as [Hez Hmz].
  destruct (shl_align m e f) as [mz ez]. cbn [fst snd] in Hez, Hmz.
  change (Z.pos (digits2_pos m)) with (Zdigits2 (Z.pos m)) in f.
  assert (Hdig : Zdigits2 (Z.pos mz) + ez = Zdigits2 (Z.pos m) + e).
  { rewrite Hmz, Zdigits2_shift by lia. lia. }
  assert (Hprecise : ez <= fexp64 (Zdigits2 (Z.pos mz) + ez)).
  { rewrite Hdig. fold f. lia. }
  pose proof (binary_round_aux_rounds s (Z.pos mz) 1 (Z.pos mz) ez loc_Exact
                ltac:(lia) ltac:(lia)) as H.
  specialize (H ltac:(rewrite Z.div_1_r; reflexivity)).
  specialize (H ltac:(rewrite Z.mod_1_r; reflexivity)).
  specialize (H Hprecise).
  rewrite Hdig in H. fold f in H.
  assert (Hf0 : -1074 <= f) by (unfold f, fexp64; lia).
  clearbody f.
  assert (Hf : -1074 <= f /\ ez <= f) by lia.
  assert (Hk : 0 < 2 ^ (f - ez)) by (apply Z.pow_pos_nonneg; lia).
  apply (rounds_to_ratio (cond_Zopp s (Z.pos mz * 2 ^ (f + 1074))) (1 * 2 ^ (f - ez)) _ 1);
    [lia | lia | | exact H].
  rewrite Hmz. destruct s; cbn [cond_Zopp].
  - rewrite !Z.mul_opp_l. f_equal.
    rewrite Z.mul_1_r, Z.mul_1_l, <- !Z.mul_assoc, <- !Z.pow_add_r by lia.
    f_equal. f_equal. lia.
  - rewrite Z.mul_1_r, Z.mul_1_l, <- !Z.mul_assoc, <- !Z.pow_add_r by lia.
    f_equal. f_equal. lia.
Qed.

Lemma binary_normalize_rounds (M e : Z) :
  -1074 <= e ->
  rounds_to (M * 2 ^ (e + 1074)) 1 (binary_normalize prec emax M e false).
Proof.
  intros He. destruct M as [|m|m]; cbn [binary_normalize].
  - apply (rounds_to_self (S754_zero false)); reflexivity.
  - apply (binary_round_rounds false m e He).
  - pose proof (binary_round_rounds true m e He) as H. cbn [cond_Zopp] in H.
    rewrite <- Z.mul_opp_l in H. exact H.
Qed.

(** *** Addition and subtraction *)

Lemma aligned_val (s : bool) (m : positive) (e ez : Z) :
  ez <= e -> -1074 <= ez ->
  cond_Zopp s (Z.pos (fst (shl_align m e ez))) * 2 ^ (ez + 1074)
  = cond_Zopp s (Z.pos m * 2 ^ (e + 1074)).
Proof.
  intros Hle H. destruct (shl_align_spec m e ez) as [_ ->].
  replace (Z.min e ez) with ez by lia.
  assert (E : 2 ^ (e - ez) * 2 ^ (ez + 1074) = 2 ^ (e + 1074)).
  { rewrite <- Z.pow_add_r by lia. f_equal. lia. }
  destruct s; cbn [cond_Zopp]; rewrite ?Z.mul_opp_l, <- Z.mul_assoc, E; reflexivity.
Qed.

Lemma SFadd_rounds (x y : spec_float) :
  valid_binary x = true -> valid_binary y = true ->
  SFfinite x = true -> SFfinite y = true ->
  rounds_to (SFval x + SFval y) 1 (SFadd prec emax x y).
Proof.
  intros Vx Vy Fx Fy.
  destruct x as [sx|sx| |sx mx ex]; try discriminate;
  destruct y as [sy|sy| |sy my ey]; try discriminate; cbn [SFadd].
  - destruct sx, sy; apply (rounds_to_self (S754_zero _)); reflexivity.
  - apply (rounds_to_self (S754_finite sy my ey)); assumption.
  - cbn [SFval]. rewrite Z.add_0_r.
    apply (rounds_to_self (S754_finite sx mx ex)); assumption.
  - pose proof (valid_finite _ _ _ Vx) as (Hex & _).
    pose proof (valid_finite _ _ _ Vy) as (Hey & _).
    pose proof (binary_normalize_rounds
                  (cond_Zopp sx (Z.pos (fst (shl_align mx ex (Z.min ex ey))))
                   + cond_Zopp sy (Z.pos (fst (shl_align my ey (Z.min ex ey)))))
                  (Z.min ex ey) ltac:(lia)) as H.
    rewrite Z.mul_add_distr_r in H.
    rewrite (aligned_val sx mx ex (Z.min ex ey)) in H by lia.
    rewrite (aligned_val sy my ey (Z.min ex ey)) in H by lia.
    exact H.
Qed.

Lemma SFsub_rounds (x y : spec_float) :
  valid_binary x = true -> valid_binary y = true ->
  SFfinite x = true -> SFfinite y = true ->
  rounds_to (SFval x - SFval y) 1 (SFsub prec emax x y).
Proof.
  intros Vx Vy Fx Fy.
  destruct x as [sx|sx| |sx mx ex]; try discriminate;
  destruct y as [sy|sy| |sy my ey]; try discriminate; cbn [SFsub].
  - destruct sx, sy; apply (rounds_to_self (S754_zero _)); reflexivity.
  - destruct (SFopp_valid_finite _ Vy Fy) as (V' & F' & E').
    cbn [SFval]. rewrite Z.sub_0_l. cbn [SFval] in E'. rewrite <- E'.
    apply (rounds_to_self (SFopp (S754_finite sy my ey))); assumption.
  - cbn [SFval]. rewrite Z.sub_0_r.
    apply (rounds_to_self (S754_finite sx mx ex)); assumption.
  - pose proof (valid_finite _ _ _ Vx) as (Hex & _).
    pose proof (valid_finite _ _ _ Vy) as (Hey & _).
    pose proof (binary_normalize_rounds
                  (cond_Zopp sx (Z.pos (fst (shl_align mx ex (Z.min ex ey))))
                   - cond_Zopp sy (Z.pos (fst (shl_align my ey (Z.min ex ey)))))
                  (Z.min ex ey) ltac:(lia)) as H.
    rewrite Z.mul_sub_distr_r in H.
    rewrite (aligned_val sx mx ex (Z.min ex ey)) in H by lia.
    rewrite (aligned_val sy my ey (Z.min ex ey)) in H by lia.
    exact H.
Qed.

(** *** Division *)

Lemma new_location_spec (nb k : Z) :
  0 < nb -> 0 <= k < nb -> new_location nb k = loc_of k nb.
Proof.
  intros Hnb Hk. unfold new_location, new_location_even, new_location_odd, loc_of.
  destruct (Z.even nb) eqn:Ev; [reflexivity|].
  destruct (k =? 0); [reflexivity|]. f_equal.
  assert (Hodd : Z.odd nb = true) by (rewrite <- Z.negb_even, Ev; reflexivity).
  apply Z.odd_spec in Hodd. destruct Hodd as [c Hc].
  destruct (Z.compare_spec (2 * k + 1) nb) as [E|E|E]; symmetry.
  - apply Z.compare_lt_iff. lia.
  - apply Z.compare_lt_iff. lia.
  - apply Z.compare_gt_iff. lia.
Qed.

Lemma SFdiv_core_binary_spec (mx my : positive) (ex ey : Z) :
  let e' := Z.min (fexp64 (Zdigits2 (Z.pos mx) + ex - (Zdigits2 (Z.pos my) + ey))) (ex - ey) in
  let N := Z.pos mx * 2 ^ (ex - ey - e') in
  SFdiv_core_binary prec emax (Z.pos mx) ex (Z.pos my) ey
  = (N / Z.pos my, e', loc_of (N mod Z.pos my) (Z.pos my)).
Proof.
  intros e' N. unfold SFdiv_core_binary. rewrite fexp64_eq.
  fold e'.
  assert (Hs : 0 <= ex - ey - e') by (unfold e'; lia).
  assert (Hm' : match ex - ey - e' with
                | 0 => Z.pos mx
                | Z.pos _ => Z.shiftl (Z.pos mx) (ex - ey - e')
                | Z.neg _ => 0
                end = N).
  { unfold N. destruct (ex - ey - e') as [|p|p]; try lia.
    apply Z.shiftl_mul_pow2. lia. }
  rewrite Hm'.
  assert (HN : 0 <= N) by (unfold N; apply Z.mul_nonneg_nonneg; [lia | apply Z.pow_nonneg; lia]).
  pose proof (Z.mod_pos_bound N (Z.pos my) ltac:(lia)) as HR.
  unfold Z.div, Z.modulo in *.
  destruct (Z.div_eucl N (Z.pos my)) as [q r].
  rewrite new_location_spec by lia. reflexivity.
Qed.

Lemma SFdiv_precise (mx my : positive) (ex ey : Z) :
  valid_binary (S754_finite false mx ex) = true ->
  valid_binary (S754_finite false my ey) = true ->
  let e' := Z.min (fexp64 (Zdigits2 (Z.pos mx) + ex - (Zdigits2 (Z.pos my) + ey))) (ex - ey) in
  let N := Z.pos mx * 2 ^ (ex - ey - e') in
  e' <= fexp64 (Zdigits2 (N / Z.pos my) + e').
Proof.
  intros Vx Vy e' N.
  destruct (Z_le_gt_dec e' (-1074)) as [Hlow|Hhigh]; [unfold fexp64; lia|].
  pose proof (valid_finite _ _ _ Vx) as (Hex & Hmx & _).
  pose proof (valid_finite _ _ _ Vy) as (Hey & Hmy & _).
  destruct (Zdigits2_bounds (Z.pos mx) ltac:(lia)) as [Hd1 [Hlo1 Hhi1]].
  destruct (Zdigits2_bounds (Z.pos my) ltac:(lia)) as [Hd2 [Hlo2 Hhi2]].
  assert (Hd1' : Zdigits2 (Z.pos mx) <= 53) by (apply Zdigits2_le; lia).
  set (d1 := Zdigits2 (Z.pos mx)) in *. set (d2 := Zdigits2 (Z.pos my)) in *.
  assert (He' : e' = d1 + ex - (d2 + ey) - 53) by (unfold e', fexp64 in *; lia).
  assert (Hs : ex - ey - e' = 53 - d1 + d2) by lia.
  assert (Hq : 2 ^ 52 <= N / Z.pos my).
  { apply Z.div_le_lower_bound; [lia|].
    unfold N. rewrite Hs.
    assert (H1 : Z.pos my * 2 ^ 52 <= 2 ^ d2 * 2 ^ 52)
      by (apply Z.mul_le_mono_nonneg_r; [apply Z.pow_nonneg|]; lia).
    assert (H2 : 2 ^ (d1 - 1) * 2 ^ (53 - d1 + d2) <= Z.pos mx * 2 ^ (53 - d1 + d2))
      by (apply Z.mul_le_mono_nonneg_r; [apply Z.pow_nonneg|]; lia).
    rewrite <- Z.pow_add_r in H1, H2 by lia.
    replace (d1 - 1 + (53 - d1 + d2)) with (d2 + 52) in H2 by lia.
    lia. }
  assert (53 <= Zdigits2 (N / Z.pos my)) by (apply Zdigits2_ge; [exact Hq | lia]).
  unfold fexp64. lia.
Qed.

(** The quotient of a finite number by a positive finite number. *)
Lemma SFdiv_rounds (x : spec_float) (my : positive) (ey : Z) :
  valid_binary x = true -> SFfinite x = true ->
  valid_binary (S754_finite false my ey) = true ->
  rounds_to (SFval x * 2 ^ 1074) (SFval (S754_finite false my ey))
            (SFdiv prec emax x (S754_finite false my ey)).
Proof.
  intros Vx Fx Vy.
  pose proof (finite_val_bounds _ _ _ Vy) as By.
  destruct x as [sx|sx| |sx mx ex]; try discriminate; cbn [SFdiv].
  - split; [reflexivity|]. exists 0. split; [|left; split; reflexivity].
    cbn [SFval]. rewrite Z.mul_0_l. apply (nearest_self _ 0).
  - assert (Vx' : valid_binary (S754_finite false mx ex) = true) by exact Vx.
    pose proof (SFdiv_core_binary_spec mx my ex ey) as Hcore.
    pose proof (SFdiv_precise mx my ex ey Vx' Vy) as Hprecise.
    cbv zeta in Hcore, Hprecise.
    set (e' := Z.min (fexp64 (Zdigits2 (Z.pos mx) + ex - (Zdigits2 (Z.pos my) + ey))) (ex - ey)) in *.
    set (N := Z.pos mx * 2 ^ (ex - ey - e')) in *.
    rewrite Hcore.
    assert (Hs : 0 <= ex - ey - e') by (unfold e'; lia).
    assert (HN : 0 <= N) by (unfold N; apply Z.mul_nonneg_nonneg; [lia | apply Z.pow_nonneg; lia]).
    pose proof (binary_round_aux_rounds (xorb sx false) N (Z.pos my) (N / Z.pos my) e'
                  (loc_of (N mod Z.pos my) (Z.pos my)) HN ltac:(lia) eq_refl eq_refl Hprecise) as H.
    set (e1 := fexp64 (Zdigits2 (N / Z.pos my) + e')) in *.
    assert (He1 : -1074 <= e1) by (unfold e1, fexp64; lia).
    pose proof (valid_finite _ _ _ Vx) as (Hex & _).
    pose proof (valid_finite _ _ _ Vy) as (Hey & _).
    clearbody e1 e'.
    assert (Hk : 0 < 2 ^ (e1 - e')) by (apply Z.pow_pos_nonneg; lia).
    assert (E : 2 ^ (ex - ey - e') * 2 ^ (e1 + 1074) * 2 ^ (ey + 1074)
                = 2 ^ (ex + 1074) * 2 ^ 1074 * 2 ^ (e1 - e')).
    { rewrite <- !Z.pow_add_r by lia. f_equal. lia. }
    apply (rounds_to_ratio (cond_Zopp (xorb sx false) (N * 2 ^ (e1 + 1074)))
                           (Z.pos my * 2 ^ (e1 - e')));
      [apply Z.mul_pos_pos; lia | cbn [SFval cond_Zopp]; lia | | exact H].
    rewrite xorb_false_r. cbn [SFval]. unfold N.
    revert E.
    generalize (2 ^ (ex - ey - e')) (2 ^ (e1 + 1074)) (2 ^ (ey + 1074))
               (2 ^ (ex + 1074)) (2 ^ 1074) (2 ^ (e1 - e')).
    intros a b c d f g E.
    destruct sx; cbn [cond_Zopp]; rewrite ?Z.mul_opp_l; [f_equal|].
    + transitivity (Z.pos mx * Z.pos my * (a * b * c)); [ring|]. rewrite E. ring.
    + transitivity (Z.pos mx * Z.pos my * (a * b * c)); [ring|]. rewrite E. ring.
Qed.

(** *** Multiplication *)

Lemma SFmul_rounds (x y : spec_float) :
  valid_binary x = true -> valid_binary y = true ->
  SFfinite x = true -> SFfinite y = true ->
  rounds_to (SFval x * SFval y) (2 ^ 1074) (SFmul prec emax x y).
Proof.
  intros Vx Vy Fx Fy.
  assert (Hzero : forall s, rounds_to 0 (2 ^ 1074) (S754_zero s)).
  { intros s. split; [reflexivity|]. exists 0. split; [|left; split; reflexivity].
    apply (nearest_self _ 0). }
  destruct x as [sx|sx| |sx mx ex]; try discriminate;
  destruct y as [sy|sy| |sy my ey]; try discriminate; cbn [SFmul SFval];
    rewrite ?Z.mul_0_l, ?Z.mul_0_r; try apply Hzero.
  pose proof (valid_finite _ _ _ Vx) as (Hex & Hmx & Hnx).
  pose proof (valid_finite _ _ _ Vy) as (Hey & Hmy & Hny).
  assert (Hprecise : ex + ey <= fexp64 (Zdigits2 (Z.pos (mx * my)) + (ex + ey))).
  { destruct (Z_le_gt_dec (ex + ey) (-1074)) as [L|G]; [unfold fexp64; lia|].
    assert (H52 : 2 ^ 52 <= Z.pos (mx * my)).
    { rewrite Pos2Z.inj_mul.
      assert (Hc : 0 < 2 ^ 52) by (apply Z.pow_pos_nonneg; lia).
      destruct (Z_le_gt_dec ex (-1074)) as [Lx|Gx].
      - specialize (Hny ltac:(lia)). nia.
      - specialize (Hnx ltac:(lia)). nia. }
    assert (53 <= Zdigits2 (Z.pos (mx * my))) by (apply Zdigits2_ge; [exact H52 | lia]).
    unfold fexp64. lia. }
  pose proof (binary_round_aux_rounds (xorb sx sy) (Z.pos (mx * my)) 1 (Z.pos (mx * my))
                (ex + ey) loc_Exact ltac:(lia) ltac:(lia)) as H.
  specialize (H ltac:(rewrite Z.div_1_r; reflexivity)).
  specialize (H ltac:(rewrite Z.mod_1_r; reflexivity)).
  specialize (H Hprecise).
  set (e1 := fexp64 (Zdigits2 (Z.pos (mx * my)) + (ex + ey))) in *.
  assert (He1 : -1074 <= e1) by (unfold e1, fexp64; lia).
  clearbody e1.
  assert (Hk : 0 < 2 ^ (e1 - (ex + ey))) by (apply Z.pow_pos_nonneg; lia).
  assert (H1074 : 0 < 2 ^ 1074) by (apply Z.pow_pos_nonneg; lia).
  apply (rounds_to_ratio (cond_Zopp (xorb sx sy) (Z.pos (mx * my) * 2 ^ (e1 + 1074)))
                         (1 * 2 ^ (e1 - (ex + ey))));
    [lia | lia | | exact H].
  assert (E : 2 ^ (e1 + 1074) * 2 ^ 1074
              = 2 ^ (ex + 1074) * 2 ^ (ey + 1074) * 2 ^ (e1 - (ex + ey))).
  { rewrite <- !Z.pow_add_r by lia. f_equal. lia. }
  rewrite Pos2Z.inj_mul. revert E.
  generalize (2 ^ (e1 + 1074)) (2 ^ 1074) (2 ^ (ex + 1074)) (2 ^ (ey + 1074))
             (2 ^ (e1 - (ex + ey))).
  intros a b c d f E.
  assert (E' : Z.pos mx * Z.pos my * a * b = Z.pos mx * c * (Z.pos my * d) * (1 * f)).
  { transitivity (Z.pos mx * Z.pos my * (a * b)); [ring|]. rewrite E. ring. }
  destruct sx, sy; cbn [xorb cond_Zopp]; lia.
Qed.

(** *** A valid number from its mantissa and exponent *)

Lemma valid_intro (s : bool) (m : positive) (e : Z) :
  -1074 <= e <= 971 -> Z.pos m < 2 ^ 53 -> (-1074 < e -> 2 ^ 52 <= Z.pos m) ->
  valid_binary (S754_finite s m e) = true.
Proof.
  intros He Hm Hn. cbn [SpecFloat.valid_binary]. unfold bounded, canonical_mantissa.
  rewrite fexp64_eq. change (Z.pos (digits2_pos m)) with (Zdigits2 (Z.pos m)).
  assert (Hd : Zdigits2 (Z.pos m) <= 53) by (apply Zdigits2_le; lia).
  assert (Hd' : -1074 < e -> 53 <= Zdigits2 (Z.pos m)).
  { intros H. apply Zdigits2_ge; [|lia]. replace (53 - 1) with 52 by reflexivity. auto. }
  apply andb_true_intro. split; [apply Z.eqb_eq; unfold fexp64; lia|].
  apply Z.leb_le. change (emax - prec) with 971. lia.
Qed.

(** Every integer of at most 53 digits, times a power of two in range, is
    a binary64 number. *)
Lemma float_of_multiple (k j : Z) :
  0 <= k < 2 ^ 53 -> 0 <= j <= 2045 ->
  exists A : spec_float,
    valid_binary A = true /\ SFfinite A = true /\ SFval A = k * 2 ^ j.
Proof.
  intros Hk Hj. destruct (Z.eq_dec k 0) as [->|Hk0].
  - exists (S754_zero false). repeat split.
  - destruct (Zdigits2_bounds k ltac:(lia)) as [Hd [Hlo Hhi]].
    assert (Hd53 : Zdigits2 k <= 53) by (apply Zdigits2_le; lia).
    set (d := Zdigits2 k) in *. clearbody d.
    set (t := Z.min (53 - d) j).
    assert (Ht : 0 <= t) by (unfold t; lia).
    assert (Hp : 0 < 2 ^ t) by (apply Z.pow_pos_nonneg; lia).
    assert (HM : 0 < k * 2 ^ t) by (apply Z.mul_pos_pos; lia).
    exists (S754_finite false (Z.to_pos (k * 2 ^ t)) (j - t - 1074)).
    assert (HMlt : k * 2 ^ t < 2 ^ 53).
    { apply Z.lt_le_trans with (2 ^ d * 2 ^ t); [apply Z.mul_lt_mono_pos_r; lia|].
      rewrite <- Z.pow_add_r by lia. apply Z.pow_le_mono_r; unfold t; lia. }
    split; [|split; [reflexivity|]].
    + apply valid_intro; rewrite ?Z2Pos.id by lia; [unfold t; lia | exact HMlt |].
      intros He. assert (Et : t = 53 - d) by (unfold t in *; lia).
      apply Z.le_trans with (2 ^ (d - 1) * 2 ^ t); [|apply Z.mul_le_mono_nonneg_r; lia].
      rewrite <- Z.pow_add_r by lia. apply Z.pow_le_mono_r; lia.
    + cbn [SFval cond_Zopp]. rewrite Z2Pos.id by lia.
      rewrite <- Z.mul_assoc, <- Z.pow_add_r by (unfold t; lia).
      f_equal. f_equal. lia.
Qed.

(** Above [2^j] the next number is [2^j + 2^(j-52)]. *)
Lemma gap_above_power (A : spec_float) (j : Z) :
  valid_binary A = true -> SFfinite A = true ->
  52 <= j -> 2 ^ j < SFval A -> 2 ^ j + 2 ^ (j - 52) <= SFval A.
Proof.
  intros V F Hj Hlt.
  assert (H0 : 0 < 2 ^ j) by (apply Z.pow_pos_nonneg; lia).
  destruct A as [s|s| |s m e]; try discriminate; cbn [SFval] in *; [lia|].
  pose proof (valid_finite _ _ _ V) as (He & Hm & _).
  pose proof (finite_val_bounds _ _ _ V) as Hb.
  destruct s; cbn [cond_Zopp] in *; [lia|].
  destruct (Z_le_gt_dec (j - 52) (e + 1074)) as [Hge|Hsmall].
  - (* a multiple of 2^(j-52) *)
    assert (E : 2 ^ (e + 1074) = 2 ^ (e + 1074 - (j - 52)) * 2 ^ (j - 52)).
    { rewrite <- Z.pow_add_r by lia. f_equal. lia. }
    assert (Ej : 2 ^ j = 2 ^ 52 * 2 ^ (j - 52)).
    { rewrite <- Z.pow_add_r by lia. f_equal. lia. }
    rewrite E, Z.mul_assoc in *. rewrite Ej in *.
    assert (Hu : 0 < 2 ^ (j - 52)) by (apply Z.pow_pos_nonneg; lia).
    revert Hlt Hu. generalize (Z.pos m * 2 ^ (e + 1074 - (j - 52))) (2 ^ 52) (2 ^ (j - 52)).
    intros a b u Hlt Hu. assert (b < a) by nia. nia.
  - exfalso.
    assert (Z.pos m * 2 ^ (e + 1074) < 2 ^ 53 * 2 ^ (e + 1074))
      by (apply Z.mul_lt_mono_pos_r; [apply Z.pow_pos_nonneg|]; lia).
    assert (2 ^ 53 * 2 ^ (e + 1074) <= 2 ^ j)
      by (rewrite <- Z.pow_add_r by lia; apply Z.pow_le_mono_r; lia).
    lia.
Qed.

(** *** The sign of a square root *)

Lemma shr_1_nonneg (mrs : shr_record) : 0 <= shr_m mrs -> 0 <= shr_m (shr_1 mrs).
Proof.
  destruct mrs as [m r s]. cbn [shr_m]. intros H.
  destruct m as [|[p|p|]|p]; cbn [shr_1 shr_m]; lia.
Qed.

Lemma iter_shr_1_nonneg (p : positive) :
  forall mrs : shr_record, 0 <= shr_m mrs -> 0 <= shr_m (iter_pos shr_1 p mrs).
Proof.
  induction p as [p IH|p IH|]; intros mrs H; cbn [iter_pos].
  - apply IH, IH, shr_1_nonneg, H.
  - apply IH, IH, H.
  - apply shr_1_nonneg, H.
Qed.

Lemma shr_fexp_nonneg (m e : Z) (l : location) :
  0 <= m -> 0 <= shr_m (fst (shr_fexp prec emax m e l)).
Proof.
  intros H. unfold shr_fexp, shr.
  assert (H0 : 0 <= shr_m (shr_record_of_loc m l))
    by (destruct (loc_of_shr_record_of_loc m l) as [_ ->]; exact H).
  destruct (fexp prec emax (Zdigits2 m + e) - e); cbn [fst]; try exact H0.
  apply iter_shr_1_nonneg, H0.
Qed.

Lemma binary_round_aux_sign (s : bool) (m e : Z) (l : location) :
  0 <= m ->
  match binary_round_aux prec emax s m e l with
  | S754_zero s' | S754_infinity s' | S754_finite s' _ _ => s' = s
  | S754_nan => False
  end.
Proof.
  intros H. unfold binary_round_aux.
  pose proof (shr_fexp_nonneg m e l H) as H1.
  destruct (shr_fexp prec emax m e l) as [mrs' e']. cbn [fst] in H1.
  assert (H2 : 0 <= round_nearest_even (shr_m mrs') (loc_of_shr_record mrs')).
  { unfold round_nearest_even. destruct (loc_of_shr_record mrs') as [|[ | | ]]; try lia.
    destruct (Z.even (shr_m mrs')); lia. }
  pose proof (shr_fexp_nonneg _ e' loc_Exact H2) as H3.
  destruct (shr_fexp prec emax _ e' loc_Exact) as [mrs'' e'']. cbn [fst] in H3.
  destruct (shr_m mrs'') as [|p|p]; try lia; [reflexivity|].
  destruct (e'' <=? emax - prec); reflexivity.
Qed.

Lemma SFsqrt_nonneg (x : spec_float) :
  valid_binary x = true -> SFfinite x = true -> 0 <= SFval x ->
  SFsqrt prec emax x <> S754_nan /\ 0 <= SFval (SFsqrt prec emax x).
Proof.
  intros V F H. destruct x as [s|s| |s m e]; try discriminate; cbn [SFsqrt].
  - split; [discriminate | reflexivity].
  - pose proof (finite_val_bounds _ _ _ V) as Hb.
    destruct s; [cbn [SFval cond_Zopp] in H; lia|].
    assert (Hq : 0 <= fst (fst (SFsqrt_core_binary prec emax (Z.pos m) e))).
    { unfold SFsqrt_core_binary.
      set (m' := match e - 2 * _ with Z.pos _ => _ | 0 => _ | Z.neg _ => _ end).
      assert (Hm' : 0 <= m').
      { unfold m'. destruct (e - 2 * _) as [|p|p]; try lia.
        rewrite Z.shiftl_mul_pow2 by lia. apply Z.mul_nonneg_nonneg; [lia|].
        apply Z.pow_nonneg. lia. }
      pose proof (Z.sqrtrem_spec m' Hm') as Hs.
      destruct (Z.sqrtrem m') as [q r]. cbn [fst]. nia. }
    destruct (SFsqrt_core_binary prec emax (Z.pos m) e) as [[mz ez] lz]. cbn [fst] in Hq.
    pose proof (binary_round_aux_sign false mz ez lz Hq) as Hs.
    pose proof top_pos.
    destruct (binary_round_aux prec emax false mz ez lz) as [s'|s'| |s' m' e'];
      try contradiction; subst s'; cbn [SFval cond_Zopp].
    + split; [discriminate | lia].
    + split; [discriminate | lia].
    + split; [discriminate|]. apply Z.mul_nonneg_nonneg; [lia | apply Z.pow_nonneg; lia].
Qed.

(** ** The operations of primitive floats, through their values *)

Lemma finite_not_nan (x : float) : finite x -> is_nan x = false.
Proof.
  unfold finite. intros H. apply not_nan_spec. intros E. rewrite E in H. discriminate.
Qed.

Lemma fval_one : fval 1 = 2 ^ 1074.
Proof. vm_compute. reflexivity. Qed.

Lemma fval_zero : fval 0 = 0.
Proof. reflexivity. Qed.

Lemma finite_one : finite 1.
Proof. reflexivity. Qed.

Lemma finite_zero : finite 0.
Proof. reflexivity. Qed.

Lemma finite_opp (x : float) : finite x -> finite (- x) /\ fval (- x) = - fval x.
Proof.
  unfold finite, fval. intros F. rewrite opp_spec.
  destruct (SFopp_valid_finite _ (Prim2SF_valid x) F) as (_ & F' & E). auto.
Qed.

Lemma add_rounds (x y : float) :
  finite x -> finite y -> rounds_to (fval x + fval y) 1 (Prim2SF (x + y)).
Proof.
  intros Fx Fy. rewrite add_spec. apply SFadd_rounds; try apply Prim2SF_valid; assumption.
Qed.

Lemma sub_rounds (x y : float) :
  finite x -> finite y -> rounds_to (fval x - fval y) 1 (Prim2SF (x - y)).
Proof.
  intros Fx Fy. rewrite sub_spec. apply SFsub_rounds; try apply Prim2SF_valid; assumption.
Qed.

Lemma mul_rounds (x y : float) :
  finite x -> finite y -> rounds_to (fval x * fval y) (2 ^ 1074) (Prim2SF (x * y)).
Proof.
  intros Fx Fy. rewrite mul_spec. apply SFmul_rounds; try apply Prim2SF_valid; assumption.
Qed.

Lemma div_rounds (x y : float) :
  finite x -> finite y -> 0 < fval y ->
  rounds_to (fval x * 2 ^ 1074) (fval y) (Prim2SF (x / y)).
Proof.
  unfold finite, fval. intros Fx Fy Hy. rewrite div_spec.
  pose proof (Prim2SF_valid y) as Vy.
  destruct (Prim2SF y) as [s|s| |s m e]; try discriminate; cbn [SFval] in Hy.
  pose proof (finite_val_bounds _ _ _ Vy).
  destruct s; cbn [cond_Zopp] in Hy; [lia|].
  apply SFdiv_rounds; try apply Prim2SF_valid; assumption.
Qed.

(** The result of an operation whose exact value lies between two
    floats. *)
Lemma rounds_between (Xn Xd : Z) (r lo hi : float) :
  0 < Xd -> rounds_to Xn Xd (Prim2SF r) ->
  finite lo -> finite hi ->
  fval lo * Xd <= Xn -> Xn <= fval hi * Xd ->
  finite r /\ fval lo <= fval r <= fval hi.
Proof.
  intros HXd H Flo Fhi Hlo Hhi.
  apply (rounds_to_between Xn Xd (Prim2SF r) (Prim2SF lo) (Prim2SF hi));
    try apply Prim2SF_valid; assumption.
Qed.

Lemma add_between (x y lo hi : float) :
  finite x -> finite y -> finite lo -> finite hi ->
  fval lo <= fval x + fval y <= fval hi ->
  finite (x + y) /\ fval lo <= fval (x + y) <= fval hi.
Proof.
  intros Fx Fy Flo Fhi H.
  apply (rounds_between (fval x + fval y) 1 _ lo hi ltac:(lia) (add_rounds x y Fx Fy) Flo Fhi); lia.
Qed.

Lemma sub_between (x y lo hi : float) :
  finite x -> finite y -> finite lo -> finite hi ->
  fval lo <= fval x - fval y <= fval hi ->
  finite (x - y) /\ fval lo <= fval (x - y) <= fval hi.
Proof.
  intros Fx Fy Flo Fhi H.
  apply (rounds_between (fval x - fval y) 1 _ lo hi ltac:(lia) (sub_rounds x y Fx Fy) Flo Fhi); lia.
Qed.

Lemma mul_between (x y lo hi : float) :
  finite x -> finite y -> finite lo -> finite hi ->
  fval lo * 2 ^ 1074 <= fval x * fval y <= fval hi * 2 ^ 1074 ->
  finite (x * y) /\ fval lo <= fval (x * y) <= fval hi.
Proof.
  intros Fx Fy Flo Fhi H.
  assert (HXd : 0 < 2 ^ 1074) by (apply Z.pow_pos_nonneg; lia).
  exact (rounds_between _ _ _ lo hi HXd (mul_rounds x y Fx Fy) Flo Fhi (proj1 H) (proj2 H)).
Qed.

Lemma div_between (x y lo hi : float) :
  finite x -> finite y -> 0 < fval y -> finite lo -> finite hi ->
  fval lo * fval y <= fval x * 2 ^ 1074 <= fval hi * fval y ->
  finite (x / y) /\ fval lo <= fval (x / y) <= fval hi.
Proof.
  intros Fx Fy Hy Flo Fhi H.
  exact (rounds_between _ _ _ lo hi Hy (div_rounds x y Fx Fy Hy) Flo Fhi (proj1 H) (proj2 H)).
Qed.

Lemma sqrt_nonneg (x : float) :
  finite x -> 0 <= fval x -> is_nan (sqrt x) = false /\ 0 <= fval (sqrt x).
Proof.
  unfold finite, fval. intros F H.
  destruct (SFsqrt_nonneg _ (Prim2SF_valid x) F H) as [Hn Hv].
  rewrite not_nan_spec, sqrt_spec. auto.
Qed.

(** *** [float(n)] *)

Lemma round_int_spec (n : Z) :
  Prim2SF (Py.round_int n) = binary_normalize prec emax n 0 false /\
  rounds_to (n * 2 ^ 1074) 1 (Prim2SF (Py.round_int n)).
Proof.
  pose proof (binary_normalize_rounds n 0 ltac:(lia)) as H.
  change (0 + 1074) with 1074 in H.
  assert (E : Prim2SF (Py.round_int n) = binary_normalize prec emax n 0 false).
  { unfold Py.round_int. apply Prim2SF_SF2Prim. apply H. }
  rewrite E. auto.
Qed.

Lemma max_float_val :
  exists A : spec_float,
    valid_binary A = true /\ SFfinite A = true /\ SFval A = (2 ^ 53 - 1) * 2 ^ 2045.
Proof.
  apply float_of_multiple; [|lia].
  assert (0 < 2 ^ 53) by (apply Z.pow_pos_nonneg; lia). lia.
Qed.

(** Below [int_max] the rounded integer is finite; from 1 on it is at
    least 1.0. *)
Lemma round_int_finite (n : Z) :
  1 <= n < Py.int_max -> finite (Py.round_int n) /\ 2 ^ 1074 <= fval (Py.round_int n).
Proof.
  intros Hn. destruct (round_int_spec n) as [_ [V (v & Hnear & Hc)]].
  assert (H1074 : 0 < 2 ^ 1074) by (apply Z.pow_pos_nonneg; lia).
  assert (Hlo : 2 ^ 1074 <= v).
  { rewrite <- fval_one.
    apply (nearest_ge (n * 2 ^ 1074) 1 v (Prim2SF 1)); try assumption; try lia;
      try reflexivity.
    change (SFval (Prim2SF 1)) with (fval 1). rewrite fval_one. nia. }
  destruct max_float_val as (M & VM & FM & EM).
  assert (Hhi : v < 2 ^ 2098).
  { pose proof (Hnear M VM FM) as H. rewrite EM in H.
    destruct (Z_lt_le_dec v (2 ^ 2098)) as [L|G]; [exact L|exfalso].
    unfold Py.int_max in Hn.
    assert (E1 : 2 ^ 2098 = 2 ^ 1024 * 2 ^ 1074) by (rewrite <- Z.pow_add_r by lia; reflexivity).
    assert (E2 : 2 ^ 53 * 2 ^ 2045 = 2 ^ 1024 * 2 ^ 1074)
      by (rewrite <- !Z.pow_add_r by lia; reflexivity).
    assert (E3 : 2 ^ 2045 = 2 * (2 ^ 970 * 2 ^ 1074))
      by (rewrite <- Z.pow_add_r by lia; rewrite <- (Z.pow_succ_r 2) by lia; reflexivity).
    assert (E4 : 0 < 2 ^ 970) by (apply Z.pow_pos_nonneg; lia).
    revert Hn G H E1 E2 E3 E4 H1074.
    generalize (2 ^ 2098) (2 ^ 1024) (2 ^ 1074) (2 ^ 53) (2 ^ 2045) (2 ^ 970).
    intros a b c d f g Hn G H E1 E2 E3 E4 Hc0.
    rewrite !Z.mul_1_r in H.
    assert (Hx : n * c < (b - g) * c) by (apply Z.mul_lt_mono_pos_r; lia).
    assert (Hg : 0 < g * c) by (apply Z.mul_pos_pos; lia).
    lia. }
  assert (0 < 2 ^ 2098) by (apply Z.pow_pos_nonneg; lia).
  destruct Hc as [[F E]|[[E Hv]|[E Hv]]]; [|lia|lia].
  split; [exact F|]. unfold fval. rewrite E. exact Hlo.
Qed.

Lemma rounds_finite_val (Xn Xd : Z) (r : float) :
  rounds_to Xn Xd (Prim2SF r) -> finite r -> nearest Xn Xd (fval r).
Proof.
  intros [_ (v & Hn & Hc)] F. unfold finite in F. unfold fval.
  destruct Hc as [[_ E]|[[E _]|[E _]]]; [rewrite E; exact Hn | |]; rewrite E in F; discriminate.
Qed.

Lemma fval_two : fval 2 = 2 * 2 ^ 1074.
Proof. vm_compute. reflexivity. Qed.

Lemma finite_two : finite 2.
Proof. reflexivity. Qed.

(** The multiples of [2^-53] up to 1 are floats. *)
Lemma float_of_unit_fraction (k : Z) :
  0 <= k <= 2 ^ 53 ->
  exists A : spec_float,
    valid_binary A = true /\ SFfinite A = true /\ SFval A = k * 2 ^ 1021.
Proof.
  intros Hk. destruct (Z.eq_dec k (2 ^ 53)) as [->|Hne].
  - exists (Prim2SF 1). split; [apply Prim2SF_valid|]. split; [reflexivity|].
    change (SFval (Prim2SF 1)) with (fval 1). rewrite fval_one.
    rewrite <- Z.pow_add_r by lia. reflexivity.
  - apply float_of_multiple; lia.
Qed.

(** The sum of [p] and of a part of the rounded [1 - p] stays within 1. *)
Lemma add_complement_le_one (p q : float) :
  finite p -> 0 <= fval p <= 2 ^ 1074 ->
  finite q -> 0 <= fval q <= fval (1 - p) ->
  finite (p + q) /\ fval p <= fval (p + q) <= 2 ^ 1074.
Proof.
  intros Fp Hp Fq Hq.
  assert (H1074 : 0 < 2 ^ 1074) by (apply Z.pow_pos_nonneg; lia).
  assert (H1021 : 0 < 2 ^ 1021) by (apply Z.pow_pos_nonneg; lia).
  assert (E1 : 2 ^ 1074 = 2 ^ 53 * 2 ^ 1021) by (rewrite <- Z.pow_add_r by lia; reflexivity).
  assert (E2 : 2 ^ 1022 = 2 * 2 ^ 1021) by (rewrite <- (Z.pow_succ_r 2) by lia; reflexivity).
  (* 1 - p *)
  destruct (sub_between 1 p 0 1 finite_one Fp finite_zero finite_one) as [Ft Ht].
  { rewrite fval_one, fval_zero. lia. }
  rewrite fval_one, fval_zero in Ht.
  pose proof (rounds_finite_val _ _ _ (sub_rounds 1 p finite_one Fp) Ft) as Nt.
  rewrite fval_one in Nt.
  (* p + q *)
  destruct (add_between p q p 2 Fp Fq Fp finite_two) as [Fs Hs].
  { rewrite fval_two. lia. }
  pose proof (rounds_finite_val _ _ _ (add_rounds p q Fp Fq) Fs) as Ns.
  split; [exact Fs|]. split; [lia|].
  destruct (Z_le_gt_dec (fval (p + q)) (2 ^ 1074)) as [Hle|Hgt]; [exact Hle|exfalso].
  (* the sum is far above 1 *)
  pose proof (gap_above_power (Prim2SF (p + q)) 1074 (Prim2SF_valid _) Fs ltac:(lia) (Z.gt_lt _ _ Hgt)) as Hgap.
  change (SFval (Prim2SF (p + q))) with (fval (p + q)) in Hgap.
  replace (1074 - 52) with 1022 in Hgap by lia.
  pose proof (Ns (Prim2SF 1) (Prim2SF_valid _) eq_refl) as Hn1.
  change (SFval (Prim2SF 1)) with (fval 1) in Hn1. rewrite fval_one in Hn1.
  rewrite !Z.mul_1_r in Hn1.
  assert (HS : 2 ^ 1074 + 2 ^ 1021 <= fval p + fval q) by lia.
  (* so 1 - p was rounded far up, past a float *)
  set (U := 2 ^ 1074 - fval p) in *.
  set (k := (U + 2 ^ 1021 - 1) / 2 ^ 1021).
  assert (Hk : U <= k * 2 ^ 1021 < U + 2 ^ 1021).
  { unfold k. pose proof (Z.div_mod (U + 2 ^ 1021 - 1) (2 ^ 1021) ltac:(lia)) as HE.
    pose proof (Z.mod_pos_bound (U + 2 ^ 1021 - 1) (2 ^ 1021) H1021) as HR.
    lia. }
  assert (Hk53 : 0 <= k <= 2 ^ 53).
  { assert (0 <= U <= 2 ^ 53 * 2 ^ 1021) by (unfold U; lia). nia. }
  destruct (float_of_unit_fraction k Hk53) as (A & VA & FA & EA).
  pose proof (Nt A VA FA) as HnA. rewrite EA, !Z.mul_1_r in HnA.
  fold U in HnA. lia.
Qed.

(** *** [float(n)] on the counts of the detector *)

Lemma float_of_int_Ok (c : Z) (n : float) :
  Py.float_of_int c = Ok n -> 1 <= c ->
  n = Py.round_int c /\ c < Py.int_max /\ finite n /\ 2 ^ 1074 <= fval n.
Proof.
  unfold Py.float_of_int. intros H Hc.
  destruct (Z.ltb_spec (Z.abs c) Py.int_max) as [L|L]; [|discriminate].
  injection H as <-. rewrite Z.abs_eq in L by lia.
  split; [reflexivity|]. split; [exact L|]. apply round_int_finite. lia.
Qed.

Lemma float_of_int_total (c : Z) :
  1 <= c < Py.int_max ->
  Py.float_of_int c = Ok (Py.round_int c) /\ (Py.round_int c =? 0)%float = false.
Proof.
  intros Hc. unfold Py.float_of_int.
  destruct (Z.ltb_spec (Z.abs c) Py.int_max) as [L|L]; [|lia].
  split; [reflexivity|].
  destruct (round_int_finite c Hc) as [F Hv].
  assert (H1074 : 0 < 2 ^ 1074) by (apply Z.pow_pos_nonneg; lia).
  rewrite eqb_val by (try apply finite_not_nan; try assumption; reflexivity).
  rewrite fval_zero. apply Z.eqb_neq. lia.
Qed.

Lemma rounds_to_not_nan (Xn Xd : Z) (R : spec_float) : rounds_to Xn Xd R -> R <> S754_nan.
Proof.
  intros [_ (v & _ & Hc)] E. subst R.
  destruct Hc as [[F _]|[[E _]|[E _]]]; discriminate.
Qed.

Lemma add_not_nan (x y : float) :
  finite x -> is_nan y = false -> 0 <= fval y -> is_nan (x + y) = false.
Proof.
  intros Fx Ny Hy. apply not_nan_spec.
  destruct (SFfinite (Prim2SF y)) eqn:Fy.
  - apply (rounds_to_not_nan _ _ _ (add_rounds x y Fx Fy)).
  - rewrite add_spec. apply not_nan_spec in Ny. unfold finite in Fx.
    unfold fval in Hy. pose proof top_pos.
    destruct (Prim2SF y) as [s|s| |s m e]; try discriminate; try congruence.
    destruct s; cbn [SFval cond_Zopp] in Hy; [lia|].
    destruct (Prim2SF x) as [sx|sx| |sx mx ex]; try discriminate; cbn; discriminate.
Qed.

(** [int_max] is the first integer that [float] refuses. *)
Lemma int_max_overflows :
  is_infinity (Py.round_int Py.int_max) = true /\
  is_infinity (Py.round_int (Py.int_max - 1)) = false.
Proof. vm_compute. split; reflexivity. Qed.

(** ** One float for one value *)

Lemma finite_val_le_max (s : bool) (m : positive) (e : Z) :
  valid_binary (S754_finite s m e) = true ->
  Z.pos m * 2 ^ (e + 1074) <= 2 ^ 2098 - 2 ^ 2045.
Proof.
  intros V. destruct (valid_finite _ _ _ V) as (He & Hm & _).
  assert (Hp : 0 < 2 ^ (e + 1074) <= 2 ^ 2045).
  { split; [apply Z.pow_pos_nonneg; lia | apply Z.pow_le_mono_r; lia]. }
  assert (E : 2 ^ 2098 = 2 ^ 53 * 2 ^ 2045) by (rewrite <- Z.pow_add_r by lia; reflexivity).
  rewrite E. revert Hm Hp. generalize (2 ^ (e + 1074)) (2 ^ 2045) (2 ^ 53). intros a b c Hm Hp.
  assert (Z.pos m <= c - 1) by lia.
  assert (Z.pos m * a <= (c - 1) * a) by (apply Z.mul_le_mono_nonneg_r; lia).
  assert ((c - 1) * a <= (c - 1) * b) by (apply Z.mul_le_mono_nonneg_l; lia).
  lia.
Qed.

Lemma finite_le_max (x : float) : finite x -> fval x <= 2 ^ 2098 - 2 ^ 2045.
Proof.
  unfold finite, fval. intros F. pose proof (Prim2SF_valid x) as V.
  assert (H : 0 < 2 ^ 2098 - 2 ^ 2045) by reflexivity.
  destruct (Prim2SF x) as [b|b| |b m e]; cbn [SFfinite] in F; try discriminate F; cbn [SFval].
  - apply Z.lt_le_incl. exact H.
  - pose proof (finite_val_le_max _ _ _ V) as Hm. pose proof (finite_val_bounds _ _ _ V) as Hb.
    revert H Hm Hb. generalize (2 ^ 2098 - 2 ^ 2045) (Z.pos m * 2 ^ (e + 1074)) top.
    intros M a t H Hm Hb. destruct b; cbn [cond_Zopp]; lia.
Qed.

Lemma finite_val_inj (s1 s2 : bool) (m1 m2 : positive) (e1 e2 : Z) :
  valid_binary (S754_finite s1 m1 e1) = true ->
  valid_binary (S754_finite s2 m2 e2) = true ->
  SFval (S754_finite s1 m1 e1) = SFval (S754_finite s2 m2 e2) ->
  S754_finite s1 m1 e1 = S754_finite s2 m2 e2.
Proof.
  intros V1 V2 E. cbn [SFval] in E.
  pose proof (finite_val_bounds _ _ _ V1) as B1.
  pose proof (finite_val_bounds _ _ _ V2) as B2.
  assert (Hs : s1 = s2).
  { destruct s1, s2; cbn [cond_Zopp] in E; try reflexivity; lia. }
  subst s2.
  assert (Hm : Z.pos m1 * 2 ^ (e1 + 1074) = Z.pos m2 * 2 ^ (e2 + 1074)).
  { destruct s1; cbn [cond_Zopp] in E; lia. }
  assert (He : e1 = e2).
  { destruct (Z.lt_trichotomy e1 e2) as [H|[H|H]]; [|exact H|].
    - pose proof (finite_lt_by_exponent s1 s1 m1 m2 e1 e2 V1 V2 H). lia.
    - pose proof (finite_lt_by_exponent s1 s1 m2 m1 e2 e1 V2 V1 H). lia. }
  subst e2.
  apply Z.mul_reg_r in Hm; [|lia].
  congruence.
Qed.

(** Two finite floats of the same nonzero value are the same float; the
    value 0 has the two zeros. *)
Lemma fval_inj (x y : float) :
  finite x -> finite y -> fval x = fval y -> fval x <> 0 -> x = y.
Proof.
  unfold finite, fval. intros Fx Fy E Hz. apply Prim2SF_inj.
  pose proof (Prim2SF_valid x) as Vx. pose proof (Prim2SF_valid y) as Vy.
  destruct (Prim2SF x) as [sx|sx| |sx mx ex]; try discriminate; [cbn in Hz; congruence|].
  destruct (Prim2SF y) as [sy|sy| |sy my ey]; try discriminate.
  - rewrite E in Hz. cbn in Hz. congruence.
  - apply finite_val_inj; assumption.
Qed.

(** ** Signs, infinities and NaN *)

Lemma rounds_to_nonneg (Xn Xd : Z) (R : spec_float) :
  0 < Xd -> 0 <= Xn -> rounds_to Xn Xd R ->
  (SFfinite R = true /\ 0 <= SFval R) \/ R = S754_infinity false.
Proof.
  intros HXd HXn (V & v & Hn & Hv).
  assert (H0 : SFval (S754_zero false) <= v).
  { apply (nearest_ge Xn Xd v (S754_zero false) HXd Hn); [reflexivity | reflexivity |].
    cbn [SFval]. lia. }
  cbn [SFval] in H0.
  destruct Hv as [[F E]|[[E _]|[_ E]]].
  - left. split; [exact F | lia].
  - right. exact E.
  - exfalso. assert (0 < 2 ^ 2098) by (apply Z.pow_pos_nonneg; lia). lia.
Qed.

Lemma nonneg_cases (s : float) :
  is_nan s = false -> 0 <= fval s -> finite s \/ Prim2SF s = S754_infinity false.
Proof.
  intros Hn Hs. apply not_nan_spec in Hn. unfold finite, fval in *.
  destruct (Prim2SF s) as [b|b| |b m e]; try (left; reflexivity); [|congruence].
  destruct b; [|right; reflexivity].
  cbn [SFval cond_Zopp] in Hs. pose proof top_pos. lia.
Qed.

Lemma fval_infinity (x : float) : Prim2SF x = S754_infinity false -> fval x = top.
Proof. unfold fval. intros ->. reflexivity. Qed.

Lemma add_nan (x y : float) : is_nan x = true \/ is_nan y = true -> is_nan (x + y) = true.
Proof.
  intros H. apply is_nan_spec. rewrite add_spec.
  destruct H as [H|H]; apply is_nan_spec in H; rewrite H; [reflexivity|].
  destruct (Prim2SF x); reflexivity.
Qed.



Lemma add_infinity (p y : float) :
  finite p -> Prim2SF y = S754_infinity false -> Prim2SF (p + y) = S754_infinity false.
Proof.
  unfold finite. intros F E. rewrite add_spec, E.
  destruct (Prim2SF p); try discriminate; reflexivity.
Qed.

Lemma mul_infinity_r (L s : float) :
  is_nan L = false -> 0 < fval L -> Prim2SF s = S754_infinity false ->
  Prim2SF (L * s) = S754_infinity false.
Proof.
  intros Hn HL E. apply not_nan_spec in Hn. unfold fval in HL.
  rewrite mul_spec, E. pose proof (Prim2SF_valid L) as V. pose proof top_pos as Ht.
  destruct (Prim2SF L) as [b|b| |b m e]; cbn [SFval cond_Zopp] in HL.
  - lia.
  - destruct b; cbn [cond_Zopp] in HL; [lia | reflexivity].
  - congruence.
  - pose proof (finite_val_bounds _ _ _ V). destruct b; cbn [cond_Zopp] in HL; [lia | reflexivity].
Qed.

Lemma mul_infinity_l (L s : float) :
  Prim2SF L = S754_infinity false -> finite s -> 0 <= fval s ->
  is_nan (L * s) = true \/ Prim2SF (L * s) = S754_infinity false.
Proof.
  unfold finite, fval. intros E F Hs.
  rewrite is_nan_spec, mul_spec, E. pose proof (Prim2SF_valid s) as V.
  destruct (Prim2SF s) as [b|b| |b m e]; try discriminate.
  - left. reflexivity.
  - pose proof (finite_val_bounds _ _ _ V).
    destruct b; cbn [SFval cond_Zopp] in Hs; [lia | right; reflexivity].
Qed.

Lemma ltb_false_intro (a b : float) :
  is_nan a = true \/ fval b <= fval a -> (a <? b)%float = false.
Proof.
  intros H. destruct (a <? b)%float eqn:E; [|reflexivity].
  apply ltb_true_iff in E. destruct E as (Na & Nb & Hlt).
  destruct H as [H|H]; [congruence | lia].
Qed.

Lemma ltb_infinity_false (a b : float) :
  Prim2SF a = S754_infinity false -> (a <? b)%float = false.
Proof.
  intros E. apply ltb_false_intro. right. rewrite (fval_infinity a E). apply fval_le_top.
Qed.

(** ** Zero *)

Lemma zero_div (n : float) : finite n -> 0 < fval n -> (0 / n)%float = 0%float.
Proof.
  unfold finite, fval. intros F H. apply Prim2SF_inj. rewrite div_spec.
  pose proof (Prim2SF_valid n) as V.
  destruct (Prim2SF n) as [b|b| |b m e]; try discriminate F; cbn [SFval] in H.
  - lia.
  - pose proof (finite_val_bounds _ _ _ V).
    destruct b; cbn [cond_Zopp] in H; [lia | reflexivity].
Qed.

Lemma mul_zero_cases (L : float) :
  is_nan (L * 0) = true \/ (finite (L * 0) /\ fval (L * 0) = 0).
Proof.
  unfold finite, fval. rewrite is_nan_spec, mul_spec.
  change (Prim2SF 0) with (S754_zero false).
  destruct (Prim2SF L) as [b|b| |b m e]; cbn; auto.
Qed.

Lemma add_zero_val (p z : float) :
  finite p -> finite z -> fval z = 0 -> finite (p + z) /\ fval (p + z) = fval p.
Proof.
  intros Fp Fz Ez.
  destruct (add_between p z p p Fp Fz Fp Fp ltac:(lia)) as [F H].
  split; [exact F | lia].
Qed.

(** ** Monotony *)

(** The product by a level of at least 1 is not below the number. *)
Lemma mul_ge (L s : float) :
  finite L -> finite s -> 2 ^ 1074 <= fval L -> 0 <= fval s ->
  (finite (L * s) /\ fval s <= fval (L * s)) \/ Prim2SF (L * s) = S754_infinity false.
Proof.
  intros FL Fs HL Hs.
  assert (H1074 : 0 < 2 ^ 1074) by (apply Z.pow_pos_nonneg; lia).
  assert (P2098 : 0 < 2 ^ 2098) by (apply Z.pow_pos_nonneg; lia).
  destruct (mul_rounds L s FL Fs) as (V & v & Hn & Hv).
  assert (Hge : fval s <= v).
  { apply (nearest_ge (fval L * fval s) (2 ^ 1074) v (Prim2SF s) H1074 Hn (Prim2SF_valid s) Fs).
    fold (fval s). nia. }
  destruct Hv as [[F E]|[[E _]|[_ E]]].
  - left. split; [exact F|]. unfold fval at 2. lia.
  - right. exact E.
  - lia.
Qed.

(** A sum with an error rate of [0, 1] grows with its second term. *)
Lemma add_mono (p s t : float) :
  finite p -> 0 <= fval p <= 2 ^ 1074 ->
  finite s -> finite t -> 0 <= fval s <= fval t ->
  is_nan (p + t) = false /\ fval (p + s) <= fval (p + t).
Proof.
  intros Fp Hp Fs Ft Hst.
  assert (P2098 : 0 < 2 ^ 2098) by (apply Z.pow_pos_nonneg; lia).
  assert (Hgap : 2 * 2 ^ 1074 < 2 ^ 2045) by reflexivity.
  pose proof (finite_le_max s Fs) as Hsmax.
  pose proof (add_rounds p s Fp Fs) as R2.
  pose proof (add_rounds p t Fp Ft) as R1.
  assert (N1 : is_nan (p + t) = false) by (apply not_nan_spec; exact (rounds_to_not_nan _ _ _ R1)).
  split; [exact N1|].
  (* the smaller sum is finite *)
  destruct (max_float_val) as (A & VA & FA & EA).
  assert (EA' : SFval A = 2 ^ 2098 - 2 ^ 2045) by (rewrite EA; reflexivity).
  assert (F2 : finite (p + s)).
  { destruct (rounds_to_nonneg (fval p + fval s) 1 _ ltac:(lia) ltac:(lia) R2) as [[F _]|E]; [exact F|].
    exfalso. destruct R2 as (_ & v & Hn & Hv).
    rewrite E in Hv. destruct Hv as [[F _]|[[_ Hv]|[Hv _]]]; [discriminate | | discriminate].
    specialize (Hn A VA FA). rewrite EA' in Hn.
    revert Hn Hv Hgap Hsmax Hp Hst P2098.
    generalize (2 ^ 1074) (2 ^ 2045) (2 ^ 2098) (fval p) (fval s) (fval t).
    intros; lia. }
  destruct (rounds_to_nonneg (fval p + fval t) 1 _ ltac:(lia) ltac:(lia) R1) as [[F1 _]|E].
  - pose proof (rounds_finite_val _ _ _ R2 F2) as Hn2.
    pose proof (rounds_finite_val _ _ _ R1 F1) as Hn1.
    destruct (Z_le_gt_dec (fval (p + s)) (fval (p + t))) as [Hle|Hgt]; [exact Hle|].
    exfalso.
    pose proof (Hn1 (Prim2SF (p + s)) (Prim2SF_valid _) F2) as C1.
    pose proof (Hn2 (Prim2SF (p + t)) (Prim2SF_valid _) F1) as C2.
    fold (fval (p + s)) in C1. fold (fval (p + t)) in C2.
    assert (Est : fval s = fval t) by lia.
    destruct (Z.eq_dec (fval s) 0) as [Hz|Hz].
    + destruct (add_zero_val p s Fp Fs Hz) as [_ E1].
      destruct (add_zero_val p t Fp Ft ltac:(lia)) as [_ E2]. lia.
    + rewrite (fval_inj s t Fs Ft Est Hz) in Hgt. lia.
  - rewrite (fval_infinity _ E). apply fval_le_top.
Qed.

(** The threshold built on a snapshot is not below the sum of the
    snapshot when the level is at least 1. *)
Lemma threshold_not_below_sum (p s L : float) :
  finite p -> 0 <= fval p <= 2 ^ 1074 ->
  is_nan s = false -> 0 <= fval s ->
  (1 <=? L)%float = true ->
  (p + L * s <? p + s)%float = false.
Proof.
  intros Fp Hp Ns Hs HL.
  assert (H1074 : 0 < 2 ^ 1074) by (apply Z.pow_pos_nonneg; lia).
  apply leb_true_iff in HL. destruct HL as (_ & NL & HL). rewrite fval_one in HL.
  destruct (nonneg_cases s Ns Hs) as [Fs|Es].
  - destruct (nonneg_cases L NL ltac:(lia)) as [FL|EL].
    + destruct (mul_ge L s FL Fs HL Hs) as [[Ft Ht]|Et].
      * apply ltb_false_intro. right.
        apply (add_mono p s (L * s) Fp Hp Fs Ft). lia.
      * apply ltb_infinity_false. apply add_infinity; assumption.
    + destruct (mul_infinity_l L s EL Fs Hs) as [Hn|Et].
      * apply ltb_false_intro. left. apply add_nan. right. exact Hn.
      * apply ltb_infinity_false. apply add_infinity; assumption.
  - apply ltb_infinity_false. apply add_infinity; [exact Fp|].
    apply mul_infinity_r; [exact NL | lia | exact Es].
Qed.

(** ** Where the finite numbers end

    A rounding that stays finite rounds a number of at most
    [2^1024 - 2^970], half a step beyond the largest float; a rounding to
    an infinity rounds a number of at least that size. *)

Lemma overflow_threshold_pos : 0 < 2 ^ 2098 - 2 ^ 2044.
Proof. reflexivity. Qed.

Section RoundAuxBound.

Variables (s : bool) (N D mx e : Z) (lx : location).
Hypothesis HN : 0 <= N.
Hypothesis HD : 0 < D.
Hypothesis Hmx : mx = N / D.
Hypothesis Hlx : lx = loc_of (N mod D) D.
Hypothesis Hprecise : e <= fexp64 (Zdigits2 mx + e).

Local Notation "'e1'" := (fexp64 (Zdigits2 mx + e)).

Lemma binary_round_aux_finite_bound :
  SFfinite (binary_round_aux prec emax s mx e lx) = true ->
  N * 2 ^ (e1 + 1074) <= (2 ^ 2098 - 2 ^ 2044) * (D * 2 ^ (e1 - e)).
Proof.
  pose proof (round_aux_e1 mx e Hprecise) as [He0 He].
  pose proof (round_aux_D1_pos D mx e HD Hprecise) as HD1.
  pose proof (round_aux_q N D mx e HN HD Hmx Hprecise) as [_ Hq0].
  pose proof (round_aux_q_bounds N D mx e HN HD Hmx Hprecise) as [Hq53 Hq52].
  pose proof (round_aux_m2 N D mx e HN HD Hprecise) as [Hm2 Hhalf].
  rewrite (binary_round_aux_result s N D mx e lx HN HD Hmx Hlx Hprecise).
  remember e1 as e1' eqn:He1 in *. clear He1.
  remember (D * 2 ^ (e1' - e)) as D1 eqn:HeqD1 in *. clear HeqD1.
  remember (N / D1) as q eqn:Hq in *. clear Hq.
  remember (round_nearest_even q (loc_of (N mod D1) D1)) as m2 eqn:Heqm2 in *. clear Heqm2.
  set (P := 2 ^ (e1' + 1074)).
  assert (HP : 0 < P) by (apply Z.pow_pos_nonneg; lia).
  assert (E98 : 2 ^ 2098 = 2 ^ 54 * 2 ^ 2044) by reflexivity.
  assert (E45 : 2 ^ 2045 = 2 * 2 ^ 2044) by reflexivity.
  assert (E53 : 2 * 2 ^ 53 = 2 ^ 54) by reflexivity.
  assert (H44 : 0 < 2 ^ 2044) by (apply Z.pow_pos_nonneg; lia).
  assert (H54 : 4 <= 2 ^ 54) by (change 4 with (2 ^ 2); apply Z.pow_le_mono_r; lia).
  intros F. unfold round_result in F.
  assert (Hmain : forall K Pmax : Z,
             0 <= K -> 2 * N <= K * D1 -> P <= Pmax -> K * Pmax <= 2 * (2 ^ 2098 - 2 ^ 2044) ->
             N * P <= (2 ^ 2098 - 2 ^ 2044) * D1).
  { intros K Pmax HK H1 H2 H3.
    assert (A1 : 2 * N * P <= K * D1 * P) by (apply Z.mul_le_mono_nonneg_r; lia).
    assert (A2 : K * P <= K * Pmax) by (apply Z.mul_le_mono_nonneg_l; lia).
    assert (A3 : K * P * D1 <= K * Pmax * D1) by (apply Z.mul_le_mono_nonneg_r; lia).
    assert (A4 : K * Pmax * D1 <= 2 * (2 ^ 2098 - 2 ^ 2044) * D1)
      by (apply Z.mul_le_mono_nonneg_r; lia).
    replace (K * D1 * P) with (K * P * D1) in A1 by ring.
    lia. }
  destruct m2 as [|p|p] eqn:Em2.
  - assert (Hq : q = 0) by lia.
    assert (He1 : e1' = -1074).
    { destruct (Z.eq_dec e1' (-1074)) as [H|H]; [exact H|].
      specialize (Hq52 ltac:(lia)). assert (0 < 2 ^ 52) by (apply Z.pow_pos_nonneg; lia). lia. }
    assert (EP : P = 1) by (unfold P; rewrite He1; reflexivity).
    apply (Hmain 1 1); lia.
  - destruct (Z.eqb_spec (Z.pos p) (2 ^ 53)) as [E|E].
    + destruct (Z.leb_spec (e1' + 1) 971) as [L|L]; [|discriminate F].
      assert (HPm : P <= 2 ^ 2044) by (apply Z.pow_le_mono_r; lia).
      apply (Hmain (2 ^ 54 + 1) (2 ^ 2044)); try lia; try (rewrite E98; nia).
    + destruct (Z.leb_spec e1' 971) as [L|L]; [|discriminate F].
      assert (HPm : P <= 2 ^ 2045) by (apply Z.pow_le_mono_r; lia).
      assert (Hp : Z.pos p <= 2 ^ 53 - 1) by lia.
      assert (A : Z.pos p * D1 <= (2 ^ 53 - 1) * D1) by (apply Z.mul_le_mono_nonneg_r; lia).
      apply (Hmain (2 ^ 54 - 1) (2 ^ 2045)); try lia; try (rewrite E98, E45; nia).
  - discriminate F.
Qed.

End RoundAuxBound.

Lemma SFmul_finite_bound (x y : spec_float) :
  valid_binary x = true -> valid_binary y = true ->
  SFfinite x = true -> SFfinite y = true ->
  SFfinite (SFmul prec emax x y) = true ->
  Z.abs (SFval x * SFval y) <= (2 ^ 2098 - 2 ^ 2044) * 2 ^ 1074.
Proof.
  intros Vx Vy Fx Fy.
  pose proof overflow_threshold_pos as HT.
  assert (H1074 : 0 < 2 ^ 1074) by (apply Z.pow_pos_nonneg; lia).
  assert (Hzero : Z.abs 0 <= (2 ^ 2098 - 2 ^ 2044) * 2 ^ 1074).
  { revert HT H1074. generalize (2 ^ 2098 - 2 ^ 2044) (2 ^ 1074). intros; nia. }
  destruct x as [sx|sx| |sx mx ex]; try discriminate Fx;
  destruct y as [sy|sy| |sy my ey]; try discriminate Fy; cbn [SFmul SFval];
    rewrite ?Z.mul_0_l, ?Z.mul_0_r; try (intros _; exact Hzero).
  intros F.
  pose proof (valid_finite _ _ _ Vx) as (Hex & Hmx & Hnx).
  pose proof (valid_finite _ _ _ Vy) as (Hey & Hmy & Hny).
  assert (Hprecise : ex + ey <= fexp64 (Zdigits2 (Z.pos (mx * my)) + (ex + ey))).
  { destruct (Z_le_gt_dec (ex + ey) (-1074)) as [L|G]; [unfold fexp64; lia|].
    assert (H52 : 2 ^ 52 <= Z.pos (mx * my)).
    { rewrite Pos2Z.inj_mul.
      assert (Hc : 0 < 2 ^ 52) by (apply Z.pow_pos_nonneg; lia).
      destruct (Z_le_gt_dec ex (-1074)) as [Lx|Gx].
      - specialize (Hny ltac:(lia)). nia.
      - specialize (Hnx ltac:(lia)). nia. }
    assert (53 <= Zdigits2 (Z.pos (mx * my))) by (apply Zdigits2_ge; [exact H52 | lia]).
    unfold fexp64. lia. }
  pose proof (binary_round_aux_finite_bound (xorb sx sy) (Z.pos (mx * my)) 1 (Z.pos (mx * my))
                (ex + ey) loc_Exact ltac:(lia) ltac:(lia)) as H.
  specialize (H ltac:(rewrite Z.div_1_r; reflexivity)).
  specialize (H ltac:(rewrite Z.mod_1_r; reflexivity)).
  specialize (H Hprecise F).
  set (e1 := fexp64 (Zdigits2 (Z.pos (mx * my)) + (ex + ey))) in *.
  assert (He1 : -1074 <= e1) by (unfold e1, fexp64; lia).
  clearbody e1.
  assert (Hk : 0 < 2 ^ (e1 - (ex + ey))) by (apply Z.pow_pos_nonneg; lia).
  assert (E : 2 ^ (e1 + 1074) * 2 ^ 1074
              = 2 ^ (ex + 1074) * 2 ^ (ey + 1074) * 2 ^ (e1 - (ex + ey))).
  { rewrite <- !Z.pow_add_r by lia. f_equal. lia. }
  assert (Hc : 0 < 2 ^ (ex + 1074)) by (apply Z.pow_pos_nonneg; lia).
  assert (Hd : 0 < 2 ^ (ey + 1074)) by (apply Z.pow_pos_nonneg; lia).
  rewrite Pos2Z.inj_mul in H. revert H E Hk Hc Hd HT H1074.
  generalize (2 ^ (e1 + 1074)) (2 ^ 1074) (2 ^ (ex + 1074)) (2 ^ (ey + 1074))
             (2 ^ (e1 - (ex + ey))) (2 ^ 2098 - 2 ^ 2044).
  intros a b c d f T H E Hk Hc Hd HT H1074.
  assert (Habs : Z.abs (cond_Zopp sx (Z.pos mx * c) * cond_Zopp sy (Z.pos my * d))
                 = Z.pos mx * c * (Z.pos my * d)).
  { destruct sx, sy; cbn [cond_Zopp]; nia. }
  rewrite Habs.
  assert (E' : Z.pos mx * c * (Z.pos my * d) * f = Z.pos mx * Z.pos my * a * b).
  { transitivity (Z.pos mx * Z.pos my * (c * d * f)); [ring|]. rewrite <- E. ring. }
  assert (H' : Z.pos mx * Z.pos my * a * b <= T * b * f).
  { replace (T * b * f) with (T * (1 * f) * b) by ring.
    apply Z.mul_le_mono_nonneg_r; lia. }
  apply (Z.mul_le_mono_pos_r _ _ f Hk). lia.
Qed.

Lemma rounds_to_infinity_bound (Xn Xd : Z) :
  0 < Xd ->
  (rounds_to Xn Xd (S754_infinity false) -> (2 ^ 2098 - 2 ^ 2044) * Xd <= Xn) /\
  (rounds_to Xn Xd (S754_infinity true) -> Xn <= - ((2 ^ 2098 - 2 ^ 2044) * Xd)).
Proof.
  intros HXd.
  destruct max_float_val as (A & VA & FA & EA).
  assert (EA' : SFval A = 2 ^ 2098 - 2 * 2 ^ 2044) by (rewrite EA; reflexivity).
  destruct (SFopp_valid_finite A VA FA) as (VA' & FA' & EO).
  assert (H44 : 0 < 2 ^ 2044) by (apply Z.pow_pos_nonneg; lia).
  assert (Hc : 0 < 2 ^ 2044 * Xd) by (apply Z.mul_pos_pos; lia).
  split; intros (_ & v & Hn & Hv).
  - destruct Hv as [[F _]|[[_ Hv]|[E _]]]; [discriminate F | | discriminate E].
    specialize (Hn A VA FA). rewrite EA' in Hn.
    assert (Hb : 2 ^ 2098 * Xd <= v * Xd) by (apply Z.mul_le_mono_nonneg_r; lia).
    rewrite !Z.mul_sub_distr_r in *. rewrite <- Z.mul_assoc in Hn.
    revert Hn Hb Hc. generalize (v * Xd) (2 ^ 2098 * Xd) (2 ^ 2044 * Xd). intros; lia.
  - destruct Hv as [[F _]|[[E _]|[_ Hv]]]; [discriminate F | discriminate E |].
    specialize (Hn (SFopp A) VA' FA'). rewrite EO, EA' in Hn.
    assert (Hb : v * Xd <= - 2 ^ 2098 * Xd) by (apply Z.mul_le_mono_nonneg_r; lia).
    rewrite Z.mul_opp_l in Hn, Hb. rewrite !Z.mul_sub_distr_r in *. rewrite <- Z.mul_assoc in Hn.
    revert Hn Hb Hc. generalize (v * Xd) (2 ^ 2098 * Xd) (2 ^ 2044 * Xd). intros; lia.
Qed.

(** ** Every number is finite or an infinity *)

Lemma number_cases (x : float) :
  is_nan x = false ->
  finite x \/ Prim2SF x = S754_infinity false \/ Prim2SF x = S754_infinity true.
Proof.
  intros Hn. apply not_nan_spec in Hn. unfold finite.
  destruct (Prim2SF x) as [b|b| |b m e]; try (left; reflexivity); [|congruence].
  destruct b; auto.
Qed.

Lemma fval_neg_infinity (x : float) : Prim2SF x = S754_infinity true -> fval x = - top.
Proof. unfold fval. intros ->. reflexivity. Qed.

Lemma finite_val_small (x : float) : finite x -> - 2 ^ 2098 < fval x < 2 ^ 2098.
Proof. intros F. apply SFfinite_val_lt; [apply Prim2SF_valid | exact F]. Qed.

Lemma top_beyond : 2 ^ 2098 < top.
Proof. reflexivity. Qed.

Lemma finite_ge_min (x : float) : finite x -> - (2 ^ 2098 - 2 ^ 2045) <= fval x.
Proof.
  intros F. destruct (finite_opp x F) as [Fo Eo].
  pose proof (finite_le_max (- x) Fo). lia.
Qed.

Lemma add_neg_infinity (p y : float) :
  finite p -> Prim2SF y = S754_infinity true -> Prim2SF (p + y) = S754_infinity true.
Proof.
  unfold finite. intros F E. rewrite add_spec, E.
  destruct (Prim2SF p); try discriminate F; reflexivity.
Qed.

Lemma mul_by_infinity (L s : float) :
  Prim2SF s = S754_infinity false -> is_nan L = false ->
  (0 < fval L -> Prim2SF (L * s) = S754_infinity false) /\
  (fval L < 0 -> Prim2SF (L * s) = S754_infinity true) /\
  (fval L = 0 -> is_nan (L * s) = true).
Proof.
  intros E Hn. apply not_nan_spec in Hn. unfold fval.
  rewrite is_nan_spec, mul_spec, E. pose proof (Prim2SF_valid L) as V. pose proof top_pos as Ht.
  destruct (Prim2SF L) as [b|b| |b m e]; cbn [SFval].
  - split; [|split]; intros Hv; try lia; reflexivity.
  - destruct b; cbn [cond_Zopp]; (split; [|split]); intros Hv; try lia; reflexivity.
  - congruence.
  - pose proof (finite_val_bounds _ _ _ V).
    destruct b; cbn [cond_Zopp]; (split; [|split]); intros Hv; try lia; reflexivity.
Qed.

(** ** The product grows with its first factor *)

Lemma mul_cases (x y : float) :
  finite x -> finite y ->
  (finite (x * y) /\ Z.abs (fval x * fval y) <= (2 ^ 2098 - 2 ^ 2044) * 2 ^ 1074) \/
  (Prim2SF (x * y) = S754_infinity false /\ (2 ^ 2098 - 2 ^ 2044) * 2 ^ 1074 <= fval x * fval y) \/
  (Prim2SF (x * y) = S754_infinity true /\ fval x * fval y <= - ((2 ^ 2098 - 2 ^ 2044) * 2 ^ 1074)).
Proof.
  intros Fx Fy.
  assert (H1074 : 0 < 2 ^ 1074) by (apply Z.pow_pos_nonneg; lia).
  pose proof (mul_rounds x y Fx Fy) as R.
  destruct (rounds_to_infinity_bound (fval x * fval y) (2 ^ 1074) H1074) as [Hp Hm].
  assert (Hn : is_nan (x * y) = false) by (apply not_nan_spec; exact (rounds_to_not_nan _ _ _ R)).
  destruct (number_cases _ Hn) as [F|[E|E]].
  - left. split; [exact F|].
    unfold finite in F. rewrite mul_spec in F.
    apply SFmul_finite_bound; try apply Prim2SF_valid; assumption.
  - right. left. split; [exact E|]. apply Hp. rewrite <- E. exact R.
  - right. right. split; [exact E|]. apply Hm. rewrite <- E. exact R.
Qed.

Lemma mul_zero_exact (x y : float) :
  finite x -> finite y -> fval x * fval y = 0 -> finite (x * y) /\ fval (x * y) = 0.
Proof.
  intros Fx Fy E.
  destruct (mul_between x y 0 0 Fx Fy finite_zero finite_zero) as [F H].
  { rewrite fval_zero. lia. }
  rewrite fval_zero in H. split; [exact F | lia].
Qed.

Lemma mul_mono (a b s : float) :
  finite a -> finite b -> finite s -> 0 <= fval s -> fval a <= fval b ->
  is_nan (a * s) = false /\ is_nan (b * s) = false /\ fval (a * s) <= fval (b * s).
Proof.
  intros Fa Fb Fs Hs Hab.
  assert (H1074 : 0 < 2 ^ 1074) by (apply Z.pow_pos_nonneg; lia).
  pose proof overflow_threshold_pos as HT.
  assert (HTU : 0 < (2 ^ 2098 - 2 ^ 2044) * 2 ^ 1074) by (apply Z.mul_pos_pos; lia).
  pose proof (mul_rounds a s Fa Fs) as Ra.
  pose proof (mul_rounds b s Fb Fs) as Rb.
  assert (Na : is_nan (a * s) = false) by (apply not_nan_spec; exact (rounds_to_not_nan _ _ _ Ra)).
  assert (Nb : is_nan (b * s) = false) by (apply not_nan_spec; exact (rounds_to_not_nan _ _ _ Rb)).
  split; [exact Na|]. split; [exact Nb|].
  assert (HAB : fval a * fval s <= fval b * fval s) by (apply Z.mul_le_mono_nonneg_r; lia).
  (* equal exact products give equal values *)
  assert (Hsame : fval a * fval s = fval b * fval s ->
                  (a * s = b * s)%float \/ (fval (a * s) = 0 /\ fval (b * s) = 0)).
  { intros E. destruct (Z.eq_dec (fval a * fval s) 0) as [Z0|Z0].
    - right. split; [apply mul_zero_exact | apply mul_zero_exact]; try assumption; lia.
    - left.
      assert (Hs0 : fval s <> 0) by (intros H0; rewrite H0, Z.mul_0_r in Z0; congruence).
      assert (Ha0 : fval a <> 0) by (intros H0; rewrite H0, Z.mul_0_l in Z0; congruence).
      assert (Hab' : fval a = fval b) by (apply (Z.mul_reg_r _ _ (fval s)); assumption).
      rewrite (fval_inj a b Fa Fb Hab' Ha0). reflexivity. }
  pose proof top_pos as Htop. pose proof top_beyond as Htb.
  destruct (mul_cases a s Fa Fs) as [[F1 B1]|[[E1 B1]|[E1 B1]]];
  destruct (mul_cases b s Fb Fs) as [[F2 B2]|[[E2 B2]|[E2 B2]]].
  - (* both finite *)
    pose proof (rounds_finite_val _ _ _ Ra F1) as N1.
    pose proof (rounds_finite_val _ _ _ Rb F2) as N2.
    destruct (Z_le_gt_dec (fval (a * s)) (fval (b * s))) as [Hle|Hgt]; [exact Hle|].
    exfalso.
    pose proof (N1 (Prim2SF (b * s)) (Prim2SF_valid _) F2) as C1.
    pose proof (N2 (Prim2SF (a * s)) (Prim2SF_valid _) F1) as C2.
    fold (fval (b * s)) in C1. fold (fval (a * s)) in C2.
    assert (Hlt : fval (b * s) * 2 ^ 1074 < fval (a * s) * 2 ^ 1074)
      by (apply Z.mul_lt_mono_pos_r; lia).
    assert (E : fval a * fval s = fval b * fval s).
    { revert C1 C2 Hlt HAB.
      generalize (fval (a * s) * 2 ^ 1074) (fval (b * s) * 2 ^ 1074)
                 (fval a * fval s) (fval b * fval s).
      intros; lia. }
    destruct (Hsame E) as [Eq|[Z1 Z2]]; [rewrite Eq in Hgt; lia | lia].
  - rewrite (fval_infinity _ E2). apply fval_le_top.
  - exfalso.
    assert (E : fval a * fval s = fval b * fval s) by lia.
    destruct (Hsame E) as [Eq|[Z1 Z2]].
    + rewrite Eq in F1. unfold finite in F1. rewrite E2 in F1. discriminate F1.
    + rewrite (fval_neg_infinity _ E2) in Z2. lia.
  - exfalso.
    assert (E : fval a * fval s = fval b * fval s) by lia.
    destruct (Hsame E) as [Eq|[Z1 Z2]].
    + rewrite <- Eq in F2. unfold finite in F2. rewrite E1 in F2. discriminate F2.
    + rewrite (fval_infinity _ E1) in Z1. lia.
  - rewrite (fval_infinity _ E2). apply fval_le_top.
  - exfalso. lia.
  - rewrite (fval_neg_infinity _ E1). pose proof (fval_le_top (b * s)). lia.
  - rewrite (fval_neg_infinity _ E1). pose proof (fval_le_top (b * s)). lia.
  - rewrite (fval_neg_infinity _ E1). pose proof (fval_le_top (b * s)). lia.
Qed.

(** ** The sum with an error rate grows with its second term *)

Lemma add_unit_finite (p t : float) :
  finite p -> 0 <= fval p <= 2 ^ 1074 -> finite t -> finite (p + t).
Proof.
  intros Fp Hp Ft.
  assert (P2098 : 0 < 2 ^ 2098) by (apply Z.pow_pos_nonneg; lia).
  assert (Hgap : 2 * 2 ^ 1074 < 2 ^ 2045) by reflexivity.
  pose proof (finite_le_max t Ft) as Hmax.
  pose proof (finite_ge_min t Ft) as Hmin.
  pose proof (add_rounds p t Fp Ft) as R.
  destruct max_float_val as (A & VA & FA & EA).
  assert (EA' : SFval A = 2 ^ 2098 - 2 ^ 2045) by (rewrite EA; reflexivity).
  destruct (SFopp_valid_finite A VA FA) as (VA' & FA' & EO).
  assert (Hn : is_nan (p + t) = false) by (apply not_nan_spec; exact (rounds_to_not_nan _ _ _ R)).
  destruct (number_cases _ Hn) as [F|[E|E]]; [exact F | exfalso | exfalso];
    destruct R as (_ & v & Hv & Hc); rewrite E in Hc.
  - destruct Hc as [[F _]|[[_ Hc]|[Hc _]]]; [discriminate F | | discriminate Hc].
    specialize (Hv A VA FA). rewrite EA' in Hv.
    revert Hv Hc Hgap Hmax Hp P2098.
    generalize (2 ^ 1074) (2 ^ 2045) (2 ^ 2098) (fval p) (fval t). intros; lia.
  - destruct Hc as [[F _]|[[Hc _]|[_ Hc]]]; [discriminate F | discriminate Hc |].
    specialize (Hv (SFopp A) VA' FA'). rewrite EO, EA' in Hv.
    revert Hv Hc Hgap Hmin Hp P2098.
    generalize (2 ^ 1074) (2 ^ 2045) (2 ^ 2098) (fval p) (fval t). intros; lia.
Qed.

Lemma add_mono_gen (p s t : float) :
  finite p -> 0 <= fval p <= 2 ^ 1074 ->
  finite s -> finite t -> fval s <= fval t ->
  finite (p + s) /\ finite (p + t) /\ fval (p + s) <= fval (p + t).
Proof.
  intros Fp Hp Fs Ft Hst.
  pose proof (add_unit_finite p s Fp Hp Fs) as F2.
  pose proof (add_unit_finite p t Fp Hp Ft) as F1.
  split; [exact F2|]. split; [exact F1|].
  pose proof (rounds_finite_val _ _ _ (add_rounds p s Fp Fs) F2) as Hn2.
  pose proof (rounds_finite_val _ _ _ (add_rounds p t Fp Ft) F1) as Hn1.
  destruct (Z_le_gt_dec (fval (p + s)) (fval (p + t))) as [Hle|Hgt]; [exact Hle|].
  exfalso.
  pose proof (Hn1 (Prim2SF (p + s)) (Prim2SF_valid _) F2) as C1.
  pose proof (Hn2 (Prim2SF (p + t)) (Prim2SF_valid _) F1) as C2.
  fold (fval (p + s)) in C1. fold (fval (p + t)) in C2.
  assert (Est : fval s = fval t) by lia.
  destruct (Z.eq_dec (fval s) 0) as [Hz|Hz].
  - destruct (add_zero_val p s Fp Fs Hz) as [_ E1].
    destruct (add_zero_val p t Fp Ft ltac:(lia)) as [_ E2]. lia.
  - rewrite (fval_inj s t Fs Ft Est Hz) in Hgt. lia.
Qed.

(** ** The threshold grows with the level *)

Lemma add_number (p t : float) : is_nan (p + t) = false -> is_nan t = false.
Proof.
  intros H. destruct (is_nan t) eqn:E; [|reflexivity].
  rewrite add_nan in H by (right; exact E). discriminate H.
Qed.

Lemma threshold_mono (p s a b y : float) :
  finite p -> 0 <= fval p <= 2 ^ 1074 ->
  is_nan s = false -> 0 <= fval s ->
  (a <=? b)%float = true ->
  (neg_infinity <? a)%float = true ->
  (p + b * s <? y)%float = true ->
  (p + a * s <? y)%float = true.
Proof.
  intros Fp Hp Ns Hs Hab Ha Hy.
  pose proof top_pos as Htop. pose proof top_beyond as Htb.
  apply leb_true_iff in Hab. destruct Hab as (Na & Nb & Hab).
  apply ltb_true_iff in Ha. destruct Ha as (_ & _ & Ha).
  change (fval neg_infinity) with (- top) in Ha.
  apply ltb_true_iff in Hy. destruct Hy as (Ntb & Ny & Hy).
  pose proof (add_number _ _ Ntb) as Nbs.
  pose proof (fval_le_top y) as Hytop.
  assert (Hgoal : forall ta : float,
             (Prim2SF ta = S754_infinity true \/
              (finite ta /\ exists tb, finite tb /\ (p + b * s = p + tb)%float /\ fval ta <= fval tb)) ->
             (p + ta <? y)%float = true).
  { intros ta [E|(Fta & tb & Ftb & Eb & Hle)].
    - pose proof (add_neg_infinity p ta Fp E) as E'.
      apply ltb_true_iff. split; [apply not_nan_spec; rewrite E'; discriminate|].
      split; [exact Ny|]. rewrite (fval_neg_infinity _ E').
      pose proof (fval_le_top (p + b * s)). lia.
    - destruct (add_mono_gen p ta tb Fp Hp Fta Ftb Hle) as (F1 & _ & Hm).
      apply ltb_true_iff. split; [apply finite_not_nan; exact F1|].
      split; [exact Ny|]. rewrite Eb in Hy. lia. }
  assert (Hinf : Prim2SF (b * s) = S754_infinity false -> False).
  { intros E. pose proof (add_infinity p _ Fp E) as E'.
    rewrite (fval_infinity _ E') in Hy. lia. }
  assert (Fa' : finite a \/ Prim2SF a = S754_infinity false).
  { destruct (number_cases a Na) as [F|[E|E]]; auto.
    rewrite (fval_neg_infinity _ E) in Ha. lia. }
  assert (Fb' : finite b \/ Prim2SF b = S754_infinity false).
  { destruct (number_cases b Nb) as [F|[E|E]]; auto.
    rewrite (fval_neg_infinity _ E) in Hab. lia. }
  destruct (nonneg_cases s Ns Hs) as [Fs|Es].
  - (* a finite deviation *)
    destruct Fb' as [Fb|Eb].
    + destruct Fa' as [Fa|Ea].
      * destruct (mul_mono a b s Fa Fb Fs Hs Hab) as (Nas & _ & Hm).
        destruct (number_cases _ Nbs) as [Ftb|[Etb|Etb]].
        -- destruct (number_cases _ Nas) as [Fta|[Eta|Eta]].
           ++ apply Hgoal. right. split; [exact Fta|]. exists (b * s)%float. auto.
           ++ exfalso. rewrite (fval_infinity _ Eta) in Hm.
              pose proof (finite_val_small _ Ftb). lia.
           ++ apply Hgoal. left. exact Eta.
        -- exfalso. exact (Hinf Etb).
        -- apply Hgoal. left.
           destruct (number_cases _ Nas) as [Fta|[Eta|Eta]]; [exfalso | exfalso | exact Eta].
           ++ rewrite (fval_neg_infinity _ Etb) in Hm. pose proof (finite_val_small _ Fta). lia.
           ++ rewrite (fval_neg_infinity _ Etb), (fval_infinity _ Eta) in Hm. lia.
      * exfalso. rewrite (fval_infinity _ Ea) in Hab. pose proof (finite_val_small _ Fb). lia.
    + exfalso. destruct (mul_infinity_l b s Eb Fs Hs) as [Hn|E]; [congruence | exact (Hinf E)].
  - (* an infinite deviation *)
    destruct (mul_by_infinity b s Es Nb) as (Bp & Bm & Bz).
    destruct (mul_by_infinity a s Es Na) as (Ap & Am & Az).
    destruct (Z.lt_trichotomy (fval b) 0) as [Hb|[Hb|Hb]].
    + apply Hgoal. left. apply Am. lia.
    + rewrite (Bz Hb) in Nbs. discriminate Nbs.
    + exfalso. exact (Hinf (Bp Hb)).
Qed.

(** * Properties of the detector *)

Section OneCall.

Context {parent : DriftDetector}.

(** ** The structure of one call *)

Lemma bind_Ok {A B : Type} (c : res A) (k : A -> res B) (b : B) :
  (x <- c ;; k x) = Ok b -> exists a, c = Ok a /\ k a = Ok b.
Proof. destruct c as [a|e]; cbn; [eauto | discriminate]. Qed.

Lemma add_element_conclude (d : DDM) (x : float) :
  add_element d x = (u <- update_statistics (lazy_reset d) x ;; Ok (conclude u)).
Proof.
  unfold add_element, conclude. destruct (update_statistics (lazy_reset d) x) as [u|e]; cbn [bind]; [|reflexivity].
  destruct (sample_count (clear_flags u) <? min_instances (clear_flags u)); reflexivity.
Qed.

Lemma add_element_Ok (d : DDM) (x : float) (d' : DDM) (o : bool * bool) :
  add_element d x = Ok (d', o) ->
  exists u, update_statistics (lazy_reset d) x = Ok u /\ conclude u = (d', o).
Proof.
  rewrite add_element_conclude. intros H. apply bind_Ok in H.
  destruct H as (u & Hu & H). exists u. split; [assumption | congruence].
Qed.

Lemma update_statistics_Ok (s : DDM) (x : float) (u : DDM) :
  update_statistics s x = Ok u ->
  exists n,
    Py.float_of_int (sample_count s) = Ok n /\
    (n =? 0)%float = false /\
    u = {| base := base s;
           sample_count := sample_count s + 1;
           miss_prob := (miss_prob s + (x - miss_prob s) / n)%float;
           miss_std := sqrt (((miss_prob s + (x - miss_prob s) / n)
                              * (1 - (miss_prob s + (x - miss_prob s) / n))) / n)%float;
           miss_prob_sd_min := miss_prob_sd_min s;
           miss_prob_min := miss_prob_min s;
           miss_sd_min := miss_sd_min s;
           min_instances := min_instances s;
           warning_level := warning_level s;
           out_control_level := out_control_level s |}.
Proof.
  unfold update_statistics. intros H.
  apply bind_Ok in H. destruct H as (n & Hn & H).
  apply bind_Ok in H. destruct H as (q & Hq & H).
  rewrite Hn in H. cbn [bind] in H.
  apply bind_Ok in H. destruct H as (v & Hv & H).
  unfold Py.truediv in Hq, Hv.
  destruct (n =? 0)%float eqn:Hz; [discriminate|].
  exists n. split; [exact Hn|]. split; [exact Hz|].
  congruence.
Qed.

Lemma update_statistics_same (a b : DDM) (x : float) :
  same_statistics a b ->
  match update_statistics a x, update_statistics b x with
  | Ok u, Ok v => same_statistics u v
  | Raise e, Raise e' => e = e'
  | _, _ => False
  end.
Proof.
  intros (H1 & H2 & H3 & H4 & H5 & H6 & H7 & H8 & H9).
  unfold update_statistics. rewrite H1, H2.
  destruct (Py.float_of_int (sample_count b)) as [n|e]; cbn [bind]; [|reflexivity].
  destruct (Py.truediv (x - miss_prob b) n) as [q|e]; cbn [bind]; [|reflexivity].
  destruct (Py.truediv _ n) as [v|e]; cbn [bind]; [|reflexivity].
  unfold same_statistics; cbn. repeat split; congruence.
Qed.

Lemma conclude_same (u v : DDM) : same_statistics u v -> conclude u = conclude v.
Proof.
  intros (H1 & H2 & H3 & H4 & H5 & H6 & H7 & H8 & H9).
  destruct u, v; cbn in *; subst. reflexivity.
Qed.

Lemma add_element_same (a b : DDM) (x : float) :
  same_statistics (lazy_reset a) (lazy_reset b) -> add_element a x = add_element b x.
Proof.
  intros H. rewrite !add_element_conclude.
  pose proof (update_statistics_same _ _ x H) as Hu.
  destruct (update_statistics (lazy_reset a) x), (update_statistics (lazy_reset b) x);
    cbn [bind]; try contradiction.
  - f_equal. apply conclude_same. assumption.
  - congruence.
Qed.

Lemma same_statistics_refl (a : DDM) : same_statistics a a.
Proof. unfold same_statistics. repeat split. Qed.

Lemma same_statistics_sym (a b : DDM) : same_statistics a b -> same_statistics b a.
Proof. unfold same_statistics. intuition congruence. Qed.

Lemma reset_same (a b : DDM) :
  min_instances a = min_instances b ->
  warning_level a = warning_level b ->
  out_control_level a = out_control_level b ->
  same_statistics (reset a) (reset b).
Proof. intros. unfold same_statistics; cbn. repeat split; assumption. Qed.

Lemma lazy_reset_reset_same (a b : DDM) :
  min_instances a = min_instances b ->
  warning_level a = warning_level b ->
  out_control_level a = out_control_level b ->
  same_statistics (lazy_reset (reset a)) (reset b).
Proof.
  intros. unfold lazy_reset. destruct (in_concept_change (reset a)).
  - apply reset_same; assumption.
  - apply reset_same; assumption.
Qed.

Lemma conclude_flags (u : DDM) : snd (conclude u) = flags (fst (conclude u)).
Proof.
  unfold conclude. destruct (sample_count (clear_flags u) <? min_instances (clear_flags u)); reflexivity.
Qed.

End OneCall.

(** ** Configuration and flags *)

Section Flags.

Context {parent : DriftDetector}.

Lemma conclude_config (u : DDM) : config (fst (conclude u)) = config u.
Proof.
  unfold conclude, classify, track_minimum.
  repeat match goal with |- context [if ?b then _ else _] => destruct b end; reflexivity.
Qed.

Lemma lazy_reset_config (d : DDM) : config (lazy_reset d) = config d.
Proof. unfold lazy_reset. destruct (in_concept_change d); reflexivity. Qed.

Lemma update_statistics_config (s : DDM) (x : float) (u : DDM) :
  update_statistics s x = Ok u -> config u = config s.
Proof.
  intros H. apply update_statistics_Ok in H. destruct H as (n & _ & _ & ->). reflexivity.
Qed.

(** C10: the configuration is what the constructor was given, and
    [reset] and every call of [add_element] leave it unchanged. *)
Theorem config_frame (d : DDM) :
  (forall (mi : Z) (wl ocl : float), config (DDM_init mi wl ocl) = (mi, wl, ocl)) /\
  config (reset d) = config d /\
  forall (x : float) (d' : DDM) (o : bool * bool),
    add_element d x = Ok (d', o) -> config d' = config d.
Proof.
  split; [reflexivity|]. split; [reflexivity|].
  intros x d' o H. apply add_element_Ok in H. destruct H as (u & Hu & Hc).
  apply update_statistics_config in Hu.
  pose proof (conclude_config u) as H. rewrite Hc in H. cbn [fst] in H.
  rewrite H, Hu. apply lazy_reset_config.
Qed.

Lemma conclude_exclusive (u : DDM) : snd (conclude u) <> (true, true).
Proof.
  unfold conclude, classify, flags.
  repeat match goal with |- context [if ?b then _ else _] => destruct b end;
    cbn; unfold track_minimum;
    repeat match goal with |- context [if ?b then _ else _] => destruct b end;
    cbn; discriminate.
Qed.

(** C5: the pair returned by [add_element] never has both flags set. *)
Theorem flags_exclusive (d : DDM) (x : float) (d' : DDM) (o : bool * bool) :
  add_element d x = Ok (d', o) -> o <> (true, true).
Proof.
  intros H. apply add_element_Ok in H. destruct H as (u & _ & Hc).
  pose proof (conclude_exclusive u) as H. rewrite Hc in H. exact H.
Qed.

(** What one call returns, from the detector it leaves. *)
Lemma conclude_cases (u : DDM) (d' : DDM) (o : bool * bool) :
  conclude u = (d', o) ->
  same_statistics d' (if gated d' then track_minimum (clear_flags u) else clear_flags u) /\
  gated d' = negb (sample_count u <? min_instances u) /\
  o = flags d' /\
  o = if gated d' then
        if (out_control_threshold d' <? sum_of d')%float then (true, false)
        else if (warning_threshold d' <? sum_of d')%float then (false, true)
        else (false, false)
      else (false, false).
Proof.
  unfold conclude. cbn [sample_count min_instances clear_flags].
  destruct (sample_count u <? min_instances u) eqn:G; intros H; injection H as <- <-.
  - assert (Hg : gated (clear_flags u) = false).
    { unfold gated. cbn. apply Z.ltb_lt in G. apply Z.leb_gt. exact G. }
    rewrite Hg. repeat split; reflexivity.
  - set (t := track_minimum (clear_flags u)).
    assert (Hs : same_statistics (classify t) t).
    { unfold classify.
      repeat match goal with |- context [if ?b then _ else _] => destruct b end;
        unfold same_statistics; cbn; repeat split. }
    assert (Hcnt : sample_count t = sample_count u /\ min_instances t = min_instances u).
    { unfold t, track_minimum. destruct (_ <=? _)%float; cbn; split; reflexivity. }
    assert (Hfl : flags t = (false, false)).
    { unfold t, track_minimum. destruct (_ <=? _)%float; reflexivity. }
    assert (Hg : gated (classify t) = true).
    { unfold gated. destruct Hs as (-> & _ & _ & _ & _ & _ & -> & _).
      destruct Hcnt as [-> ->]. apply Z.ltb_ge in G. apply Z.leb_le. exact G. }
    rewrite Hg. split; [exact Hs|]. split; [reflexivity|]. split; [reflexivity|].
    unfold out_control_threshold, warning_threshold, sum_of.
    destruct Hs as (_ & -> & -> & _ & -> & -> & _ & -> & ->).
    unfold classify, flags, in_concept_change, in_warning_zone in *.
    injection Hfl as Hf1 Hf2.
    repeat match goal with |- context [if ?b then _ else _] => destruct b end;
      cbn; rewrite ?Hf1, ?Hf2; reflexivity.
Qed.

(** At equality with the warning threshold there is no warning. *)
Lemma no_warning_at_threshold (d : DDM) (x : float) (d' : DDM) (o : bool * bool) :
  add_element d x = Ok (d', o) ->
  (sum_of d' =? warning_threshold d')%float = true \/ sum_of d' = warning_threshold d' ->
  snd o = false.
Proof.
  intros H E. apply add_element_Ok in H. destruct H as (u & _ & Hc).
  apply conclude_cases in Hc. destruct Hc as (_ & _ & _ & ->).
  assert (Hlt : (warning_threshold d' <? sum_of d')%float = false).
  { destruct E as [E|E]; [apply eqb_not_gtb; exact E | rewrite E; apply ltb_irrefl]. }
  rewrite Hlt. destruct (gated d'); [|reflexivity].
  destruct (out_control_threshold d' <? sum_of d')%float; reflexivity.
Qed.

Lemma warning_above_threshold (d : DDM) (x : float) (d' : DDM) (o : bool * bool) :
  add_element d x = Ok (d', o) ->
  gated d' = true ->
  (warning_threshold d' <? sum_of d')%float = true ->
  (out_control_threshold d' <? sum_of d')%float = false ->
  o = (false, true).
Proof.
  intros H G W O. apply add_element_Ok in H. destruct H as (u & _ & Hc).
  apply conclude_cases in Hc. destruct Hc as (_ & _ & _ & ->).
  rewrite G, W, O. reflexivity.
Qed.

Lemma add_elements_same (a b : DDM) (xs : list float) :
  same_statistics (lazy_reset a) (lazy_reset b) -> add_elements a xs = add_elements b xs.
Proof.
  intros H. destruct xs as [|x xs]; [reflexivity|].
  cbn [add_elements]. rewrite (add_element_same a b x H). reflexivity.
Qed.

Lemma add_elements_reset_blank (d : DDM) (xs : list float) :
  add_elements (reset d) xs
  = add_elements (blank (min_instances d) (warning_level d) (out_control_level d)) xs.
Proof.
  apply add_elements_same.
  unfold lazy_reset at 2. cbn [in_concept_change blank base _in_concept_change].
  unfold lazy_reset. destruct (in_concept_change (reset d));
    unfold same_statistics; cbn; repeat split.
Qed.

Lemma add_elements_init_blank (mi : Z) (wl ocl : float) (xs : list float) :
  add_elements (DDM_init mi wl ocl) xs = add_elements (blank mi wl ocl) xs.
Proof. unfold DDM_init. rewrite add_elements_reset_blank. reflexivity. Qed.

Lemma add_element_init_blank (mi : Z) (wl ocl : float) (x : float) :
  add_element (DDM_init mi wl ocl) x = add_element (blank mi wl ocl) x.
Proof.
  apply add_element_same.
  unfold lazy_reset at 2. cbn [in_concept_change blank base _in_concept_change].
  unfold lazy_reset, DDM_init.
  match goal with |- context [if ?b then _ else _] => destruct b end;
    unfold same_statistics; cbn; repeat split.
Qed.

(** C6: the warning comparison is strict.  A call that leaves
    [error_rate + error_std] equal to the warning threshold returns no
    warning; a call that leaves it above the warning threshold and not
    above the out-control threshold returns a warning, and there is such a
    call. *)
Theorem warning_comparison_strict :
  (forall (d : DDM) (x : float) (d' : DDM) (o : bool * bool),
      add_element d x = Ok (d', o) ->
      (sum_of d' =? warning_threshold d')%float = true \/ sum_of d' = warning_threshold d' ->
      snd o = false) /\
  (forall (d : DDM) (x : float) (d' : DDM) (o : bool * bool),
      add_element d x = Ok (d', o) ->
      gated d' = true ->
      (warning_threshold d' <? sum_of d')%float = true ->
      (out_control_threshold d' <? sum_of d')%float = false ->
      o = (false, true)) /\
  (exists (tr : list (DDM * (bool * bool))) (d d' : DDM) (x : float),
      add_elements (DDM_init 3 2 3) [1; 0; 0; 0; 0; 1]%float = Ok tr /\
      d = final (DDM_init 3 2 3) tr /\
      add_element d x = Ok (d', (false, true)) /\
      (warning_threshold d' <? sum_of d')%float = true /\
      (out_control_threshold d' <? sum_of d')%float = false).
Proof.
  split; [exact no_warning_at_threshold|]. split; [exact warning_above_threshold|].
  rewrite add_elements_init_blank.
  eexists. eexists. eexists. exists 1%float.
  split; [vm_compute; reflexivity|].
  split; [reflexivity|].
  split; [vm_compute; reflexivity|].
  split; vm_compute; reflexivity.
Qed.

End Flags.

(** ** The lazy reset *)

Section Reset.

Context {parent : DriftDetector}.

Lemma add_element_flag (d : DDM) (x : float) (d' : DDM) (o : bool * bool) :
  add_element d x = Ok (d', o) -> o = flags d'.
Proof.
  intros H. apply add_element_Ok in H. destruct H as (u & _ & Hc).
  apply conclude_cases in Hc. tauto.
Qed.

(** C4: a call that returns a drift makes the next call start from the
    reset values: the next call is the call on the detector reset, whose
    count is 1, whose error rate is 1.0, whose deviation is 0.0 and whose
    three minima are infinite. *)
Theorem drift_resets_next_call (d : DDM) (x : float) (d' : DDM) (w : bool) :
  add_element d x = Ok (d', (true, w)) ->
  lazy_reset d' = reset d' /\
  (forall y : float, add_element d' y = add_element (reset d') y) /\
  sample_count (lazy_reset d') = 1 /\
  miss_prob (lazy_reset d') = 1%float /\
  miss_std (lazy_reset d') = 0%float /\
  miss_prob_sd_min (lazy_reset d') = infinity /\
  miss_prob_min (lazy_reset d') = infinity /\
  miss_sd_min (lazy_reset d') = infinity.
Proof.
  intros H. apply add_element_flag in H. unfold flags in H.
  injection H as Hc _.
  assert (Hl : lazy_reset d' = reset d') by (unfold lazy_reset; rewrite <- Hc; reflexivity).
  split; [exact Hl|]. split.
  - intros y. apply add_element_same. rewrite Hl.
    apply same_statistics_sym, lazy_reset_reset_same; reflexivity.
  - rewrite Hl. repeat split.
Qed.

(** C8: [reset] is idempotent, and a detector that was just reset goes
    through every stream as a freshly constructed detector of the same
    configuration does.  Two resets leave the statistics and the
    configuration one reset leaves, and the very same detector when the
    reset of the base class is idempotent; the calls that follow return
    the same pairs and leave the same detectors after one reset, after two
    and after construction. *)
Theorem reset_idempotent_fresh (d : DDM) :
  same_statistics (reset (reset d)) (reset d) /\
  ((forall b : Base, super_reset (super_reset b) = super_reset b) ->
   reset (reset d) = reset d) /\
  forall xs : list float,
    add_elements (reset (reset d)) xs = add_elements (reset d) xs /\
    add_elements (reset d) xs
    = add_elements (DDM_init (min_instances d) (warning_level d) (out_control_level d)) xs.
Proof.
  split; [apply reset_same; reflexivity|]. split.
  - intros Hidem. unfold reset. cbn. rewrite Hidem. reflexivity.
  - intros xs. split.
    + rewrite !add_elements_reset_blank. reflexivity.
    + rewrite add_elements_init_blank. apply add_elements_reset_blank.
Qed.

End Reset.

(** ** The running minimum *)

Lemma is_running_min_nil : is_running_min infinity [].
Proof. reflexivity. Qed.

Lemma is_running_min_not_nan (m : float) (vals : list float) :
  is_running_min m vals -> is_nan m = false.
Proof.
  unfold is_running_min.
  destruct (filter (fun v => negb (is_nan v)) vals) as [|v vs] eqn:E.
  - intros ->. reflexivity.
  - intros [Hin _]. rewrite <- E in Hin. apply filter_In in Hin.
    destruct Hin as [_ Hn]. apply negb_true_iff in Hn. exact Hn.
Qed.

(** One more number: the minimum moves exactly as lines 140-143 move it. *)
Lemma is_running_min_snoc (m : float) (vals : list float) (v : float) :
  is_running_min m vals ->
  is_running_min (if (v <=? m)%float then v else m) (vals ++ [v]).
Proof.
  intros Hm. pose proof (is_running_min_not_nan _ _ Hm) as Hmn.
  unfold is_running_min in *. rewrite filter_app. cbn [filter].
  destruct (is_nan v) eqn:Hv; cbn [negb].
  - rewrite app_nil_r.
    assert (Hle : (v <=? m)%float = false).
    { destruct (v <=? m)%float eqn:E; [|reflexivity].
      apply leb_true_not_nan in E. destruct E; congruence. }
    rewrite Hle. exact Hm.
  - destruct (filter (fun v => negb (is_nan v)) vals) as [|w ws] eqn:E.
    + subst m. rewrite leb_infinity by exact Hv. cbn [app]. split; [left; reflexivity|].
      intros v' [<-|[]]. apply leb_refl. exact Hv.
    + destruct Hm as [Hin Hall].
      assert (Hne : exists y ys, (w :: ws) ++ [v] = y :: ys) by (cbn; eauto).
      destruct Hne as (y & ys & Hy). rewrite Hy. rewrite <- Hy. clear y ys Hy.
      destruct (v <=? m)%float eqn:Hle.
      * split; [apply in_or_app; right; left; reflexivity|].
        intros v' Hv'. apply in_app_or in Hv'. destruct Hv' as [Hv'|[<-|[]]].
        -- eapply leb_trans; [exact Hle | apply Hall; exact Hv'].
        -- apply leb_refl. exact Hv.
      * split; [apply in_or_app; left; exact Hin|].
        intros v' Hv'. apply in_app_or in Hv'. destruct Hv' as [Hv'|[<-|[]]].
        -- apply Hall. exact Hv'.
        -- apply ltb_leb. apply leb_false_ltb; assumption.
Qed.

Section Minimum.

Context {parent : DriftDetector}.

Lemma track_minimum_minimum (s : DDM) :
  sum_of (track_minimum s) = sum_of s /\
  miss_prob_sd_min (track_minimum s)
  = if (sum_of s <=? miss_prob_sd_min s)%float then sum_of s else miss_prob_sd_min s.
Proof.
  unfold track_minimum, sum_of.
  destruct (miss_prob s + miss_std s <=? miss_prob_sd_min s)%float; split; reflexivity.
Qed.

Lemma same_statistics_sum (a b : DDM) : same_statistics a b -> sum_of a = sum_of b.
Proof. intros (_ & H1 & H2 & _). unfold sum_of. rewrite H1, H2. reflexivity. Qed.

Lemma same_statistics_snapshot (a b : DDM) : same_statistics a b -> snapshot a = snapshot b.
Proof.
  intros (_ & _ & _ & H1 & H2 & H3 & _). unfold snapshot. rewrite H1, H2, H3. reflexivity.
Qed.

(** The minimum after a call, from the detector the call started with. *)
Lemma add_element_minimum (d : DDM) (x : float) (d' : DDM) (o : bool * bool) :
  add_element d x = Ok (d', o) ->
  miss_prob_sd_min d' =
    (if gated d' then
       if (sum_of d' <=? miss_prob_sd_min (lazy_reset d))%float then sum_of d'
       else miss_prob_sd_min (lazy_reset d)
     else miss_prob_sd_min (lazy_reset d)) /\
  (gated d' = false -> snapshot d' = snapshot (lazy_reset d)).
Proof.
  intros H. apply add_element_Ok in H. destruct H as (u & Hu & Hc).
  apply update_statistics_Ok in Hu. destruct Hu as (n & _ & _ & Hu).
  apply conclude_cases in Hc. destruct Hc as (Hs & _ & _ & _).
  assert (Hsnap : snapshot (clear_flags u) = snapshot (lazy_reset d)) by (rewrite Hu; reflexivity).
  pose proof (same_statistics_sum _ _ Hs) as Hsum.
  pose proof (same_statistics_snapshot _ _ Hs) as Hsn.
  destruct (gated d').
  - split; [|discriminate].
    destruct (track_minimum_minimum (clear_flags u)) as [Ht1 Ht2].
    rewrite Hsum, Ht1.
    assert (Hmin : miss_prob_sd_min d' = miss_prob_sd_min (track_minimum (clear_flags u)))
      by (unfold snapshot in Hsn; congruence).
    rewrite Hmin, Ht2.
    assert (Hm0 : miss_prob_sd_min (clear_flags u) = miss_prob_sd_min (lazy_reset d))
      by (unfold snapshot in Hsnap; congruence).
    rewrite Hm0. reflexivity.
  - split; [|intros _; congruence].
    unfold snapshot in Hsn, Hsnap. congruence.
Qed.

Lemma lazy_reset_minimum_not_nan (d : DDM) :
  is_nan (miss_prob_sd_min d) = false -> is_nan (miss_prob_sd_min (lazy_reset d)) = false.
Proof. unfold lazy_reset. destruct (in_concept_change d); [reflexivity | auto]. Qed.

Lemma reachable_minimum_not_nan (P : float -> Prop) (d : DDM) :
  reachable P d -> is_nan (miss_prob_sd_min d) = false.
Proof.
  induction 1 as [mi wl ocl | d _ _ | d x d' o _ IH _ H].
  - reflexivity.
  - reflexivity.
  - apply add_element_minimum in H. destruct H as [-> _].
    apply lazy_reset_minimum_not_nan in IH.
    destruct (gated d'); [|exact IH].
    destruct (sum_of d' <=? miss_prob_sd_min (lazy_reset d))%float eqn:E; [|exact IH].
    apply leb_true_not_nan in E. tauto.
Qed.

Lemma step_running_min (d : DDM) (x : float) (d' : DDM) (o : bool * bool) (vals : list float) :
  is_running_min (miss_prob_sd_min (lazy_reset d)) vals ->
  add_element d x = Ok (d', o) ->
  is_running_min (miss_prob_sd_min d') (vals ++ gated_sums [(d', o)]).
Proof.
  intros Hm H. apply add_element_minimum in H. destruct H as [-> _].
  unfold gated_sums. cbn [map filter fst].
  destruct (gated d'); cbn [map].
  - apply is_running_min_snoc. exact Hm.
  - rewrite app_nil_r. exact Hm.
Qed.

Lemma last_cons {A : Type} (l : list A) :
  forall a d : A, last (a :: l) d = last l a.
Proof.
  induction l as [|b l IH]; intros a d; [reflexivity|].
  change (last (a :: b :: l) d) with (last (b :: l) d).
  rewrite (IH b d), (IH b a). reflexivity.
Qed.

Lemma gated_sums_cons (r : DDM * (bool * bool)) (tr : list (DDM * (bool * bool))) :
  gated_sums (r :: tr) = gated_sums [r] ++ gated_sums tr.
Proof.
  unfold gated_sums. cbn [map filter]. destruct (gated (fst r)); reflexivity.
Qed.

Lemma run_running_min (xs : list float) :
  forall (d : DDM) (tr : list (DDM * (bool * bool))) (vals : list float),
    in_concept_change d = false ->
    is_running_min (miss_prob_sd_min d) vals ->
    add_elements d xs = Ok tr ->
    no_drift (removelast tr) ->
    is_running_min (miss_prob_sd_min (final d tr)) (vals ++ gated_sums tr).
Proof.
  induction xs as [|x xs IH]; intros d tr vals Hf Hm Hrun Hq.
  - injection Hrun as <-. cbn. rewrite app_nil_r. exact Hm.
  - cbn [add_elements] in Hrun.
    apply bind_Ok in Hrun. destruct Hrun as ([d1 o1] & H1 & Hrun).
    apply bind_Ok in Hrun. destruct Hrun as (tr' & Hrest & Hrun).
    injection Hrun as <-. cbn [fst] in Hrest.
    assert (Hm1 : is_running_min (miss_prob_sd_min d1) (vals ++ gated_sums [(d1, o1)])).
    { apply (step_running_min d x); [|exact H1].
      unfold lazy_reset. rewrite Hf. exact Hm. }
    unfold final. cbn [map fst]. rewrite last_cons.
    rewrite gated_sums_cons, app_assoc.
    destruct xs as [|x' xs'].
    + injection Hrest as <-. cbn [map last gated_sums filter]. rewrite app_nil_r. exact Hm1.
    + assert (Hne : tr' <> []).
      { intros ->. cbn [add_elements] in Hrest.
        apply bind_Ok in Hrest. destruct Hrest as (r & _ & Hrest).
        apply bind_Ok in Hrest. destruct Hrest as (rs & _ & Hrest). discriminate. }
      assert (Hq' : fst o1 = false /\ no_drift (removelast tr')).
      { destruct tr' as [|r' tr'']; [congruence|].
        cbn [removelast] in Hq. inversion Hq; subst. split; assumption. }
      destruct Hq' as [Ho1 Hq'].
      apply (IH d1 tr' _); try assumption.
      apply add_element_flag in H1. rewrite H1 in Ho1. exact Ho1.
Qed.

Lemma minimum_below_number (d : DDM) (x : float) (d' : DDM) (o : bool * bool) :
  is_nan (miss_prob_sd_min d) = false ->
  add_element d x = Ok (d', o) ->
  gated d' = true ->
  is_nan (sum_of d') = false ->
  (miss_prob_sd_min d' <=? sum_of d')%float = true.
Proof.
  intros Hr H Hg Hn.
  apply lazy_reset_minimum_not_nan in Hr.
  apply add_element_minimum in H. destruct H as [-> _]. rewrite Hg.
  destruct (sum_of d' <=? miss_prob_sd_min (lazy_reset d))%float eqn:E.
  - apply leb_refl. exact Hn.
  - apply ltb_leb, leb_false_ltb; assumption.
Qed.

Lemma reset_run_running_min (d : DDM) (xs : list float) (tr : list (DDM * (bool * bool))) :
  add_elements (reset d) xs = Ok tr ->
  no_drift (removelast tr) ->
  is_running_min (miss_prob_sd_min (final (reset d) tr)) (gated_sums tr).
Proof.
  intros Hrun Hq.
  rewrite add_elements_reset_blank in Hrun.
  set (b := blank (min_instances d) (warning_level d) (out_control_level d)) in *.
  assert (Hfin : miss_prob_sd_min (final (reset d) tr) = miss_prob_sd_min (final b tr)).
  { unfold final. destruct tr as [|r tr]; [reflexivity|].
    cbn [map]. rewrite !last_cons. reflexivity. }
  rewrite Hfin.
  apply (run_running_min xs b tr []); try assumption; reflexivity.
Qed.

End Minimum.

(** ** The statistics under observations in {0, 1} *)

Section Range.

Context {parent : DriftDetector}.

Lemma reset_in_range (d : DDM) : in_range (reset d).
Proof.
  unfold in_range. cbn [reset sample_count miss_prob miss_std].
  split; [lia|]. split; [exact finite_one|]. rewrite fval_one.
  assert (0 < 2 ^ 1074) by (apply Z.pow_pos_nonneg; lia).
  split; [lia|]. split; [reflexivity|]. rewrite fval_zero. lia.
Qed.

Lemma lazy_reset_in_range (d : DDM) : in_range d -> in_range (lazy_reset d).
Proof.
  unfold lazy_reset. destruct (in_concept_change d); [intros _; apply reset_in_range | auto].
Qed.

Lemma same_statistics_in_range (a b : DDM) : same_statistics a b -> in_range b -> in_range a.
Proof.
  intros (H1 & H2 & H3 & _). unfold in_range. rewrite H1, H2, H3. auto.
Qed.

Lemma update_statistics_in_range (s : DDM) (x : float) (u : DDM) :
  in_range s -> binary x -> update_statistics s x = Ok u -> in_range u.
Proof.
  intros (Hc & Fp & Hp & _) Hx H.
  apply update_statistics_Ok in H. destruct H as (n & Hn & _ & ->).
  destruct (float_of_int_Ok _ _ Hn Hc) as (_ & _ & Fn & Hnv).
  assert (H1074 : 0 < 2 ^ 1074) by (apply Z.pow_pos_nonneg; lia).
  set (p := miss_prob s) in *.
  (* the new error rate *)
  assert (Hp' : finite (p + (x - p) / n) /\ 0 <= fval (p + (x - p) / n) <= 2 ^ 1074).
  { destruct Hx as [-> | ->].
    - destruct (finite_opp p Fp) as [Fo Eo].
      destruct (sub_between 0 p (- p) (- p) finite_zero Fp Fo Fo) as [Ft Ht].
      { rewrite fval_zero, Eo. lia. }
      rewrite Eo in Ht.
      destruct (div_between (0 - p) n (0 - p) 0 Ft Fn ltac:(lia) Ft finite_zero) as [Fq Hq].
      { rewrite fval_zero. split; [|nia].
        assert (Ht' : fval (0 - p) = - fval p) by lia. rewrite Ht'.
        revert Hnv Hp H1074. generalize (fval p) (fval n) (2 ^ 1074). intros a b c; nia. }
      rewrite fval_zero in Hq.
      destruct (add_between p ((0 - p) / n) 0 p Fp Fq finite_zero Fp) as [Fs Hs].
      { rewrite fval_zero. lia. }
      rewrite fval_zero in Hs. split; [exact Fs | lia].
    - destruct (sub_between 1 p 0 1 finite_one Fp finite_zero finite_one) as [Ft Ht].
      { rewrite fval_one, fval_zero. lia. }
      rewrite fval_zero in Ht.
      destruct (div_between (1 - p) n 0 (1 - p) Ft Fn ltac:(lia) finite_zero Ft) as [Fq Hq].
      { rewrite fval_zero. split; [nia|].
        revert Hnv Ht H1074. generalize (fval (1 - p)) (fval n) (2 ^ 1074). intros a b c; nia. }
      rewrite fval_zero in Hq.
      destruct (add_complement_le_one p ((1 - p) / n) Fp Hp Fq Hq) as [Fs Hs].
      split; [exact Fs | lia]. }
  destruct Hp' as [Fp' Hp'].
  set (p' := (p + (x - p) / n)%float) in *. clearbody p'.
  (* the new deviation *)
  destruct (sub_between 1 p' 0 1 finite_one Fp' finite_zero finite_one) as [Fw Hw].
  { rewrite fval_one, fval_zero. lia. }
  rewrite fval_one, fval_zero in Hw.
  destruct (mul_between p' (1 - p') 0 1 Fp' Fw finite_zero finite_one) as [Fm Hm].
  { rewrite fval_one, fval_zero.
    revert Hp' Hw H1074. generalize (fval p') (fval (1 - p')) (2 ^ 1074). intros a b c; nia. }
  rewrite fval_zero in Hm.
  destruct (div_between (p' * (1 - p')) n 0 (p' * (1 - p')) Fm Fn ltac:(lia) finite_zero Fm)
    as [Fv Hv].
  { rewrite fval_zero. split; [nia|].
    revert Hnv Hm H1074. generalize (fval (p' * (1 - p'))) (fval n) (2 ^ 1074). intros a b c; nia. }
  rewrite fval_zero in Hv.
  destruct (sqrt_nonneg _ Fv ltac:(lia)) as [Ns Hs].
  unfold in_range. cbn [sample_count miss_prob miss_std].
  repeat split; try assumption; lia.
Qed.

Lemma add_element_in_range (d : DDM) (x : float) (d' : DDM) (o : bool * bool) :
  in_range d -> binary x -> add_element d x = Ok (d', o) -> in_range d'.
Proof.
  intros Hd Hx H. apply add_element_Ok in H. destruct H as (u & Hu & Hc).
  apply lazy_reset_in_range in Hd.
  pose proof (update_statistics_in_range _ _ _ Hd Hx Hu) as Hr.
  apply conclude_cases in Hc. destruct Hc as (Hs & _).
  apply (same_statistics_in_range _ _ Hs).
  destruct (gated d'); [|exact Hr].
  unfold track_minimum. destruct (_ <=? _)%float; exact Hr.
Qed.

Lemma reachable_in_range (d : DDM) : reachable binary d -> in_range d.
Proof.
  induction 1 as [mi wl ocl | d _ _ | d x d' o _ IH Hx H].
  - apply reset_in_range.
  - apply reset_in_range.
  - exact (add_element_in_range d x d' o IH Hx H).
Qed.

Lemma in_range_sum_not_nan (d : DDM) : in_range d -> is_nan (sum_of d) = false.
Proof.
  intros (_ & Fp & _ & Ns & Hs). apply add_not_nan; assumption.
Qed.

(** A call on a detector whose count is in the range of floats returns. *)
Lemma update_statistics_total (s : DDM) (x : float) :
  1 <= sample_count s < Py.int_max -> exists u, update_statistics s x = Ok u.
Proof.
  intros Hc. destruct (float_of_int_total _ Hc) as [Hn Hz].
  unfold update_statistics. rewrite Hn. cbn [bind].
  unfold Py.truediv. rewrite Hz. cbn [bind]. eauto.
Qed.

Lemma add_element_total (d : DDM) (x : float) :
  1 <= sample_count (lazy_reset d) < Py.int_max ->
  exists (d' : DDM) (o : bool * bool), add_element d x = Ok (d', o).
Proof.
  intros Hc. destruct (update_statistics_total _ x Hc) as [u Hu].
  rewrite add_element_conclude, Hu. cbn [bind].
  destruct (conclude u) as [d' o]. eauto.
Qed.

End Range.

(** ** The claims on the statistics *)

Section Statistics.

Context {parent : DriftDetector}.

Lemma run_in_range (xs : list float) :
  forall (d : DDM) (tr : list (DDM * (bool * bool))),
    in_range d -> Forall binary xs -> add_elements d xs = Ok tr ->
    Forall (fun r => in_range (fst r)) tr.
Proof.
  induction xs as [|x xs IH]; intros d tr Hd Hxs Hrun.
  - injection Hrun as <-. constructor.
  - cbn [add_elements] in Hrun.
    apply bind_Ok in Hrun. destruct Hrun as ([d1 o1] & H1 & Hrun).
    apply bind_Ok in Hrun. destruct Hrun as (tr' & Hrest & Hrun).
    injection Hrun as <-. cbn [fst] in Hrest.
    inversion Hxs as [|? ? Hx Hxs']; subst.
    pose proof (add_element_in_range d x d1 o1 Hd Hx H1) as Hd1.
    constructor; [exact Hd1|]. exact (IH d1 tr' Hd1 Hxs' Hrest).
Qed.

Lemma gated_sums_numbers (tr : list (DDM * (bool * bool))) :
  Forall (fun r => in_range (fst r)) tr ->
  Forall (fun v => is_nan v = false) (gated_sums tr).
Proof.
  unfold gated_sums. induction 1 as [|r tr Hr _ IH]; cbn [map filter]; [constructor|].
  destruct (gated (fst r)); [|exact IH].
  cbn [map]. constructor; [|exact IH]. apply in_range_sum_not_nan. exact Hr.
Qed.

(** C2, as the code has it: a call stopped by the warm-up gate leaves the
    snapshot of the minimum untouched; after a reset and as long as no drift
    is flagged, [min_sum] is the least [error_rate + error_std] of the calls
    that passed the gate, [+infinity] when none did; under observations in
    {0, 1} none of these sums is NaN. *)
Theorem minimum_tracked_after_gate (d : DDM) :
  (forall (x : float) (d' : DDM) (o : bool * bool),
      add_element d x = Ok (d', o) -> gated d' = false ->
      snapshot d' = snapshot (lazy_reset d)) /\
  (forall (xs : list float) (tr : list (DDM * (bool * bool))),
      add_elements (reset d) xs = Ok tr ->
      no_drift (removelast tr) ->
      is_running_min (miss_prob_sd_min (final (reset d) tr)) (gated_sums tr) /\
      (Forall binary xs -> Forall (fun v => is_nan v = false) (gated_sums tr))).
Proof.
  split.
  - intros x d' o H. apply add_element_minimum in H. tauto.
  - intros xs tr Hrun Hq. split.
    + exact (reset_run_running_min d xs tr Hrun Hq).
    + intros Hxs. apply gated_sums_numbers.
      exact (run_in_range xs (reset d) tr (reset_in_range d) Hxs Hrun).
Qed.

(** C3, as the code has it: a call that passes the warm-up gate leaves
    [min_sum <= error_rate + error_std] whenever that sum is a number, and
    under observations in {0, 1} it always is. *)
Theorem minimum_below_gated_sum (d : DDM) (x : float) (d' : DDM) (o : bool * bool) :
  add_element d x = Ok (d', o) ->
  gated d' = true ->
  (reachable (fun _ => True) d -> is_nan (sum_of d') = false ->
   (miss_prob_sd_min d' <=? sum_of d')%float = true) /\
  (reachable binary d -> binary x ->
   (miss_prob_sd_min d' <=? sum_of d')%float = true).
Proof.
  intros H Hg. split.
  - intros Hr Hn.
    exact (minimum_below_number d x d' o (reachable_minimum_not_nan _ d Hr) H Hg Hn).
  - intros Hr Hx.
    apply (minimum_below_number d x d' o (reachable_minimum_not_nan _ d Hr) H Hg).
    apply in_range_sum_not_nan.
    exact (add_element_in_range d x d' o (reachable_in_range d Hr) Hx H).
Qed.

(** C7: one call updates the statistics in this order, from the detector
    left by the pending reset: the error rate with the count as divisor,
    the deviation from the new error rate and the same count, then the
    count; after a reset the divisor is 1.0. *)
Theorem statistics_update_order (d : DDM) (x : float) :
  1 <= sample_count (lazy_reset d) < Py.int_max ->
  Py.float_of_int (sample_count (reset d)) = Ok 1%float /\
  exists (n : float) (d' : DDM) (o : bool * bool),
    Py.float_of_int (sample_count (lazy_reset d)) = Ok n /\
    add_element d x = Ok (d', o) /\
    miss_prob d' = (miss_prob (lazy_reset d) + (x - miss_prob (lazy_reset d)) / n)%float /\
    miss_std d' = sqrt (miss_prob d' * (1 - miss_prob d') / n)%float /\
    sample_count d' = sample_count (lazy_reset d) + 1.
Proof.
  intros Hc. split; [vm_compute; reflexivity|].
  destruct (add_element_total d x Hc) as (d' & o & H).
  pose proof H as H'.
  apply add_element_Ok in H'. destruct H' as (u & Hu & Hcon).
  apply update_statistics_Ok in Hu. destruct Hu as (n & Hn & _ & Hu).
  apply conclude_cases in Hcon. destruct Hcon as (Hs & _).
  assert (Hsame : sample_count d' = sample_count u /\ miss_prob d' = miss_prob u
                  /\ miss_std d' = miss_std u).
  { destruct Hs as (H1 & H2 & H3 & _). rewrite H1, H2, H3.
    destruct (gated d'); [|auto].
    unfold track_minimum. destruct (_ <=? _)%float; auto. }
  destruct Hsame as (E1 & E2 & E3).
  exists n, d', o. split; [exact Hn|]. split; [exact H|].
  rewrite E1, E3, E2, Hu. cbn [sample_count miss_prob miss_std]. auto.
Qed.

(** C9: under observations in {0, 1} the deviation is never negative and
    never NaN, the error rate stays in [0, 1], their sum is a number, and
    a call whose count a float can hold returns. *)
Theorem error_std_nonneg (d : DDM) :
  reachable binary d ->
  (0 <=? miss_std d)%float = true /\
  (0 <=? miss_prob d)%float = true /\
  (miss_prob d <=? 1)%float = true /\
  is_nan (sum_of d) = false /\
  forall x : float,
    binary x -> sample_count (lazy_reset d) < Py.int_max ->
    exists (d' : DDM) (o : bool * bool),
      add_element d x = Ok (d', o) /\ (0 <=? miss_std d')%float = true.
Proof.
  intros Hr. pose proof (reachable_in_range d Hr) as Hin.
  assert (Hstd : forall e : DDM, in_range e -> (0 <=? miss_std e)%float = true).
  { intros e (_ & _ & _ & Ns & Hs). apply leb_true_iff.
    split; [reflexivity|]. split; [exact Ns|]. rewrite fval_zero. exact Hs. }
  split; [exact (Hstd d Hin)|].
  destruct Hin as (Hc & Fp & Hp & Ns & Hs).
  split; [|split; [|split]].
  - apply leb_true_iff. split; [reflexivity|]. split; [apply finite_not_nan; exact Fp|].
    rewrite fval_zero. lia.
  - apply leb_true_iff. split; [apply finite_not_nan; exact Fp|]. split; [reflexivity|].
    rewrite fval_one. lia.
  - apply in_range_sum_not_nan. unfold in_range. auto.
  - intros x Hx Hmax.
    assert (Hl : in_range (lazy_reset d)) by (apply lazy_reset_in_range; unfold in_range; auto).
    destruct (add_element_total d x) as (d' & o & H); [destruct Hl; lia|].
    exists d', o. split; [exact H|]. apply Hstd.
    apply (add_element_in_range d x d' o); [unfold in_range; auto | exact Hx | exact H].
Qed.


(** C1 on the code: with [min_instances = 3] the second observation
    since the reset, the last one the claim covers, already returns a
    drift; the constructor's documentation asks for three analysed
    samples. *)
Theorem warm_up_one_call_short :
  exists tr : list (DDM * (bool * bool)),
    add_elements (DDM_init 3 0.5 0.75) [1; 0]%float = Ok tr /\
    map snd tr = [(false, false); (true, false)].
Proof.
  rewrite add_elements_init_blank. eexists. split; vm_compute; reflexivity.
Qed.

End Statistics.

(** * Further properties of the code *)

(** ** The fields after one call *)

Section Effects.

Context {parent : DriftDetector}.

Lemma conclude_fields (u d' : DDM) (o : bool * bool) :
  conclude u = (d', o) ->
  sample_count d' = sample_count u /\
  miss_prob d' = miss_prob u /\
  miss_std d' = miss_std u /\
  base d' = mkBase (fst o) (snd o) (Some (miss_prob u)) (Some 0).
Proof.
  unfold conclude. cbn [sample_count min_instances clear_flags].
  destruct (sample_count u <? min_instances u); intros H; injection H as <- <-.
  - cbn. auto.
  - unfold track_minimum. destruct (_ <=? _)%float; unfold classify;
      repeat match goal with |- context [if ?b then _ else _] => destruct b end; cbn; auto.
Qed.

Lemma add_element_fields (d : DDM) (x : float) (d' : DDM) (o : bool * bool) :
  add_element d x = Ok (d', o) ->
  sample_count d' = sample_count (lazy_reset d) + 1 /\
  base d' = mkBase (fst o) (snd o) (Some (miss_prob d')) (Some 0) /\
  config d' = config d.
Proof.
  intros H. apply add_element_Ok in H. destruct H as (u & Hu & Hc).
  pose proof (update_statistics_config _ _ _ Hu) as Hcfg.
  pose proof (conclude_config u) as Hcc. rewrite Hc in Hcc. cbn [fst] in Hcc.
  apply update_statistics_Ok in Hu. destruct Hu as (n & _ & _ & Hu).
  apply conclude_fields in Hc. destruct Hc as (H1 & H2 & _ & H4).
  split; [rewrite H1, Hu; reflexivity|].
  split; [rewrite H4, H2; reflexivity|].
  rewrite Hcc, Hcfg. apply lazy_reset_config.
Qed.

End Effects.

(** ** Errors *)


Section Errors.

Context {parent : DriftDetector}.



Lemma reachable_count (P : float -> Prop) (d : DDM) :
  reachable P d -> 1 <= sample_count d /\ 1 <= sample_count (lazy_reset d).
Proof.
  assert (Hl : forall e : DDM, 1 <= sample_count e -> 1 <= sample_count (lazy_reset e)).
  { intros e He. unfold lazy_reset. destruct (in_concept_change e); [cbn; lia | exact He]. }
  induction 1 as [mi wl ocl | d _ _ | d x d' o _ IH _ H].
  - split; [|apply Hl]; cbn; lia.
  - split; [|apply Hl]; cbn; lia.
  - apply add_element_fields in H. destruct H as (Hc & _).
    assert (1 <= sample_count d') by lia. split; [assumption | apply Hl; assumption].
Qed.


End Errors.

(** ** The count and the warm-up *)

Section Counting.

Context {parent : DriftDetector}.

Lemma add_elements_cons (d : DDM) (x : float) (xs : list float) (tr : list (DDM * (bool * bool))) :
  add_elements d (x :: xs) = Ok tr ->
  exists (d1 : DDM) (o1 : bool * bool) (tr' : list (DDM * (bool * bool))),
    add_element d x = Ok (d1, o1) /\ add_elements d1 xs = Ok tr' /\ tr = (d1, o1) :: tr'.
Proof.
  cbn [add_elements]. intros H.
  apply bind_Ok in H. destruct H as ([d1 o1] & H1 & H).
  apply bind_Ok in H. destruct H as (tr' & Hrest & H).
  injection H as <-. exists d1, o1, tr'. auto.
Qed.

Lemma add_elements_length (xs : list float) :
  forall (d : DDM) (tr : list (DDM * (bool * bool))),
    add_elements d xs = Ok tr -> length tr = length xs.
Proof.
  induction xs as [|x xs IH]; intros d tr H.
  - injection H as <-. reflexivity.
  - apply add_elements_cons in H. destruct H as (d1 & o1 & tr' & _ & Hrest & ->).
    cbn [length]. f_equal. exact (IH d1 tr' Hrest).
Qed.

Lemma no_drift_removelast_cons (r : DDM * (bool * bool)) (tr : list (DDM * (bool * bool))) :
  tr <> [] -> no_drift (removelast (r :: tr)) ->
  fst (snd r) = false /\ no_drift (removelast tr).
Proof.
  intros Hne H. destruct tr as [|r' tr']; [congruence|].
  cbn [removelast] in H. inversion H; subst. split; assumption.
Qed.

Lemma run_count (xs : list float) :
  forall (d : DDM) (tr : list (DDM * (bool * bool))),
    in_concept_change d = false ->
    add_elements d xs = Ok tr ->
    no_drift (removelast tr) ->
    sample_count (final d tr) = sample_count d + Z.of_nat (length xs) /\
    min_instances (final d tr) = min_instances d.
Proof.
  induction xs as [|x xs IH]; intros d tr Hf Hrun Hq.
  - injection Hrun as <-. cbn. split; [lia | reflexivity].
  - apply add_elements_cons in Hrun. destruct Hrun as (d1 & o1 & tr' & H1 & Hrest & ->).
    unfold final. cbn [map fst]. rewrite last_cons. fold (final d1 tr').
    pose proof (add_element_fields _ _ _ _ H1) as (Hc & Hb & Hcfg).
    unfold lazy_reset in Hc. rewrite Hf in Hc.
    unfold config in Hcfg. injection Hcfg as Hmi _ _.
    destruct xs as [|x' xs'].
    + injection Hrest as <-. cbn [final map last length]. split; [lia | exact Hmi].
    + assert (Hne : tr' <> []).
      { intros ->. apply add_elements_length in Hrest. discriminate Hrest. }
      destruct (no_drift_removelast_cons _ _ Hne Hq) as [Ho1 Hq'].
      assert (Hf1 : in_concept_change d1 = false).
      { unfold in_concept_change. rewrite Hb. exact Ho1. }
      destruct (IH d1 tr' Hf1 Hrest Hq') as [IH1 IH2].
      split; [|congruence]. rewrite IH1, Hc. cbn [length]. lia.
Qed.

Lemma final_reset_blank (d : DDM) (tr : list (DDM * (bool * bool))) :
  same_statistics (final (reset d) tr)
    (final (blank (min_instances d) (warning_level d) (out_control_level d)) tr).
Proof.
  unfold final. destruct tr as [|r tr].
  - unfold same_statistics; cbn. repeat split.
  - cbn [map]. rewrite !last_cons. apply same_statistics_refl.
Qed.

(** X2.  Lines 101, 130 and 137: the count is one more than the number of
    observations since the reset.  After [n] observations without a drift
    before the last one the count is [n + 1], so that the call of
    observation [n] passes the warm-up gate exactly when
    [n + 1 >= min_instances]. *)
Theorem sample_count_counts (d : DDM) (xs : list float) (tr : list (DDM * (bool * bool))) :
  add_elements (reset d) xs = Ok tr ->
  no_drift (removelast tr) ->
  sample_count (final (reset d) tr) = Z.of_nat (length xs) + 1 /\
  gated (final (reset d) tr) = (min_instances d <=? Z.of_nat (length xs) + 1).
Proof.
  intros Hrun Hq.
  rewrite add_elements_reset_blank in Hrun.
  destruct (final_reset_blank d tr) as (E1 & _ & _ & _ & _ & _ & E2 & _).
  unfold gated. rewrite E1, E2.
  destruct (run_count xs (blank (min_instances d) (warning_level d) (out_control_level d))
              tr eq_refl Hrun Hq) as [H1 H2].
  rewrite H1, H2. cbn [blank sample_count min_instances].
  replace (1 + Z.of_nat (length xs)) with (Z.of_nat (length xs) + 1) by lia.
  split; reflexivity.
Qed.




(** X4.  Line 137 with [min_instances <= 2]: there is no warm-up at all.  Every
    call of a detector at run time goes through the minimum tracking and
    the classification, and under observations in {0, 1} it leaves
    [min_sum <= error_rate + error_std]. *)
Theorem no_warm_up_below_three (d : DDM) (x : float) (d' : DDM) (o : bool * bool) :
  reachable binary d ->
  min_instances d <= 2 ->
  add_element d x = Ok (d', o) ->
  gated d' = true /\
  (binary x -> (miss_prob_sd_min d' <=? sum_of d')%float = true).
Proof.
  intros Hr Hmi H.
  pose proof (add_element_fields _ _ _ _ H) as (Hc & _ & Hcfg).
  unfold config in Hcfg. injection Hcfg as Hmi' _ _.
  destruct (reachable_count _ d Hr) as [_ Hl].
  assert (Hg : gated d' = true) by (unfold gated; apply Z.leb_le; lia).
  split; [exact Hg|]. intros Hx.
  apply (minimum_below_number d x d' o (reachable_minimum_not_nan _ d Hr) H Hg).
  apply in_range_sum_not_nan.
  exact (add_element_in_range d x d' o (reachable_in_range d Hr) Hx H).
Qed.

End Counting.

(** ** The snapshot of the minimum *)

Section Snapshot.

Context {parent : DriftDetector}.

Lemma conclude_snapshot (u d' : DDM) (o : bool * bool) :
  conclude u = (d', o) ->
  snapshot d' = snapshot u \/
  snapshot d' = ((miss_prob d' + miss_std d')%float, miss_prob d', miss_std d').
Proof.
  intros H. pose proof (conclude_fields _ _ _ H) as (_ & H2 & H3 & _).
  apply conclude_cases in H. destruct H as (Hs & _).
  apply same_statistics_snapshot in Hs. rewrite Hs, H2, H3.
  destruct (gated d'); [|left; reflexivity].
  unfold track_minimum. destruct (_ <=? _)%float; [right | left]; reflexivity.
Qed.

Lemma add_element_snapshot (d : DDM) (x : float) (d' : DDM) (o : bool * bool) :
  add_element d x = Ok (d', o) ->
  snapshot d' = snapshot (lazy_reset d) \/
  snapshot d' = ((miss_prob d' + miss_std d')%float, miss_prob d', miss_std d').
Proof.
  intros H. apply add_element_Ok in H. destruct H as (u & Hu & Hc).
  apply update_statistics_Ok in Hu. destruct Hu as (n & _ & _ & Hu).
  apply conclude_snapshot in Hc.
  assert (Hsn : snapshot u = snapshot (lazy_reset d)) by (rewrite Hu; reflexivity).
  rewrite Hsn in Hc. exact Hc.
Qed.

(** X5.  Lines 104-106 and 140-143: the three minima are one snapshot.  In
    every detector at run time, whatever it was fed with, [min_sum] is the
    float sum of the error rate and the deviation recorded with it. *)
Theorem snapshot_coupled (P : float -> Prop) (d : DDM) :
  reachable P d ->
  miss_prob_sd_min d = (miss_prob_min d + miss_sd_min d)%float.
Proof.
  induction 1 as [mi wl ocl | d _ _ | d x d' o _ IH _ H].
  - reflexivity.
  - reflexivity.
  - apply add_element_snapshot in H. unfold snapshot in H.
    destruct H as [H|H]; injection H as -> -> ->; [|reflexivity].
    unfold lazy_reset. destruct (in_concept_change d); [reflexivity | exact IH].
Qed.

(** X6.  Lines 140-143: a call without a pending reset never raises the
    recorded minimum. *)
Theorem minimum_never_rises (P : float -> Prop) (d : DDM) (x : float) (d' : DDM) (o : bool * bool) :
  reachable P d ->
  in_concept_change d = false ->
  add_element d x = Ok (d', o) ->
  (miss_prob_sd_min d' <=? miss_prob_sd_min d)%float = true.
Proof.
  intros Hr Hf H. pose proof (reachable_minimum_not_nan _ d Hr) as Hn.
  apply add_element_minimum in H. destruct H as [-> _].
  unfold lazy_reset. rewrite Hf.
  destruct (gated d'); [|apply leb_refl; exact Hn].
  destruct (sum_of d' <=? miss_prob_sd_min d)%float eqn:E; [exact E | apply leb_refl; exact Hn].
Qed.

End Snapshot.

(** ** After a drift *)

Section Restart.

Context {parent : DriftDetector}.

Lemma add_elements_after_drift (d : DDM) (x : float) (d' : DDM) (w : bool) (ys : list float) :
  add_element d x = Ok (d', (true, w)) ->
  add_elements d' ys
  = add_elements (blank (min_instances d) (warning_level d) (out_control_level d)) ys.
Proof.
  intros H.
  pose proof (add_element_fields _ _ _ _ H) as (_ & Hb & Hcfg).
  unfold config in Hcfg. injection Hcfg as <- <- <-.
  apply add_elements_same.
  unfold lazy_reset at 2. cbn [in_concept_change blank base _in_concept_change].
  unfold lazy_reset, in_concept_change. rewrite Hb. cbn [_in_concept_change fst].
  unfold same_statistics; cbn. repeat split.
Qed.

(** X7.  Lines 125-126 with lines 94-106: after a call that returned a drift
    the detector goes through every stream as a detector freshly
    constructed with the same configuration does, call by call: nothing
    seen before the drift is left. *)
Theorem drift_restarts_detector (d : DDM) (x : float) (d' : DDM) (w : bool) :
  add_element d x = Ok (d', (true, w)) ->
  forall ys : list float,
    add_elements d' ys
    = add_elements (DDM_init (min_instances d) (warning_level d) (out_control_level d)) ys.
Proof.
  intros H ys. rewrite add_elements_init_blank.
  exact (add_elements_after_drift d x d' w ys H).
Qed.


End Restart.

(** ** When a call can flag *)

Section Alarms.

Context {parent : DriftDetector}.

Lemma classify_snapshot (t : DDM) :
  snapshot (classify t) = snapshot t /\ sum_of (classify t) = sum_of t /\
  gated (classify t) = gated t.
Proof.
  unfold classify.
  repeat match goal with |- context [if ?b then _ else _] => destruct b end; auto.
Qed.

Lemma classify_silent (t : DDM) :
  flags t = (false, false) ->
  (out_control_threshold t <? sum_of t)%float = false ->
  (warning_threshold t <? sum_of t)%float = false ->
  flags (classify t) = (false, false).
Proof.
  unfold out_control_threshold, warning_threshold, sum_of, classify, flags.
  intros Hf -> ->. injection Hf as -> _. reflexivity.
Qed.

(** What a call that returns a flag went through. *)
Lemma conclude_flagged (u d' : DDM) (o : bool * bool) :
  in_range u ->
  is_nan (miss_prob_sd_min u) = false ->
  (1 <=? warning_level u)%float = true ->
  (1 <=? out_control_level u)%float = true ->
  conclude u = (d', o) ->
  o <> (false, false) ->
  gated d' = true /\ snapshot d' = snapshot u /\ sum_of d' = sum_of u /\
  (miss_prob_sd_min u <? sum_of u)%float = true.
Proof.
  intros Hin Hmin Hw Ho. pose proof (in_range_sum_not_nan u Hin) as Hsum.
  destruct Hin as (_ & Fp & Hp & Ns & Hs).
  unfold conclude. cbn [sample_count min_instances clear_flags].
  destruct (sample_count u <? min_instances u) eqn:G; intros H; injection H as <- <-.
  - intros Hne. exfalso. apply Hne. reflexivity.
  - intros Hne.
    destruct (classify_snapshot (track_minimum (clear_flags u))) as (Hc1 & Hc2 & Hc3).
    rewrite Hc1, Hc2, Hc3.
    unfold track_minimum in *. cbn [miss_prob miss_std miss_prob_sd_min clear_flags] in *.
    fold (sum_of u) in *.
    destruct (sum_of u <=? miss_prob_sd_min u)%float eqn:E.
    + exfalso. apply Hne. apply classify_silent; [reflexivity | |].
      * unfold out_control_threshold, sum_of. cbn.
        apply threshold_not_below_sum; assumption.
      * unfold warning_threshold, sum_of. cbn.
        apply threshold_not_below_sum; assumption.
    + split; [|split; [reflexivity|split; [reflexivity|]]].
      * unfold gated. cbn. apply Z.leb_le. apply Z.ltb_ge in G. exact G.
      * apply leb_false_ltb; assumption.
Qed.

(** X9.  Lines 140-150 with levels of at least 1: a call that returns a
    warning or a drift passed the warm-up gate, recorded no new minimum, and
    leaves [error_rate + error_std] strictly above the minimum recorded by
    an earlier call; a call that records a new minimum is silent. *)
Theorem flag_needs_earlier_minimum (d : DDM) (x : float) (d' : DDM) (o : bool * bool) :
  reachable binary d -> binary x ->
  (1 <=? warning_level d)%float = true ->
  (1 <=? out_control_level d)%float = true ->
  add_element d x = Ok (d', o) ->
  o <> (false, false) ->
  gated d' = true /\
  snapshot d' = snapshot (lazy_reset d) /\
  (miss_prob_sd_min d' <? sum_of d')%float = true.
Proof.
  intros Hr Hx Hw Ho H Hne.
  pose proof (lazy_reset_in_range d (reachable_in_range d Hr)) as Hin.
  pose proof (lazy_reset_minimum_not_nan d (reachable_minimum_not_nan _ d Hr)) as Hmin.
  apply add_element_Ok in H. destruct H as (u & Hu & Hc).
  pose proof (update_statistics_in_range _ _ _ Hin Hx Hu) as Hinu.
  pose proof (update_statistics_config _ _ _ Hu) as Hcfg.
  rewrite lazy_reset_config in Hcfg. unfold config in Hcfg. injection Hcfg as _ Hwl Hocl.
  apply update_statistics_Ok in Hu. destruct Hu as (n & _ & _ & Hu).
  assert (Hsn : snapshot u = snapshot (lazy_reset d)) by (rewrite Hu; reflexivity).
  assert (Hm : miss_prob_sd_min u = miss_prob_sd_min (lazy_reset d)) by (rewrite Hu; reflexivity).
  destruct (conclude_flagged u d' o Hinu) as (Hg & Hs & Hsum & Hlt);
    try assumption; try congruence.
  split; [exact Hg|]. split; [congruence|].
  assert (Hm' : miss_prob_sd_min d' = miss_prob_sd_min u).
  { unfold snapshot in Hs. congruence. }
  rewrite Hm', Hsum. exact Hlt.
Qed.

Lemma first_minimum_silent (d : DDM) (x : float) (d' : DDM) (o : bool * bool) :
  in_range d -> binary x ->
  in_concept_change d = false ->
  miss_prob_sd_min d = infinity ->
  (1 <=? warning_level d)%float = true ->
  (1 <=? out_control_level d)%float = true ->
  add_element d x = Ok (d', o) ->
  o = (false, false).
Proof.
  intros Hin Hx Hf Hmin Hw Ho H.
  assert (Hl : lazy_reset d = d) by (unfold lazy_reset; rewrite Hf; reflexivity).
  apply add_element_Ok in H. rewrite Hl in H. destruct H as (u & Hu & Hc).
  pose proof (update_statistics_in_range _ _ _ Hin Hx Hu) as Hinu.
  pose proof (update_statistics_config _ _ _ Hu) as Hcfg.
  unfold config in Hcfg. injection Hcfg as _ Hwl Hocl.
  apply update_statistics_Ok in Hu. destruct Hu as (n & _ & _ & Hu).
  assert (Hm : miss_prob_sd_min u = infinity) by (rewrite Hu; exact Hmin).
  assert (Hd : o = (false, false) \/ o <> (false, false)).
  { destruct o as [[|] [|]]; (left; reflexivity) || (right; discriminate). }
  destruct Hd as [Hd|Hd]; [exact Hd|]. exfalso.
  destruct (conclude_flagged u d' o Hinu) as (_ & _ & _ & Hlt);
    [rewrite Hm; reflexivity | congruence | congruence | exact Hc | exact Hd |].
  rewrite Hm in Hlt. rewrite ltb_infinity_false in Hlt by reflexivity. discriminate.
Qed.

Lemma silent_run (xs : list float) :
  forall d : DDM,
    in_range d ->
    in_concept_change d = false ->
    miss_prob_sd_min d = infinity ->
    (1 <=? warning_level d)%float = true ->
    (1 <=? out_control_level d)%float = true ->
    Forall binary xs ->
    sample_count d + Z.of_nat (length xs) <= min_instances d ->
    sample_count d + Z.of_nat (length xs) <= Py.int_max ->
    exists tr : list (DDM * (bool * bool)),
      add_elements d xs = Ok tr /\ Forall (fun r => snd r = (false, false)) tr.
Proof.
  induction xs as [|x xs IH]; intros d Hin Hf Hmin Hw Ho Hxs Hg Hm.
  - exists []. split; [reflexivity | constructor].
  - cbn [length] in Hg, Hm. inversion Hxs as [|? ? Hx Hxs']; subst.
    assert (Hl : lazy_reset d = d) by (unfold lazy_reset; rewrite Hf; reflexivity).
    assert (Hc : 1 <= sample_count d) by (destruct Hin; assumption).
    destruct (add_element_total d x) as (d' & o & H); [rewrite Hl; lia|].
    pose proof (first_minimum_silent d x d' o Hin Hx Hf Hmin Hw Ho H) as ->.
    pose proof (add_element_fields _ _ _ _ H) as (Hcnt & Hb & Hcfg).
    rewrite Hl in Hcnt. unfold config in Hcfg. injection Hcfg as Hmi Hwl Hocl.
    destruct xs as [|x' xs'].
    + exists [(d', (false, false))]. split.
      * cbn [add_elements]. rewrite H. reflexivity.
      * repeat constructor.
    + cbn [length] in Hg, Hm.
      destruct (IH d') as (tr & Hrun & Hall); try assumption; try congruence.
      * exact (add_element_in_range d x d' _ Hin Hx H).
      * unfold in_concept_change. rewrite Hb. reflexivity.
      * apply add_element_minimum in H. destruct H as [_ Hs]. rewrite Hl in Hs.
        assert (Hgd : gated d' = false) by (unfold gated; apply Z.leb_gt; lia).
        specialize (Hs Hgd). unfold snapshot in Hs. congruence.
      * cbn [length]. lia.
      * cbn [length]. lia.
      * exists ((d', (false, false)) :: tr). split; [|constructor; [reflexivity | exact Hall]].
        change (add_elements d (x :: x' :: xs'))
          with (r <- add_element d x ;; rs <- add_elements (fst r) (x' :: xs') ;; Ok (r :: rs)).
        rewrite H. cbn [bind fst]. rewrite Hrun. reflexivity.
Qed.

(** X10.  Lines 137-150 with levels of at least 1, as the defaults 2.0 and 3.0
    are: after a reset the calls of the first [min_instances - 1]
    observations of {0, 1} return and are silent.  The call of observation
    [min_instances - 1] passes the gate, but it records the first minimum
    and compares [error_rate + error_std] with a threshold built on
    itself. *)
Theorem warm_up_holds_from_level_one (d : DDM) (xs : list float) :
  (1 <=? warning_level d)%float = true ->
  (1 <=? out_control_level d)%float = true ->
  Forall binary xs ->
  Z.of_nat (length xs) < min_instances d ->
  Z.of_nat (length xs) < Py.int_max ->
  exists tr : list (DDM * (bool * bool)),
    add_elements (reset d) xs = Ok tr /\ Forall (fun r => snd r = (false, false)) tr.
Proof.
  intros Hw Ho Hxs Hg Hm. rewrite add_elements_reset_blank.
  apply (silent_run xs (blank (min_instances d) (warning_level d) (out_control_level d)));
    try assumption; try reflexivity.
  - apply (same_statistics_in_range _ (reset d)); [|apply reset_in_range].
    unfold same_statistics; cbn. repeat split.
  - cbn [blank sample_count min_instances]. lia.
  - cbn [blank sample_count]. lia.
Qed.

End Alarms.

(** ** Streams of one value *)

Lemma binary_arith (x : float) :
  binary x ->
  (x - x = 0 /\ x + 0 = x /\ x * (1 - x) = 0 /\ 1 + (x - 1) / 1 = x)%float /\
  finite x /\ finite (x + 0) /\ fval (x + 0) = fval x.
Proof. intros [-> | ->]; vm_compute; repeat split. Qed.

Section Constant.

Context {parent : DriftDetector}.

Lemma track_minimum_fields (c : DDM) :
  flags (track_minimum c) = flags c /\
  sum_of (track_minimum c) = sum_of c /\
  miss_prob (track_minimum c) = miss_prob c /\
  warning_level (track_minimum c) = warning_level c /\
  out_control_level (track_minimum c) = out_control_level c /\
  snapshot (track_minimum c)
  = if (sum_of c <=? miss_prob_sd_min c)%float then (sum_of c, miss_prob c, miss_std c)
    else snapshot c.
Proof.
  unfold track_minimum, sum_of.
  destruct (miss_prob c + miss_std c <=? miss_prob_sd_min c)%float; repeat split.
Qed.

Lemma classify_prob (t : DDM) : miss_prob (classify t) = miss_prob t.
Proof.
  unfold classify.
  repeat match goal with |- context [if ?b then _ else _] => destruct b end; reflexivity.
Qed.

Lemma update_statistics_steady (x : float) (s u : DDM) :
  binary x -> 1 <= sample_count s ->
  miss_prob s = x \/ (sample_count s = 1 /\ miss_prob s = 1%float) ->
  update_statistics s x = Ok u ->
  miss_prob u = x /\ miss_std u = 0%float /\ snapshot u = snapshot s /\
  sample_count u = sample_count s + 1.
Proof.
  intros Hx Hc Hp H.
  destruct (binary_arith x Hx) as ((A1 & A2 & A3 & A4) & _).
  apply update_statistics_Ok in H. destruct H as (n & Hn & _ & ->).
  destruct (float_of_int_Ok _ _ Hn Hc) as (En & _ & Fn & Hnv).
  assert (H1074 : 0 < 2 ^ 1074) by (apply Z.pow_pos_nonneg; lia).
  assert (Hz : (0 / n)%float = 0%float) by (apply zero_div; [exact Fn | lia]).
  cbn [miss_prob miss_std sample_count].
  assert (E : (miss_prob s + (x - miss_prob s) / n)%float = x).
  { destruct Hp as [-> | [Hc1 ->]].
    - rewrite A1, Hz. exact A2.
    - rewrite En, Hc1. exact A4. }
  rewrite E, A3, Hz. repeat split.
Qed.

Lemma conclude_steady (x : float) (u d' : DDM) (o : bool * bool) :
  binary x ->
  miss_prob u = x -> miss_std u = 0%float ->
  (snapshot u = (infinity, infinity, infinity) \/ snapshot u = ((x + 0)%float, x, 0%float)) ->
  conclude u = (d', o) ->
  o = (false, false) /\ miss_prob d' = x /\
  (snapshot d' = (infinity, infinity, infinity) \/ snapshot d' = ((x + 0)%float, x, 0%float)).
Proof.
  intros Hx Hp Hs Hsnap.
  destruct (binary_arith x Hx) as (_ & Fx & Fx0 & Ex0).
  unfold conclude. cbn [sample_count min_instances clear_flags].
  destruct (sample_count u <? min_instances u); intros H; injection H as <- <-.
  - cbn. auto.
  - set (c := clear_flags u).
    assert (Hsum : sum_of c = (x + 0)%float) by (unfold sum_of, c; cbn; rewrite Hp, Hs; reflexivity).
    destruct (track_minimum_fields c) as (T1 & T2 & T3 & T4 & T5 & T6).
    assert (Hle : (sum_of c <=? miss_prob_sd_min c)%float = true).
    { rewrite Hsum. unfold snapshot in Hsnap. cbn [c clear_flags miss_prob_sd_min].
      destruct Hsnap as [Hsnap|Hsnap]; injection Hsnap as -> _ _.
      - apply leb_infinity. apply finite_not_nan. exact Fx0.
      - apply leb_refl. apply finite_not_nan. exact Fx0. }
    rewrite Hle in T6.
    assert (T6' : snapshot (track_minimum c) = ((x + 0)%float, x, 0%float)).
    { rewrite T6, Hsum. unfold c; cbn. rewrite Hp, Hs. reflexivity. }
    clear T6. set (t := track_minimum c) in *.
    destruct (classify_snapshot t) as (C1 & C2 & _).
    rewrite classify_prob, C1, T3. split; [|split; [exact Hp | right; exact T6']].
    unfold snapshot in T6'. injection T6' as M1 M2 M3.
    assert (Hthr : forall L : float, (miss_prob_min t + L * miss_sd_min t <? sum_of t)%float = false).
    { intros L. rewrite M2, M3, T2, Hsum. apply ltb_false_intro.
      destruct (mul_zero_cases L) as [Hn|[Fz Ez]].
      - left. apply add_nan. right. exact Hn.
      - right. destruct (add_zero_val x _ Fx Fz Ez) as [_ E]. lia. }
    apply classify_silent.
    + rewrite T1. reflexivity.
    + apply Hthr.
    + apply Hthr.
Qed.

Lemma add_element_steady (x : float) (s : DDM) :
  binary x -> steady x s -> sample_count s < Py.int_max ->
  exists d' : DDM, add_element s x = Ok (d', (false, false)) /\
    steady x d' /\ miss_prob d' = x /\ sample_count d' = sample_count s + 1.
Proof.
  intros Hx (Hf & Hc & Hp & Hsnap) Hm.
  assert (Hl : lazy_reset s = s) by (unfold lazy_reset; rewrite Hf; reflexivity).
  destruct (add_element_total s x) as (d' & o & H); [rewrite Hl; lia|].
  pose proof (add_element_fields _ _ _ _ H) as (Hcnt & Hb & _). rewrite Hl in Hcnt.
  pose proof H as H'. apply add_element_Ok in H'. rewrite Hl in H'.
  destruct H' as (u & Hu & Hcon).
  destruct (update_statistics_steady x s u Hx Hc Hp Hu) as (U1 & U2 & U3 & _).
  rewrite <- U3 in Hsnap.
  destruct (conclude_steady x u d' o Hx U1 U2 Hsnap Hcon) as (-> & D1 & D2).
  exists d'. split; [exact H|]. split; [|split; [exact D1 | exact Hcnt]].
  unfold steady. split; [unfold in_concept_change; rewrite Hb; reflexivity|].
  split; [lia|]. split; [left; exact D1 | exact D2].
Qed.

Lemma constant_run (x : float) (n : nat) :
  forall s : DDM,
    binary x -> steady x s -> sample_count s + Z.of_nat n <= Py.int_max ->
    exists tr : list (DDM * (bool * bool)),
      add_elements s (repeat x n) = Ok tr /\
      Forall (fun r => snd r = (false, false) /\ miss_prob (fst r) = x) tr.
Proof.
  induction n as [|n IH]; intros s Hx Hs Hm.
  - exists []. split; [reflexivity | constructor].
  - destruct (add_element_steady x s Hx Hs) as (d' & H & Hs' & Hp' & Hc'); [lia|].
    destruct (IH d' Hx Hs') as (tr & Hrun & Hall); [lia|].
    exists ((d', (false, false)) :: tr). split.
    + cbn [repeat add_elements]. rewrite H. cbn [bind fst]. rewrite Hrun. reflexivity.
    + constructor; [split; [reflexivity | exact Hp'] | exact Hall].
Qed.

(** X11.  Lines 102-103 and 128-150: a stream that never changes never flags.
    After a reset, as long as every observation is the same number of
    {0, 1}, every call returns, is silent and leaves that number as error
    rate, whatever the levels and [min_instances] are: a classifier that is
    wrong on every sample from the start is not reported. *)
Theorem constant_stream_silent (d : DDM) (x : float) (n : nat) :
  binary x ->
  Z.of_nat n < Py.int_max ->
  exists tr : list (DDM * (bool * bool)),
    add_elements (reset d) (repeat x n) = Ok tr /\
    Forall (fun r => snd r = (false, false) /\ miss_prob (fst r) = x) tr.
Proof.
  intros Hx Hn. rewrite add_elements_reset_blank.
  apply constant_run; [exact Hx | | cbn [blank sample_count]; lia].
  unfold steady. cbn. split; [reflexivity|]. split; [lia|]. split; [right|left]; auto.
Qed.

End Constant.

(** ** An observation that is not a number *)

Section NotANumber.

Context {parent : DriftDetector}.






End NotANumber.

(** ** The direction of the update *)

Section Direction.

Context {parent : DriftDetector}.

Lemma update_statistics_toward (s : DDM) (x : float) (u : DDM) :
  in_range s -> update_statistics s x = Ok u ->
  (x = 1%float -> fval (miss_prob s) <= fval (miss_prob u)) /\
  (x = 0%float -> fval (miss_prob u) <= fval (miss_prob s)).
Proof.
  intros (Hc & Fp & Hp & _) H.
  apply update_statistics_Ok in H. destruct H as (n & Hn & _ & ->).
  destruct (float_of_int_Ok _ _ Hn Hc) as (_ & _ & Fn & Hnv).
  assert (H1074 : 0 < 2 ^ 1074) by (apply Z.pow_pos_nonneg; lia).
  cbn [miss_prob]. set (p := miss_prob s) in *.
  split; intros ->.
  - destruct (sub_between 1 p 0 1 finite_one Fp finite_zero finite_one) as [Ft Ht].
    { rewrite fval_one, fval_zero. lia. }
    rewrite fval_zero in Ht.
    destruct (div_between (1 - p) n 0 (1 - p) Ft Fn ltac:(lia) finite_zero Ft) as [Fq Hq].
    { rewrite fval_zero. split; [nia|].
      revert Hnv Ht H1074. generalize (fval (1 - p)) (fval n) (2 ^ 1074). intros a b c; nia. }
    rewrite fval_zero in Hq.
    destruct (add_complement_le_one p ((1 - p) / n) Fp Hp Fq Hq) as [_ Hs]. lia.
  - destruct (finite_opp p Fp) as [Fo Eo].
    destruct (sub_between 0 p (- p) (- p) finite_zero Fp Fo Fo) as [Ft Ht].
    { rewrite fval_zero, Eo. lia. }
    rewrite Eo in Ht.
    destruct (div_between (0 - p) n (0 - p) 0 Ft Fn ltac:(lia) Ft finite_zero) as [Fq Hq].
    { rewrite fval_zero. split; [|nia].
      assert (Ht' : fval (0 - p) = - fval p) by lia. rewrite Ht'.
      revert Hnv Hp H1074. generalize (fval p) (fval n) (2 ^ 1074). intros a b c; nia. }
    rewrite fval_zero in Hq.
    destruct (add_between p ((0 - p) / n) 0 p Fp Fq finite_zero Fp) as [_ Hs].
    { rewrite fval_zero. lia. }
    lia.
Qed.

(** X13.  Line 128 in binary64: an error never lowers the error rate and a
    correct prediction never raises it, rounding included.  The error
    rate a call leaves is compared with the one the call started from (the
    1.0 of the reset when a reset was pending). *)
Theorem error_rate_moves_toward_observation (d : DDM) (x : float) (d' : DDM) (o : bool * bool) :
  reachable binary d ->
  add_element d x = Ok (d', o) ->
  (x = 1%float -> (miss_prob (lazy_reset d) <=? miss_prob d')%float = true) /\
  (x = 0%float -> (miss_prob d' <=? miss_prob (lazy_reset d))%float = true).
Proof.
  intros Hr H.
  pose proof (lazy_reset_in_range d (reachable_in_range d Hr)) as Hin.
  assert (Hx : x = 1%float \/ x = 0%float ->
               finite (miss_prob d') /\
               (x = 1%float -> fval (miss_prob (lazy_reset d)) <= fval (miss_prob d')) /\
               (x = 0%float -> fval (miss_prob d') <= fval (miss_prob (lazy_reset d)))).
  { intros Hb.
    assert (Hbin : binary x) by (unfold binary; tauto).
    pose proof (add_element_in_range d x d' o (reachable_in_range d Hr) Hbin H) as (_ & F' & _).
    apply add_element_Ok in H. destruct H as (u & Hu & Hc).
    destruct (update_statistics_toward _ _ _ Hin Hu) as [T1 T0].
    apply conclude_fields in Hc. destruct Hc as (_ & Hpe & _).
    rewrite Hpe in *. split; [exact F'|]. split; assumption. }
  destruct Hin as (_ & Fp & _).
  split; intros E; destruct Hx as (F' & T1 & T0); auto;
    apply leb_true_iff; repeat split; auto using finite_not_nan.
Qed.

End Direction.

(** ** The two levels *)

Section Levels.

Context {parent : DriftDetector}.

Lemma snapshot_in_range_same (a b : DDM) :
  snapshot a = snapshot b -> snapshot_in_range b -> snapshot_in_range a.
Proof.
  unfold snapshot_in_range, snapshot. intros E H. injection E as E1 E2 E3.
  rewrite E1, E2, E3. exact H.
Qed.

Lemma add_element_snapshot_exact (d : DDM) (x : float) (d' : DDM) (o : bool * bool) :
  add_element d x = Ok (d', o) ->
  snapshot d' =
    if gated d' then
      if (sum_of d' <=? miss_prob_sd_min (lazy_reset d))%float
      then (sum_of d', miss_prob d', miss_std d')
      else snapshot (lazy_reset d)
    else snapshot (lazy_reset d).
Proof.
  intros H. apply add_element_Ok in H. destruct H as (u & Hu & Hc).
  apply update_statistics_Ok in Hu. destruct Hu as (n & _ & _ & Hu).
  pose proof (conclude_fields _ _ _ Hc) as (_ & H2 & H3 & _).
  apply conclude_cases in Hc. destruct Hc as (Hs & _).
  pose proof (same_statistics_sum _ _ Hs) as Hsum.
  apply same_statistics_snapshot in Hs. rewrite Hs.
  assert (Hsn : snapshot (clear_flags u) = snapshot (lazy_reset d)) by (rewrite Hu; reflexivity).
  assert (Hm : miss_prob_sd_min (clear_flags u) = miss_prob_sd_min (lazy_reset d))
    by (rewrite Hu; reflexivity).
  destruct (gated d'); [|exact Hsn].
  destruct (track_minimum_fields (clear_flags u)) as (_ & T2 & _ & _ & _ & T6).
  rewrite T6. rewrite T2 in Hsum. rewrite <- Hsum, Hm, Hsn.
  destruct (sum_of d' <=? miss_prob_sd_min (lazy_reset d))%float; [|reflexivity].
  rewrite Hsum, H2, H3. reflexivity.
Qed.

Lemma lazy_reset_snapshot_in_range (d : DDM) :
  snapshot_in_range d -> snapshot_in_range (lazy_reset d).
Proof.
  unfold lazy_reset. destruct (in_concept_change d); [intros _; left; reflexivity | auto].
Qed.

Lemma add_element_snapshot_in_range (d : DDM) (x : float) (d' : DDM) (o : bool * bool) :
  in_range d -> snapshot_in_range d -> binary x ->
  is_nan (miss_prob_sd_min d) = false ->
  add_element d x = Ok (d', o) ->
  snapshot_in_range d' /\
  (gated d' = true ->
   finite (miss_prob_min d') /\
   0 <= fval (miss_prob_min d') <= 2 ^ 1074 /\
   is_nan (miss_sd_min d') = false /\
   0 <= fval (miss_sd_min d')).
Proof.
  intros Hin Hsn Hx Hmin H.
  pose proof (add_element_in_range d x d' o Hin Hx H) as Hin'.
  pose proof (in_range_sum_not_nan d' Hin') as Hsum.
  pose proof (lazy_reset_snapshot_in_range d Hsn) as Hl.
  pose proof (lazy_reset_minimum_not_nan d Hmin) as Hlm.
  pose proof (add_element_snapshot_exact d x d' o H) as E.
  destruct Hin' as (_ & Fp & Hp & Ns & Hs).
  assert (Hnew : snapshot d' = (sum_of d', miss_prob d', miss_std d') ->
                 finite (miss_prob_min d') /\
                 0 <= fval (miss_prob_min d') <= 2 ^ 1074 /\
                 is_nan (miss_sd_min d') = false /\
                 0 <= fval (miss_sd_min d')).
  { unfold snapshot. intros E'. injection E' as _ -> ->. auto. }
  destruct (gated d').
  - destruct (sum_of d' <=? miss_prob_sd_min (lazy_reset d))%float eqn:L.
    + split; [right|intros _]; apply Hnew; exact E.
    + assert (Hold : finite (miss_prob_min (lazy_reset d)) /\
                     0 <= fval (miss_prob_min (lazy_reset d)) <= 2 ^ 1074 /\
                     is_nan (miss_sd_min (lazy_reset d)) = false /\
                     0 <= fval (miss_sd_min (lazy_reset d))).
      { destruct Hl as [Hl|Hl]; [|exact Hl]. exfalso.
        unfold snapshot in Hl. injection Hl as Hl _ _.
        rewrite Hl, leb_infinity in L by exact Hsum. discriminate L. }
      unfold snapshot in E. injection E as _ E2 E3.
      unfold snapshot_in_range. rewrite E2, E3.
      split; [right; exact Hold | intros _; exact Hold].
  - split; [|discriminate]. exact (snapshot_in_range_same _ _ E Hl).
Qed.

Lemma reachable_snapshot_in_range (d : DDM) : reachable binary d -> snapshot_in_range d.
Proof.
  induction 1 as [mi wl ocl | d _ _ | d x d' o Hr IH Hx H].
  - left. reflexivity.
  - left. reflexivity.
  - apply (add_element_snapshot_in_range d x d' o); try assumption.
    + apply reachable_in_range. exact Hr.
    + exact (reachable_minimum_not_nan _ d Hr).
Qed.

(** What the classification of lines 145-154 compares, with what is known
    of the numbers once the call passed the gate. *)
Lemma classified (d : DDM) (x : float) (d' : DDM) (o : bool * bool) :
  reachable binary d -> binary x ->
  add_element d x = Ok (d', o) ->
  o <> (false, false) ->
  (finite (miss_prob_min d') /\
   0 <= fval (miss_prob_min d') <= 2 ^ 1074 /\
   is_nan (miss_sd_min d') = false /\
   0 <= fval (miss_sd_min d')) /\
  warning_level d' = warning_level d /\
  out_control_level d' = out_control_level d /\
  o = (if (out_control_threshold d' <? sum_of d')%float then (true, false)
       else if (warning_threshold d' <? sum_of d')%float then (false, true)
       else (false, false)).
Proof.
  intros Hr Hx H Hne.
  pose proof (add_element_fields _ _ _ _ H) as (_ & _ & Hcfg).
  unfold config in Hcfg. injection Hcfg as _ Hwl Hocl.
  destruct (add_element_snapshot_in_range d x d' o (reachable_in_range d Hr)
              (reachable_snapshot_in_range d Hr) Hx (reachable_minimum_not_nan _ d Hr) H)
    as [_ Hg].
  apply add_element_Ok in H. destruct H as (u & _ & Hc).
  apply conclude_cases in Hc. destruct Hc as (_ & _ & _ & Ho).
  destruct (gated d'); [|congruence].
  split; [apply Hg; reflexivity|]. auto.
Qed.

(** X14.  Lines 145-149 with [warning_level <= out_control_level]: the drift
    zone lies inside the warning zone.  Under observations in {0, 1} a
    call that returns a drift leaves [error_rate + error_std] above the
    warning threshold as well, in binary64: the [elif] of line 149 hides no
    call that is a drift without being a warning. *)
Theorem drift_is_beyond_warning (d : DDM) (x : float) (d' : DDM) (w : bool) :
  reachable binary d -> binary x ->
  (warning_level d <=? out_control_level d)%float = true ->
  (neg_infinity <? warning_level d)%float = true ->
  add_element d x = Ok (d', (true, w)) ->
  (out_control_threshold d' <? sum_of d')%float = true /\
  (warning_threshold d' <? sum_of d')%float = true.
Proof.
  intros Hr Hx Hle Hw H.
  destruct (classified d x d' _ Hr Hx H ltac:(discriminate))
    as ((Fp & Hp & Ns & Hs) & Ewl & Eocl & Ho).
  assert (Hd : (out_control_threshold d' <? sum_of d')%float = true).
  { destruct (out_control_threshold d' <? sum_of d')%float; [reflexivity|].
    destruct (warning_threshold d' <? sum_of d')%float; discriminate Ho. }
  split; [exact Hd|].
  unfold warning_threshold, out_control_threshold in *. rewrite Ewl. rewrite Eocl in Hd.
  exact (threshold_mono _ _ _ _ _ Fp Hp Ns Hs Hle Hw Hd).
Qed.

(** X15.  Lines 145-149 with [out_control_level <= warning_level]: the warning
    zone is empty.  Under observations in {0, 1} no call returns a
    warning, since whatever is above the warning threshold is above the
    out-control threshold, which line 145 tests first. *)
Theorem no_warning_when_levels_swapped (d : DDM) (x : float) (d' : DDM) (o : bool * bool) :
  reachable binary d -> binary x ->
  (out_control_level d <=? warning_level d)%float = true ->
  (neg_infinity <? out_control_level d)%float = true ->
  add_element d x = Ok (d', o) ->
  snd o = false.
Proof.
  intros Hr Hx Hle Ho H.
  assert (Hd : o = (false, false) \/ o <> (false, false)).
  { destruct o as [[|] [|]]; (left; reflexivity) || (right; discriminate). }
  destruct Hd as [->|Hne]; [reflexivity|].
  destruct (classified d x d' o Hr Hx H Hne) as ((Fp & Hp & Ns & Hs) & Ewl & Eocl & ->).
  destruct (out_control_threshold d' <? sum_of d')%float eqn:Hd; [reflexivity|].
  destruct (warning_threshold d' <? sum_of d')%float eqn:Hw; [|reflexivity].
  exfalso.
  unfold warning_threshold, out_control_threshold in *. rewrite Ewl in Hw. rewrite Eocl in Hd.
  rewrite (threshold_mono _ _ _ _ _ Fp Hp Ns Hs Hle Ho Hw) in Hd. discriminate Hd.
Qed.

End Levels.

(** ** What one call leaves in the object *)

Section Stored.

Context {parent : DriftDetector}.

(** X16.  Lines 132-138 and 156: the pair a call returns is the pair of flags it
    leaves in the object, where the caller's [detected_change] finds it;
    [estimation] is the new error rate and [delay] is 0. *)
Theorem returned_pair_is_stored (d : DDM) (x : float) (d' : DDM) (o : bool * bool) :
  add_element d x = Ok (d', o) ->
  o = (in_concept_change d', in_warning_zone d') /\
  estimation (base d') = Some (miss_prob d') /\
  delay (base d') = Some 0.
Proof.
  intros H. apply add_element_fields in H. destruct H as (_ & Hb & _).
  unfold in_concept_change, in_warning_zone. rewrite Hb. cbn.
  destruct o; auto.
Qed.

End Stored.

(** ** Concrete runs, with the base class of creme *)

Section Runs.

#[local] Existing Instance creme_base.

Lemma config_frame_witness :
  exists (d' : DDM) (o : bool * bool),
    add_element (DDM_init 30 2 3) 1 = Ok (d', o) /\ config d' = config (DDM_init 30 2 3).
Proof.
  eexists _, _. split; [vm_compute; reflexivity|].
  match goal with |- config ?D = _ =>
    apply (proj2 (proj2 (config_frame (DDM_init 30 2 3))) 1%float D (false, false))
  end.
  vm_compute; reflexivity.
Defined.

Lemma flags_exclusive_witness :
  exists (d' : DDM) (o : bool * bool),
    add_element (DDM_init 30 2 3) 1 = Ok (d', o) /\ o <> (true, true).
Proof.
  eexists _, _. split; [vm_compute; reflexivity|].
  eapply (flags_exclusive (DDM_init 30 2 3) 1%float). vm_compute; reflexivity.
Defined.

Lemma warning_comparison_strict_witness :
  exists (d' : DDM) (o : bool * bool),
    add_element (after (DDM_init 3 2 3) [0]%float) 0 = Ok (d', o) /\
    sum_of d' = warning_threshold d' /\
    snd o = false.
Proof.
  eexists _, _. split; [vm_compute; reflexivity|].
  match goal with |- sum_of ?D = _ /\ snd ?O = _ =>
    split; [reflexivity|];
    apply (proj1 warning_comparison_strict (after (DDM_init 3 2 3) [0]%float) 0%float D O)
  end.
  - vm_compute; reflexivity.
  - right. reflexivity.
Defined.

Lemma drift_resets_next_call_witness :
  exists d' : DDM,
    add_element (after (DDM_init 3 2 3) [0; 0]%float) 1 = Ok (d', (true, false)) /\
    lazy_reset d' = reset d' /\
    (forall y : float, add_element d' y = add_element (reset d') y) /\
    sample_count (lazy_reset d') = 1 /\
    miss_prob (lazy_reset d') = 1%float /\
    miss_std (lazy_reset d') = 0%float /\
    miss_prob_sd_min (lazy_reset d') = infinity /\
    miss_prob_min (lazy_reset d') = infinity /\
    miss_sd_min (lazy_reset d') = infinity.
Proof.
  eexists. split; [vm_compute; reflexivity|].
  eapply (drift_resets_next_call (after (DDM_init 3 2 3) [0; 0]%float) 1%float).
  vm_compute; reflexivity.
Defined.

Lemma reset_idempotent_fresh_witness :
  reset (reset (DDM_init 30 2 3)) = reset (DDM_init 30 2 3).
Proof.
  apply (proj1 (proj2 (reset_idempotent_fresh (DDM_init 30 2 3)))).
  intros b. reflexivity.
Defined.

Lemma reachable_after_1 : reachable binary (after (DDM_init 3 2 3) [1]%float).
Proof.
  eapply (reach_add binary (DDM_init 3 2 3) 1%float); [apply reach_init | right; reflexivity |].
  vm_compute; reflexivity.
Qed.

Lemma reachable_after_10 : reachable binary (after (DDM_init 3 2 3) [1; 0]%float).
Proof.
  eapply (reach_add binary (after (DDM_init 3 2 3) [1]%float) 0%float);
    [exact reachable_after_1 | left; reflexivity |].
  vm_compute; reflexivity.
Qed.

Lemma minimum_below_gated_sum_witness :
  exists (d' : DDM) (o : bool * bool),
    add_element (after (DDM_init 3 2 3) [1]%float) 0 = Ok (d', o) /\
    (miss_prob_sd_min d' <=? sum_of d')%float = true.
Proof.
  eexists _, (false, false). split; [vm_compute; reflexivity|].
  match goal with |- (miss_prob_sd_min ?D <=? _)%float = true =>
    assert (H : add_element (after (DDM_init 3 2 3) [1]%float) 0 = Ok (D, (false, false)))
      by (vm_compute; reflexivity);
    assert (G : gated D = true) by reflexivity;
    exact (proj2 (minimum_below_gated_sum _ _ _ _ H G) reachable_after_1 (or_introl eq_refl))
  end.
Defined.

Lemma minimum_tracked_after_gate_witness :
  exists tr : list (DDM * (bool * bool)),
    add_elements (reset (DDM_init 3 2 3)) [1; 0; 0; 1]%float = Ok tr /\
    is_running_min (miss_prob_sd_min (final (reset (DDM_init 3 2 3)) tr)) (gated_sums tr).
Proof.
  eexists. split; [vm_compute; reflexivity|].
  apply (proj2 (minimum_tracked_after_gate (DDM_init 3 2 3)) [1; 0; 0; 1]%float).
  - vm_compute; reflexivity.
  - repeat constructor.
Defined.

Lemma statistics_update_order_witness :
  Py.float_of_int (sample_count (reset (DDM_init 30 2 3))) = Ok 1%float /\
  exists (n : float) (d' : DDM) (o : bool * bool),
    Py.float_of_int (sample_count (lazy_reset (DDM_init 30 2 3))) = Ok n /\
    add_element (DDM_init 30 2 3) 0 = Ok (d', o) /\
    miss_prob d'
    = (miss_prob (lazy_reset (DDM_init 30 2 3))
       + (0 - miss_prob (lazy_reset (DDM_init 30 2 3))) / n)%float /\
    miss_std d' = sqrt (miss_prob d' * (1 - miss_prob d') / n)%float /\
    sample_count d' = sample_count (lazy_reset (DDM_init 30 2 3)) + 1.
Proof.
  apply (statistics_update_order (DDM_init 30 2 3) 0%float).
  split; [vm_compute; discriminate | vm_compute; reflexivity].
Defined.

Lemma error_std_nonneg_witness :
  (0 <=? miss_std (after (DDM_init 3 2 3) [1; 0]%float))%float = true /\
  (0 <=? miss_prob (after (DDM_init 3 2 3) [1; 0]%float))%float = true /\
  (miss_prob (after (DDM_init 3 2 3) [1; 0]%float) <=? 1)%float = true.
Proof.
  destruct (error_std_nonneg (after (DDM_init 3 2 3) [1; 0]%float) reachable_after_10)
    as (H1 & H2 & H3 & _).
  auto.
Defined.

(** C2 as stated fails: the first observation of a fresh detector leaves
    [error_rate + error_std = 0] and [min_sum] infinite. *)
Lemma minimum_not_tracked_in_warm_up :
  exists tr : list (DDM * (bool * bool)),
    add_elements (DDM_init 30 2 3) [0]%float = Ok tr /\
    gated (final (DDM_init 30 2 3) tr) = false /\
    ~ is_running_min (miss_prob_sd_min (final (DDM_init 30 2 3) tr)) (all_sums tr).
Proof.
  eexists. split; [reflexivity|]. split; [reflexivity|].
  intros [H _]. cbn in H. destruct H as [H|[]].
  apply (f_equal is_infinity) in H. discriminate H.
Qed.

(** C3 as stated fails: after the first observation of a fresh detector
    [min_sum] is infinite and [error_rate + error_std] is 1. *)
Lemma minimum_above_sum_in_warm_up :
  exists (d' : DDM) (o : bool * bool),
    add_element (DDM_init 30 2 3) 1 = Ok (d', o) /\
    (miss_prob_sd_min d' <=? sum_of d')%float = false.
Proof. eexists _, _. split; reflexivity. Qed.

(** *** Runs for the further properties *)


Lemma sample_count_counts_witness :
  exists tr : list (DDM * (bool * bool)),
    add_elements (reset (DDM_init 3 2 3)) [1; 0; 0; 1]%float = Ok tr /\
    sample_count (final (reset (DDM_init 3 2 3)) tr) = 5 /\
    gated (final (reset (DDM_init 3 2 3)) tr) = true.
Proof.
  eexists. split; [vm_compute; reflexivity|].
  apply (sample_count_counts (DDM_init 3 2 3) [1; 0; 0; 1]%float).
  - vm_compute; reflexivity.
  - repeat constructor.
Defined.


Lemma no_warm_up_below_three_witness :
  exists (d' : DDM) (o : bool * bool),
    add_element (DDM_init 2 2 3) 1 = Ok (d', o) /\
    gated d' = true /\
    (miss_prob_sd_min d' <=? sum_of d')%float = true.
Proof.
  eexists _, (false, false). split; [vm_compute; reflexivity|].
  match goal with |- gated ?D = true /\ _ =>
    assert (H : add_element (DDM_init 2 2 3) 1 = Ok (D, (false, false)))
      by (vm_compute; reflexivity);
    assert (M : min_instances (DDM_init 2 2 3) <= 2) by (vm_compute; discriminate);
    destruct (no_warm_up_below_three _ _ _ _ (reach_init binary 2 2%float 3%float) M H)
      as [G S]
  end.
  split; [exact G|]. apply S. right. reflexivity.
Defined.

Lemma snapshot_coupled_witness :
  miss_prob_sd_min (after (DDM_init 3 2 3) [1; 0]%float)
  = (miss_prob_min (after (DDM_init 3 2 3) [1; 0]%float)
     + miss_sd_min (after (DDM_init 3 2 3) [1; 0]%float))%float.
Proof. exact (snapshot_coupled binary _ reachable_after_10). Defined.

Lemma minimum_never_rises_witness :
  exists (d' : DDM) (o : bool * bool),
    add_element (after (DDM_init 3 2 3) [1]%float) 0 = Ok (d', o) /\
    (miss_prob_sd_min d' <=? miss_prob_sd_min (after (DDM_init 3 2 3) [1]%float))%float = true.
Proof.
  eexists _, (false, false). split; [vm_compute; reflexivity|].
  match goal with |- (miss_prob_sd_min ?D <=? _)%float = true =>
    assert (H : add_element (after (DDM_init 3 2 3) [1]%float) 0 = Ok (D, (false, false)))
      by (vm_compute; reflexivity);
    exact (minimum_never_rises binary _ _ _ _ reachable_after_1 eq_refl H)
  end.
Defined.

Lemma drift_restarts_detector_witness :
  exists d' : DDM,
    add_element (after (DDM_init 3 2 3) [0; 0]%float) 1 = Ok (d', (true, false)) /\
    forall ys : list float, add_elements d' ys = add_elements (DDM_init 3 2 3) ys.
Proof.
  eexists. split; [vm_compute; reflexivity|].
  match goal with |- forall ys, add_elements ?D ys = _ =>
    assert (H : add_element (after (DDM_init 3 2 3) [0; 0]%float) 1 = Ok (D, (true, false)))
      by (vm_compute; reflexivity);
    exact (drift_restarts_detector _ _ _ _ H)
  end.
Defined.


Lemma reachable_after_0 : reachable binary (after (DDM_init 3 2 3) [0]%float).
Proof.
  eapply (reach_add binary (DDM_init 3 2 3) 0%float); [apply reach_init | left; reflexivity |].
  vm_compute; reflexivity.
Qed.

Lemma reachable_after_00 : reachable binary (after (DDM_init 3 2 3) [0; 0]%float).
Proof.
  eapply (reach_add binary (after (DDM_init 3 2 3) [0]%float) 0%float);
    [exact reachable_after_0 | left; reflexivity |].
  vm_compute; reflexivity.
Qed.

Lemma flag_needs_earlier_minimum_witness :
  exists d' : DDM,
    add_element (after (DDM_init 3 2 3) [0; 0]%float) 1 = Ok (d', (true, false)) /\
    gated d' = true /\
    snapshot d' = snapshot (lazy_reset (after (DDM_init 3 2 3) [0; 0]%float)) /\
    (miss_prob_sd_min d' <? sum_of d')%float = true.
Proof.
  eexists. split; [vm_compute; reflexivity|].
  match goal with |- gated ?D = true /\ _ =>
    assert (H : add_element (after (DDM_init 3 2 3) [0; 0]%float) 1 = Ok (D, (true, false)))
      by (vm_compute; reflexivity);
    apply (flag_needs_earlier_minimum _ 1%float D (true, false) reachable_after_00)
  end.
  - right. reflexivity.
  - vm_compute; reflexivity.
  - vm_compute; reflexivity.
  - exact H.
  - discriminate.
Defined.

Lemma warm_up_holds_from_level_one_witness :
  exists tr : list (DDM * (bool * bool)),
    add_elements (reset (DDM_init 3 2 3)) [1; 0]%float = Ok tr /\
    Forall (fun r => snd r = (false, false)) tr.
Proof.
  apply (warm_up_holds_from_level_one (DDM_init 3 2 3) [1; 0]%float).
  - vm_compute; reflexivity.
  - vm_compute; reflexivity.
  - constructor; [right; reflexivity|]. constructor; [left; reflexivity|]. constructor.
  - vm_compute; reflexivity.
  - vm_compute; reflexivity.
Defined.

Lemma constant_stream_silent_witness :
  exists tr : list (DDM * (bool * bool)),
    add_elements (reset (DDM_init 3 2 3)) (repeat 1%float 5) = Ok tr /\
    Forall (fun r => snd r = (false, false) /\ miss_prob (fst r) = 1%float) tr.
Proof.
  apply (constant_stream_silent (DDM_init 3 2 3) 1%float 5).
  - right. reflexivity.
  - vm_compute; reflexivity.
Defined.


Lemma error_rate_moves_toward_observation_witness :
  exists (d' : DDM) (o : bool * bool),
    add_element (after (DDM_init 3 2 3) [1]%float) 0 = Ok (d', o) /\
    (miss_prob d' <=? miss_prob (lazy_reset (after (DDM_init 3 2 3) [1]%float)))%float = true.
Proof.
  eexists _, (false, false). split; [vm_compute; reflexivity|].
  match goal with |- (miss_prob ?D <=? _)%float = true =>
    assert (H : add_element (after (DDM_init 3 2 3) [1]%float) 0 = Ok (D, (false, false)))
      by (vm_compute; reflexivity);
    exact (proj2 (error_rate_moves_toward_observation _ _ _ _ reachable_after_1 H) eq_refl)
  end.
Defined.

Lemma drift_is_beyond_warning_witness :
  exists d' : DDM,
    add_element (after (DDM_init 3 2 3) [0; 0]%float) 1 = Ok (d', (true, false)) /\
    (out_control_threshold d' <? sum_of d')%float = true /\
    (warning_threshold d' <? sum_of d')%float = true.
Proof.
  eexists. split; [vm_compute; reflexivity|].
  match goal with |- (out_control_threshold ?D <? _)%float = true /\ _ =>
    assert (H : add_element (after (DDM_init 3 2 3) [0; 0]%float) 1 = Ok (D, (true, false)))
      by (vm_compute; reflexivity);
    apply (drift_is_beyond_warning _ 1%float D false reachable_after_00)
  end.
  - right. reflexivity.
  - vm_compute; reflexivity.
  - vm_compute; reflexivity.
  - exact H.
Defined.

Lemma reachable_swapped_0 : reachable binary (after (DDM_init 3 3 2) [0]%float).
Proof.
  eapply (reach_add binary (DDM_init 3 3 2) 0%float); [apply reach_init | left; reflexivity |].
  vm_compute; reflexivity.
Qed.

Lemma reachable_swapped_00 : reachable binary (after (DDM_init 3 3 2) [0; 0]%float).
Proof.
  eapply (reach_add binary (after (DDM_init 3 3 2) [0]%float) 0%float);
    [exact reachable_swapped_0 | left; reflexivity |].
  vm_compute; reflexivity.
Qed.

Lemma no_warning_when_levels_swapped_witness :
  exists (d' : DDM) (o : bool * bool),
    add_element (after (DDM_init 3 3 2) [0; 0]%float) 1 = Ok (d', o) /\ snd o = false.
Proof.
  eexists _, (true, false).
  match goal with |- add_element ?D0 ?X = Ok (?D, ?O) /\ _ =>
    assert (H : add_element D0 X = Ok (D, O)) by (vm_compute; reflexivity)
  end.
  split; [exact H|].
  match type of H with _ = Ok (?D, _) =>
    apply (no_warning_when_levels_swapped _ 1%float D (true, false) reachable_swapped_00)
  end.
  - right. reflexivity.
  - vm_compute; reflexivity.
  - vm_compute; reflexivity.
  - exact H.
Defined.

Lemma returned_pair_is_stored_witness :
  exists (d' : DDM) (o : bool * bool),
    add_element (DDM_init 30 2 3) 1 = Ok (d', o) /\
    o = (in_concept_change d', in_warning_zone d') /\
    estimation (base d') = Some (miss_prob d') /\
    delay (base d') = Some 0.
Proof.
  eexists _, _. split; [vm_compute; reflexivity|].
  eapply (returned_pair_is_stored (DDM_init 30 2 3) 1%float). vm_compute; reflexivity.
Defined.

End Runs.
